(** * Deadlock avoidance (Banker's algorithm) and deadlock detection

    A shallow embedding of [bankeralgodeadlock.py] and
    [deadlockdetection.py], with the properties of their natural-language
    specification stated and settled against the embedded code.

    Conventions of the embedding.
    - Python integers are unbounded: they are [Z].  Thread and resource
      identifiers are list indices counted from the front: they are
      [nat].  Negative indices, which Python counts from the end of a
      list, are left out.
    - A Python statement that raises ([IndexError], [KeyError]) makes the
      embedded function return [None]; the state an uncaught exception
      leaves behind is not modelled.
    - The rows of [allocation] and [need] are list objects that the code
      mutates in place and that a slice copy [xs[:]] shares with its
      original.  They live in a store of row objects and the outer lists
      hold references into it.
    - The lists passed as [request] and [release] are objects as well.
      A list of the caller's own is only read: it is a value ([Banker]).
      One of the object's own lists changes while the method reads it:
      [Aliasing] takes the argument as the object it is. *)

From stdpp Require Import base option list gmap relations.
From Stdlib Require Import ZArith Lia.

Open Scope Z_scope.

(** ** Python idioms *)

(** [l[i] = x]: raises when [i] is out of range. *)
Definition list_set {A} (i : nat) (x : A) (l : list A) : option (list A) :=
  if decide (i < length l)%nat then Some (<[i:=x]> l) else None.

(** [for a in l: body]: the body threads the state and may raise. *)
Fixpoint for_each {A S} (body : A → S → option S) (l : list A) (s : S)
  : option S :=
  match l with
  | [] => Some s
  | a :: l' => s' ← body a s; for_each body l' s'
  end.

(** [for a in l: body] where the body may leave the loop early ([return] or
    [break]): the flag tells whether it did. *)
Fixpoint for_until {A S} (body : A → S → option (bool * S)) (l : list A)
  (s : S) : option (bool * S) :=
  match l with
  | [] => Some (false, s)
  | a :: l' =>
      match body a s with
      | None => None
      | Some (true, s') => Some (true, s')
      | Some (false, s') => for_until body l' s'
      end
  end.

(** [range(n)] *)
Definition range (n : nat) : list nat := seq 0 n.

(** [enumerate(l)] *)
Definition enumerate {A} (l : list A) : list (nat * A) := imap pair l.

(** ** bankeralgodeadlock.py *)

Module Banker.

(** The object [self].  [allocation] and [need] are lists of references
    to the row objects of [store]. *)
Record BankersAlgorithm := mkBanker {
  num_resources : nat;
  num_threads : nat;
  available : list Z;
  max : list (list Z);
  allocation : list nat;
  need : list nat;
  store : list (list Z)
}.

Definition set_available (v : list Z) (s : BankersAlgorithm) :=
  mkBanker (num_resources s) (num_threads s) v (max s) (allocation s)
    (need s) (store s).
Definition set_allocation (v : list nat) (s : BankersAlgorithm) :=
  mkBanker (num_resources s) (num_threads s) (available s) (max s) v
    (need s) (store s).
Definition set_need (v : list nat) (s : BankersAlgorithm) :=
  mkBanker (num_resources s) (num_threads s) (available s) (max s)
    (allocation s) v (store s).
Definition set_store (v : list (list Z)) (s : BankersAlgorithm) :=
  mkBanker (num_resources s) (num_threads s) (available s) (max s)
    (allocation s) (need s) v.

(** [refs[i]], the row object itself. *)
Definition row (s : BankersAlgorithm) (refs : list nat) (i : nat)
  : option (list Z) :=
  l ← refs !! i; store s !! l.

(** [refs[i][j]] *)
Definition cell (s : BankersAlgorithm) (refs : list nat) (i j : nat)
  : option Z :=
  r ← row s refs i; r !! j.

(** [refs[i][j] = f(refs[i][j])]: an update in place of the row object. *)
Definition update_cell (refs : list nat) (i j : nat) (f : Z → Z)
  (s : BankersAlgorithm) : option BankersAlgorithm :=
  l ← refs !! i;
  r ← store s !! l;
  v ← r !! j;
  Some (set_store (<[l := <[j := f v]> r]> (store s)) s).

(** What a caller reads from the object: the values of [available],
    [allocation] and [need], the nested rows included. *)
Definition deref (s : BankersAlgorithm) (refs : list nat)
  : option (list (list Z)) :=
  mapM (λ l, store s !! l) refs.

Definition ledger (s : BankersAlgorithm)
  : list Z * option (list (list Z)) * option (list (list Z)) :=
  (available s, deref s (allocation s), deref s (need s)).

(** [calculate_need]: the rows [max[i][j] - allocation[i][j]]. *)
Definition calculate_need (nr nt : nat) (mx al : list (list Z))
  : option (list (list Z)) :=
  mapM (λ i,
    mapM (λ j,
      mi ← mx !! i; m ← mi !! j;
      ai ← al !! i; a ← ai !! j;
      Some (m - a)) (range nr)) (range nt).

(** [__init__]: the literal rows of [allocation] are the first objects of
    the store, the rows that [calculate_need] builds follow them. *)
Definition init (nr nt : nat) : option BankersAlgorithm :=
  let mx := [[7; 5; 3]; [3; 2; 2]; [9; 0; 2]] in
  let al := [[0; 0; 0]; [0; 0; 0]; [0; 0; 0]] in
  nd ← calculate_need nr nt mx al;
  Some (mkBanker nr nt (replicate nr 3) mx (seq 0 (length al))
          (seq (length al) (length nd)) (al ++ nd)).

(** [all(self.need[i][j] <= work[j] for j in js)] *)
Fixpoint all_le (s : BankersAlgorithm) (i : nat) (work : list Z)
  (js : list nat) : option bool :=
  match js with
  | [] => Some true
  | j :: js' =>
      n ← cell s (need s) i j;
      w ← work !! j;
      if bool_decide (n ≤ w) then all_le s i work js' else Some false
  end.

(** [for j in range(num_resources): work[j] += self.allocation[i][j]] *)
Definition release_into (s : BankersAlgorithm) (i : nat) (work : list Z)
  : option (list Z) :=
  for_each (λ j work,
      w ← work !! j;
      a ← cell s (allocation s) i j;
      list_set j (w + a) work)
    (range (num_resources s)) work.

(** The local variables of [is_safe]. *)
Record scan := mkScan {
  work : list Z;
  finish : list bool;
  safe_sequence : list nat
}.

(** The body of [for i in range(self.num_threads)]; the flag is
    [progress], set just before [break]. *)
Definition scan_body (s : BankersAlgorithm) (i : nat) (st : scan)
  : option (bool * scan) :=
  f ← finish st !! i;
  if (f : bool) then Some (false, st) else
  ok ← all_le s i (work st) (range (num_resources s));
  if (ok : bool) then
    finish' ← list_set i true (finish st);
    work' ← release_into s i (work st);
    Some (true, mkScan work' finish' (safe_sequence st ++ [i]))
  else Some (false, st).

(** [while len(safe_sequence) < self.num_threads]; every turn of the loop
    either returns or makes [safe_sequence] one longer, so that
    [num_threads] turns are enough (lemma [is_safe_loop_fuel]). *)
Fixpoint is_safe_loop (fuel : nat) (s : BankersAlgorithm) (st : scan)
  : option (bool * list nat) :=
  if decide (length (safe_sequence st) < num_threads s)%nat then
    match fuel with
    | O => None
    | S fuel' =>
        match for_until (scan_body s) (range (num_threads s)) st with
        | None => None
        | Some (progress, st') =>
            if progress then is_safe_loop fuel' s st'
            else Some (false, safe_sequence st')
        end
    end
  else Some (true, safe_sequence st).

Definition scan0 (s : BankersAlgorithm) : scan :=
  mkScan (available s) (replicate (num_threads s) false) [].

Definition is_safe (s : BankersAlgorithm) : option (bool * list nat) :=
  is_safe_loop (num_threads s) s (scan0 s).

(** In the definitions of this module [request] and [release] are lists
    of the caller's own, no part of the object: the methods only read
    them, so that they are values.  Module [Aliasing] below takes the
    argument as the object it is. *)

(** [any(request[i] > bound[i] for i in idx)] *)
Fixpoint any_gt (request : list Z) (bound : nat → option Z)
  (idx : list nat) : option bool :=
  match idx with
  | [] => Some false
  | i :: idx' =>
      r ← request !! i;
      b ← bound i;
      if bool_decide (r > b) then Some true else any_gt request bound idx'
  end.

(** One turn of the loop "Allocate resources" of [request_resources]. *)
Definition allocate_step (thread_id : nat) (request : list Z) (i : nat)
  (s : BankersAlgorithm) : option BankersAlgorithm :=
  a ← available s !! i;
  r ← request !! i;
  av ← list_set i (a - r) (available s);
  s ← update_cell (allocation s) thread_id i (λ v, v + r)
        (set_available av s);
  update_cell (need s) thread_id i (λ v, v - r) s.

(** [request_resources]: the result is the returned boolean and the object
    after the call.  The three "original" lists are slice copies: new
    outer lists, holding the same row objects. *)
Definition request_resources (thread_id : nat) (request : list Z)
  (s : BankersAlgorithm) : option (bool * BankersAlgorithm) :=
  invalid ← any_gt request (λ i, cell s (need s) thread_id i)
              (range (num_resources s));
  if (invalid : bool) then Some (false, s) else
  waiting ← any_gt request (λ i, available s !! i)
              (range (num_resources s));
  if (waiting : bool) then Some (false, s) else
  let original_available := available s in
  let original_allocation := allocation s in
  let original_need := need s in
  s' ← for_each (allocate_step thread_id request)
         (range (num_resources s)) s;
  match is_safe s' with
  | None => None
  | Some (safe, safe_sequence) =>
      if safe then Some (true, s')
      else Some (false,
             set_need original_need
               (set_allocation original_allocation
                  (set_available original_available s')))
  end.

(** One turn of the loop of [release_resources]. *)
Definition release_step (thread_id : nat) (release : list Z) (i : nat)
  (s : BankersAlgorithm) : option BankersAlgorithm :=
  a ← available s !! i;
  r ← release !! i;
  av ← list_set i (a + r) (available s);
  s ← update_cell (allocation s) thread_id i (λ v, v - r)
        (set_available av s);
  update_cell (need s) thread_id i (λ v, v + r) s.

Definition release_resources (thread_id : nat) (release : list Z)
  (s : BankersAlgorithm) : option BankersAlgorithm :=
  for_each (release_step thread_id release) (range (num_resources s)) s.

(** *** Notions used to state the properties *)

(** The shape that [__init__] establishes and both methods keep: the
    vectors cover the resource classes, every thread has its two rows,
    and no row object is shared. *)
Record wf (s : BankersAlgorithm) : Prop := mkWf {
  wf_available : (num_resources s ≤ length (available s))%nat;
  wf_allocation : (num_threads s ≤ length (allocation s))%nat;
  wf_need : (num_threads s ≤ length (need s))%nat;
  wf_rows :
    ∀ l, l ∈ allocation s ++ need s →
         ∃ r, store s !! l = Some r ∧ (num_resources s ≤ length r)%nat;
  wf_nodup : NoDup (allocation s ++ need s)
}.

(** The vector [v] with [v[c]] replaced by [f v[c] req[c]] for the
    classes [c < n]. *)
Definition bump (f : Z → Z → Z) (req : list Z) (n : nat) (v : list Z)
  : list Z :=
  imap (λ c x, if decide (c < n)%nat then from_option (f x) x (req !! c)
               else x) v.

(** The common shape of the loops of [request_resources] and
    [release_resources]. *)
Definition move_step (fa fl fn : Z → Z → Z) (thread_id : nat)
  (amounts : list Z) (i : nat) (s : BankersAlgorithm)
  : option BankersAlgorithm :=
  a ← available s !! i;
  r ← amounts !! i;
  av ← list_set i (fa a r) (available s);
  s ← update_cell (allocation s) thread_id i (λ v, fl v r)
        (set_available av s);
  update_cell (need s) thread_id i (λ v, fn v r) s.

(** The object after the first [k] turns of such a loop. *)
Definition moved (fa fl fn : Z → Z → Z) (amounts : list Z) (k : nat)
  (la ln : nat) (ra rn : list Z) (s : BankersAlgorithm) : BankersAlgorithm :=
  set_store (<[ln := bump fn amounts k rn]>
               (<[la := bump fl amounts k ra]> (store s)))
    (set_available (bump fa amounts k (available s)) s).

(** The all-zero request. *)
Definition zeros (n : nat) : list Z := replicate n 0.

(** [available[c] + Σ allocation[actor][c]], the sum over the threads. *)
Definition class_total (s : BankersAlgorithm) (c : nat) : option Z :=
  a ← available s !! c;
  col ← mapM (λ i, cell s (allocation s) i c) (range (num_threads s));
  Some (a + foldr Z.add 0 col).

(** The safety check as the specification words it.  An actor is
    finished when it is in the sequence built so far. *)
Definition fits (s : BankersAlgorithm) (i : nat) (work : list Z) : Prop :=
  ∃ nd, row s (need s) i = Some nd
      ∧ ∀ c, (c < num_resources s)%nat →
             ∃ n w, nd !! c = Some n ∧ work !! c = Some w ∧ n ≤ w.

(** An unfinished actor whose need fits: one the scan may take. *)
Definition candidate (s : BankersAlgorithm) (work : list Z)
  (sq : list nat) (i : nat) : Prop :=
  (i < num_threads s)%nat ∧ (i ∉ sq) ∧ fits s i work.

(** [safety_run s work sq res]: from the scratch vector [work] and the
    sequence [sq], the procedure ends with [res].  All actors finished:
    [true] with the sequence.  Some actor unfinished and no candidate:
    [false] with the sequence built so far.  Otherwise the candidate of
    lowest index is appended, its allocation is added to [work], and the
    scan starts again. *)
Inductive safety_run (s : BankersAlgorithm)
  : list Z → list nat → bool * list nat → Prop :=
| run_complete work sq :
    (∀ i, (i < num_threads s)%nat → i ∈ sq) →
    safety_run s work sq (true, sq)
| run_stuck work sq :
    (∃ i, (i < num_threads s)%nat ∧ (i ∉ sq)) →
    (∀ i, ¬ candidate s work sq i) →
    safety_run s work sq (false, sq)
| run_step work sq i al res :
    candidate s work sq i →
    (∀ j, (j < i)%nat → ¬ candidate s work sq j) →
    row s (allocation s) i = Some al →
    safety_run s (bump Z.add al (num_resources s) work) (sq ++ [i]) res →
    safety_run s work sq res.

(** What the loop of [is_safe] keeps between its turns: [finish] marks
    exactly the threads of [safe_sequence], each of them once. *)
Definition scan_inv (s : BankersAlgorithm) (st : scan) : Prop :=
  length (finish st) = num_threads s
  ∧ (num_resources s ≤ length (work st))%nat
  ∧ NoDup (safe_sequence st)
  ∧ (∀ i, finish st !! i = Some true ↔ i ∈ safe_sequence st)
  ∧ (∀ i, i ∈ safe_sequence st → (i < num_threads s)%nat).

(** *** Notions used to state further properties *)

(** The units of class [c] that the threads of [l] hold together. *)
Definition gain (s : BankersAlgorithm) (c : nat) (l : list nat) : Z :=
  foldr (λ i acc, default 0 (cell s (allocation s) i c) + acc) 0 l.

(** The scratch vector after the threads of [l] have given their
    allocation back, one after the other. *)
Definition work_after (s : BankersAlgorithm) (W : list Z) (l : list nat)
  : list Z :=
  foldl (λ w i, bump Z.add (default [] (row s (allocation s) i))
                  (num_resources s) w) W l.

(** [sq] is an order in which the threads can finish one after the
    other, starting with [work] free: the need of each fits in what is
    free at its turn, and it then gives its allocation back. *)
Fixpoint safe_order (s : BankersAlgorithm) (work : list Z) (sq : list nat)
  : Prop :=
  match sq with
  | [] => True
  | i :: sq' =>
      fits s i work
      ∧ ∃ al, row s (allocation s) i = Some al
            ∧ safe_order s (bump Z.add al (num_resources s) work) sq'
  end.

(** A safe state: some order of all the threads is a safe order. *)
Definition safe_state (s : BankersAlgorithm) : Prop :=
  ∃ sq, sq ≡ₚ range (num_threads s) ∧ safe_order s (available s) sq.

(** No thread holds a negative amount. *)
Definition allocation_nonneg (s : BankersAlgorithm) : Prop :=
  ∀ i c x, (i < num_threads s)%nat → (c < num_resources s)%nat →
           cell s (allocation s) i c = Some x → 0 ≤ x.


(** [example_thread_work], run on its own (the sleep changes nothing). *)
Definition example_thread_work (thread_id : nat) (s : BankersAlgorithm)
  : option BankersAlgorithm :=
  let request := [1; 0; 2] in
  match request_resources thread_id request s with
  | None => None
  | Some (true, s') => release_resources thread_id request s'
  | Some (false, s') => Some s'
  end.

(** The object that [BankersAlgorithm(3, 3)] builds. *)
Definition banker33 : BankersAlgorithm :=
  mkBanker 3 3 [3; 3; 3] [[7; 5; 3]; [3; 2; 2]; [9; 0; 2]]
    [0; 1; 2]%nat [3; 4; 5]%nat
    [[0; 0; 0]; [0; 0; 0]; [0; 0; 0]; [7; 5; 3]; [3; 2; 2]; [9; 0; 2]].

(** Scenario A of the specification. *)
Definition scenarioA : BankersAlgorithm :=
  mkBanker 3 3 [3; 3; 2] [[7; 5; 3]; [3; 2; 2]; [9; 0; 2]]
    [0; 1; 2]%nat [3; 4; 5]%nat
    [[0; 1; 0]; [2; 0; 0]; [3; 0; 2]; [7; 4; 3]; [1; 2; 2]; [6; 0; 0]].

(** Scenario D of the specification: one class of two units, two actors
    that may each need both; actor 0 holds one unit. *)
Definition scenarioD : BankersAlgorithm :=
  mkBanker 1 2 [1] [[2]; [2]] [0; 1]%nat [2; 3]%nat [[1]; [0]; [1]; [2]].

(** Scenario D after the request of one unit by actor 1 has been
    denied. *)
Definition scenarioD_denied : BankersAlgorithm :=
  mkBanker 1 2 [1] [[2]; [2]] [0; 1]%nat [2; 3]%nat [[1]; [1]; [1]; [1]].

(** A safe state: one class, two threads. *)
Definition small_safe : BankersAlgorithm :=
  mkBanker 1 2 [2] [[2]; [1]] [0; 1]%nat [2; 3]%nat [[0]; [0]; [2]; [1]].

(** A state in which thread 0 may still ask for the free unit. *)
Definition one_free : BankersAlgorithm :=
  mkBanker 1 2 [1] [[1]; [1]] [0; 1]%nat [2; 3]%nat [[0]; [1]; [1]; [0]].

(** One thread that holds two units and may ask for one more, one unit
    free. *)
Definition one_thread : BankersAlgorithm :=
  mkBanker 1 1 [1] [[3]] [0]%nat [1]%nat [[2]; [1]].

End Banker.

(** ** bankeralgodeadlock.py: the argument lists as objects

    [request] and [release] are list objects.  The methods never write to
    them, but they read [request[i]] and [release[i]] again after each
    write to the object: a caller that passes one of the object's own
    lists ([banker.available], a row [banker.allocation[t]] or
    [banker.need[t]]) gets the entry as the loop has changed it.  The
    definitions below take the argument as the object it is; on a list
    that is no part of the object they are the definitions of [Banker]. *)

Module Aliasing.
Import Banker.

(** The list object that a caller passes. *)
Inductive vector :=
| Fresh (v : list Z)
| Available
| Row (l : nat).

(** [vec[i]] in the state [s]: [Fresh v] is a list that is no part of
    the object, [Available] is the list [self.available], [Row l] is the
    row object [l] of the store. *)
Definition item (vec : vector) (s : BankersAlgorithm) (i : nat)
  : option Z :=
  match vec with
  | Fresh v => v !! i
  | Available => available s !! i
  | Row l => r ← store s !! l; r !! i
  end.

(** [any(request[i] > bound[i] for i in idx)] *)
Fixpoint any_gt (request bound : nat → option Z) (idx : list nat)
  : option bool :=
  match idx with
  | [] => Some false
  | i :: idx' =>
      r ← request i;
      b ← bound i;
      if bool_decide (r > b) then Some true else any_gt request bound idx'
  end.

(** One turn of the loop "Allocate resources" of [request_resources]:
    each of the three statements reads [request[i]] anew. *)
Definition allocate_step (thread_id : nat) (request : vector) (i : nat)
  (s : BankersAlgorithm) : option BankersAlgorithm :=
  a ← available s !! i;
  r ← item request s i;
  av ← list_set i (a - r) (available s);
  let s := set_available av s in
  r ← item request s i;
  s ← update_cell (allocation s) thread_id i (λ v, v + r) s;
  r ← item request s i;
  update_cell (need s) thread_id i (λ v, v - r) s.

Definition request_resources (thread_id : nat) (request : vector)
  (s : BankersAlgorithm) : option (bool * BankersAlgorithm) :=
  invalid ← any_gt (item request s) (λ i, cell s (need s) thread_id i)
              (range (num_resources s));
  if (invalid : bool) then Some (false, s) else
  waiting ← any_gt (item request s) (λ i, available s !! i)
              (range (num_resources s));
  if (waiting : bool) then Some (false, s) else
  let original_available := available s in
  let original_allocation := allocation s in
  let original_need := need s in
  s' ← for_each (allocate_step thread_id request)
         (range (num_resources s)) s;
  match is_safe s' with
  | None => None
  | Some (safe, safe_sequence) =>
      if safe then Some (true, s')
      else Some (false,
             set_need original_need
               (set_allocation original_allocation
                  (set_available original_available s')))
  end.

(** One turn of the loop of [release_resources]. *)
Definition release_step (thread_id : nat) (release : vector) (i : nat)
  (s : BankersAlgorithm) : option BankersAlgorithm :=
  a ← available s !! i;
  r ← item release s i;
  av ← list_set i (a + r) (available s);
  let s := set_available av s in
  r ← item release s i;
  s ← update_cell (allocation s) thread_id i (λ v, v - r) s;
  r ← item release s i;
  update_cell (need s) thread_id i (λ v, v + r) s.

Definition release_resources (thread_id : nat) (release : vector)
  (s : BankersAlgorithm) : option BankersAlgorithm :=
  for_each (release_step thread_id release) (range (num_resources s)) s.





End Aliasing.

(** ** deadlockdetection.py *)

Module Detector.

(** The object [self].  [waiting_threads] is a dictionary from thread
    identifiers to sets of resource identifiers. *)
Record DeadlockDetector := mkDetector {
  num_resources : nat;
  num_threads : nat;
  resource_status : list (option nat);
  thread_locks : list (option nat);
  waiting_threads : gmap nat (gset nat)
}.

(** [__init__] *)
Definition init (nr nt : nat) : DeadlockDetector :=
  mkDetector nr nt (replicate nr None) (replicate nt None)
    (list_to_map ((λ i, (i, ∅)) <$> range nt)).

Definition request_resource (thread_id resource_id : nat)
  (d : DeadlockDetector) : option DeadlockDetector :=
  st ← resource_status d !! resource_id;
  match st with
  | None =>
      rs ← list_set resource_id (Some thread_id) (resource_status d);
      tl ← list_set thread_id (Some resource_id) (thread_locks d);
      Some (mkDetector (num_resources d) (num_threads d) rs tl
              (waiting_threads d))
  | Some _ =>
      w ← waiting_threads d !! thread_id;
      Some (mkDetector (num_resources d) (num_threads d)
              (resource_status d) (thread_locks d)
              (<[thread_id := w ∪ {[resource_id]}]> (waiting_threads d)))
  end.

Definition release_resource (thread_id resource_id : nat)
  (d : DeadlockDetector) : option DeadlockDetector :=
  l ← thread_locks d !! thread_id;
  if decide (l = Some resource_id) then
    rs ← list_set resource_id None (resource_status d);
    tl ← list_set thread_id None (thread_locks d);
    Some (mkDetector (num_resources d) (num_threads d) rs tl
            (waiting_threads d))
  else Some d.

(** The two lists that [check_deadlock] shares with its inner function. *)
Record marks := mkMarks {
  visited : list bool;
  rec_stack : list bool
}.

Section check_deadlock.

(** The order in which Python iterates over a set is not specified: it is
    a parameter of the traversal. *)
Variable set_order : gset nat → list nat.

(** The body of the innermost loop of [is_deadlock], for one pair of
    [enumerate(self.thread_locks)]; [recur] is the recursive call. *)
Definition holder_step (recur : nat → marks → option (bool * marks))
  (thread_id resource : nat) (item : nat * option nat) (m : marks)
  : option (bool * marks) :=
  let '(other_thread, other_resource) := item in
  if decide (other_thread ≠ thread_id ∧ other_resource = Some resource)
  then
    vo ← visited m !! other_thread;
    if negb vo then
      match recur other_thread m with
      | None => None
      | Some (true, m') => Some (true, m')
      | Some (false, m') =>
          ro ← rec_stack m' !! other_thread; Some (ro, m')
      end
    else ro ← rec_stack m !! other_thread; Some (ro, m)
  else Some (false, m).

(** The body of the inner function [is_deadlock]. *)
Definition is_deadlock_body (recur : nat → marks → option (bool * marks))
  (d : DeadlockDetector) (thread_id : nat) (m : marks)
  : option (bool * marks) :=
  v ← list_set thread_id true (visited m);
  r ← list_set thread_id true (rec_stack m);
  w ← waiting_threads d !! thread_id;
  match
    for_until (λ resource,
        for_until (holder_step recur thread_id resource)
          (enumerate (thread_locks d)))
      (set_order w) (mkMarks v r)
  with
  | None => None
  | Some (true, m') => Some (true, m')
  | Some (false, m') =>
      r' ← list_set thread_id false (rec_stack m');
      Some (false, mkMarks (visited m') r')
  end.

(** The inner function [is_deadlock].  It calls itself on unvisited
    threads only, so that the depth of the recursion is at most the number
    of threads: [fuel] bounds it. *)
Fixpoint is_deadlock (fuel : nat) (d : DeadlockDetector) (thread_id : nat)
  (m : marks) : option (bool * marks) :=
  match fuel with
  | O => None
  | S fuel' => is_deadlock_body (is_deadlock fuel' d) d thread_id m
  end.

(** The body of the loop of [check_deadlock]. *)
Definition check_step (d : DeadlockDetector) (thread_id : nat) (m : marks)
  : option (bool * marks) :=
  vt ← visited m !! thread_id;
  if negb vt then is_deadlock (num_threads d) d thread_id m
  else Some (false, m).

Definition check_deadlock (d : DeadlockDetector) : option bool :=
  let m0 := mkMarks (replicate (num_threads d) false)
              (replicate (num_threads d) false) in
  r ← for_until (check_step d) (range (num_threads d)) m0;
  Some r.1.

(** The body of the loop of [deadlock_prevention] that looks for the
    thread to terminate: the first thread with a lock record releases it,
    and the loop is left. *)
Definition terminate_step (thread_id : nat) (d : DeadlockDetector)
  : option (bool * DeadlockDetector) :=
  l ← thread_locks d !! thread_id;
  match l with
  | Some r => d' ← release_resource thread_id r d; Some (true, d')
  | None => Some (false, d)
  end.

(** [deadlock_prevention].  The clock is not modelled: [polls] is the
    number of times the test [time.time() - start_time < timeout] holds,
    that is the number of turns the clock leaves to the loop. *)
Fixpoint deadlock_prevention (polls : nat) (d : DeadlockDetector)
  : option DeadlockDetector :=
  match polls with
  | O => Some d
  | S polls' =>
      match check_deadlock d with
      | None => None
      | Some true =>
          r ← for_until terminate_step (range (num_threads d)) d;
          Some r.2
      | Some false => deadlock_prevention polls' d
      end
  end.

End check_deadlock.

(** [example_thread_work], run without another thread in between (the
    sleeps change nothing). *)
Definition example_thread_work (thread_id : nat) (d : DeadlockDetector)
  : option DeadlockDetector :=
  d ← request_resource thread_id 0 d;
  d ← request_resource thread_id 1 d;
  d ← release_resource thread_id 0 d;
  release_resource thread_id 1 d.

(** A call of one of the two mutating methods, and a sequence of them. *)
Inductive call :=
| Request (thread_id resource_id : nat)
| Release (thread_id resource_id : nat).

Definition exec (c : call) (d : DeadlockDetector) : option DeadlockDetector :=
  match c with
  | Request t r => request_resource t r d
  | Release t r => release_resource t r d
  end.

Definition run (cs : list call) (d : DeadlockDetector)
  : option DeadlockDetector :=
  for_each exec cs d.

(** *** Notions used to state the properties *)

(** Thread [a] is blocked on resource [r]. *)
Definition waits_on (d : DeadlockDetector) (a r : nat) : Prop :=
  ∃ w, waiting_threads d !! a = Some w ∧ r ∈ w.

(** The wait-for graph derived from the held map [resource_status]. *)
Definition held_edge (d : DeadlockDetector) (a b : nat) : Prop :=
  a ≠ b ∧ ∃ r, waits_on d a r ∧ resource_status d !! r = Some (Some b).

(** The wait-for graph that [is_deadlock] follows: the holder of a
    resource is looked up in the lock records [thread_locks]. *)
Definition lock_edge (d : DeadlockDetector) (a b : nat) : Prop :=
  a ≠ b ∧ ∃ r, waits_on d a r ∧ thread_locks d !! b = Some (Some r).

Definition has_cycle (R : relation nat) : Prop := ∃ a, tc R a a.

(** The shape that [__init__] establishes and every method keeps. *)
Definition wf (d : DeadlockDetector) : Prop :=
  length (thread_locks d) = num_threads d
  ∧ ∀ t, is_Some (waiting_threads d !! t) ↔ (t < num_threads d)%nat.

(** The held map and the lock records tell the same story. *)
Definition consistent (d : DeadlockDetector) : Prop :=
  ∀ r b, resource_status d !! r = Some (Some b)
       ↔ thread_locks d !! b = Some (Some r).

(** Every lock record names a resource that the held map gives to the
    thread. *)
Definition lock_sound (d : DeadlockDetector) : Prop :=
  ∀ t r, thread_locks d !! t = Some (Some r) →
         resource_status d !! r = Some (Some t).

(** Resource [r] is marked as held by thread [t] and is nobody's lock
    record. *)
Definition orphaned (d : DeadlockDetector) (t r : nat) : Prop :=
  resource_status d !! r = Some (Some t)
  ∧ ∀ t', thread_locks d !! t' ≠ Some (Some r).

(** The three colours of the traversal. *)
Definition white (m : marks) (i : nat) : Prop := visited m !! i = Some false.
Definition gray (m : marks) (i : nat) : Prop := rec_stack m !! i = Some true.
Definition black (m : marks) (i : nat) : Prop :=
  visited m !! i = Some true ∧ rec_stack m !! i = Some false.

Fixpoint count_false (l : list bool) : nat :=
  match l with
  | [] => 0
  | b :: l' => (if b then 0 else 1) + count_false l'
  end.

Definition marks_ok (n : nat) (m : marks) : Prop :=
  length (visited m) = n ∧ length (rec_stack m) = n
  ∧ ∀ i, gray m i → visited m !! i = Some true.

(** What the traversal keeps: the finished threads are closed under the
    edges and none of them lies on a cycle. *)
Definition dfs_inv (d : DeadlockDetector) (m : marks) : Prop :=
  marks_ok (num_threads d) m
  ∧ (∀ b c, black m b → lock_edge d b c → black m c)
  ∧ (∀ b, black m b → ¬ tc (lock_edge d) b b).

(** How the marks change while a call of [is_deadlock] that finds no
    cycle runs: the stack is the same when it returns, a visited thread
    stays visited. *)
Definition grows (m m' : marks) : Prop :=
  rec_stack m' = rec_stack m
  ∧ length (visited m') = length (visited m)
  ∧ (∀ i, visited m !! i = Some true → visited m' !! i = Some true)
  ∧ (count_false (visited m') ≤ count_false (visited m))%nat.

(** What a call [recur o m] of the inner function does when at most [k]
    threads are unvisited: it returns, [True] only when there is a cycle,
    [False] with [o] finished. *)
Definition recur_ok (d : DeadlockDetector) (k : nat)
  (recur : nat → marks → option (bool * marks)) : Prop :=
  ∀ o m,
    dfs_inv d m → white m o →
    (∀ g, gray m g → rtc (lock_edge d) g o) →
    (count_false (visited m) ≤ k)%nat →
    ∃ b m', recur o m = Some (b, m')
      ∧ (b = true → has_cycle (lock_edge d))
      ∧ (b = false →
           dfs_inv d m' ∧ grows m m' ∧ black m' o
           ∧ (count_false (visited m') < count_false (visited m))%nat).

(** The marks while thread [t], entered with the marks [m], is on top of
    the stack. *)
Definition on_stack (d : DeadlockDetector) (m : marks) (t : nat)
  (cur : marks) : Prop :=
  dfs_inv d cur
  ∧ rec_stack cur = <[t:=true]> (rec_stack m)
  ∧ visited cur !! t = Some true.

(** The edges of the lock-record graph that do not enter thread [v]. *)
Definition lock_edge_avoiding (d : DeadlockDetector) (v a b : nat) : Prop :=
  lock_edge d a b ∧ b ≠ v.

(** Thread [t] has a lock record and waits for some resource. *)
Definition holds_and_waits (d : DeadlockDetector) (t : nat) : Prop :=
  (∃ r, thread_locks d !! t = Some (Some r)) ∧ (∃ r, waits_on d t r).

(** Scenario B of the specification, with R1 and R2 the resources 0 and
    1. *)
Definition scenarioB : DeadlockDetector :=
  mkDetector 2 2 [Some 0; Some 1]%nat [Some 0; Some 1]%nat
    {[ 0%nat := {[ 1%nat ]}; 1%nat := {[ 0%nat ]} ]}.

(** Thread 0 holds the resources 0 and 1 and waits for 2; thread 1 holds
    2 and waits for 0. *)
Definition two_held : DeadlockDetector :=
  mkDetector 3 2 [Some 0; Some 0; Some 1]%nat [Some 1; Some 2]%nat
    {[ 0%nat := {[ 2%nat ]}; 1%nat := {[ 0%nat ]} ]}.

(** Thread 0 holds resource 0 and thread 1 waits for it. *)
Definition one_waiter : DeadlockDetector :=
  mkDetector 1 2 [Some 0%nat] [Some 0%nat; None]
    {[ 0%nat := ∅; 1%nat := {[ 0%nat ]} ]}.

(** Threads 0, 1 and 2 wait for the resource of thread 3, thread 0 also
    for those of 1 and 2: thread 3 is reached three times, no cycle. *)
Definition diamond : DeadlockDetector :=
  mkDetector 3 4 [Some 1; Some 2; Some 3]%nat
    [None; Some 0; Some 1; Some 2]%nat
    {[ 0%nat := {[ 0%nat; 1%nat; 2%nat ]}; 1%nat := {[ 2%nat ]};
       2%nat := {[ 2%nat ]}; 3%nat := ∅ ]}.

(** Thread 0 holds resource 0 and waits for nothing; threads 1 and 2 hold
    the resources 1 and 2 and wait for each other's. *)
Definition bystander : DeadlockDetector :=
  mkDetector 3 3 [Some 0; Some 1; Some 2]%nat [Some 0; Some 1; Some 2]%nat
    {[ 0%nat := ∅; 1%nat := {[ 2%nat ]}; 2%nat := {[ 1%nat ]} ]}.

End Detector.

(** * Properties *)

(** ** The loop idioms *)

Lemma for_each_app {A S} (body : A → S → option S) (l1 l2 : list A) (s : S) :
  for_each body (l1 ++ l2) s = for_each body l1 s ≫= for_each body l2.
Proof.
  revert s. induction l1 as [|a l1 IH]; intros s; simpl; [done|].
  destruct (body a s) as [s'|]; simpl; [apply IH|done].
Qed.

(** The invariant rule of a loop with early exit: [P done] holds when the
    items [done] have been gone through; a turn that leaves the loop
    establishes [R]. *)
Lemma for_until_rule_from {A S} (body : A → S → option (bool * S))
  (P : list A → S → Prop) (R : S → Prop) (l done : list A) (s : S) :
  P done s →
  (∀ pre a post s, done ++ l = pre ++ a :: post → P pre s →
     ∃ b s', body a s = Some (b, s')
       ∧ (b = true → R s') ∧ (b = false → P (pre ++ [a]) s')) →
  ∃ b s', for_until body l s = Some (b, s')
    ∧ (b = true → R s') ∧ (b = false → P (done ++ l) s').
Proof.
  revert done s. induction l as [|a l IH]; intros done s HP Hbody; simpl.
  - exists false, s. rewrite app_nil_r. done.
  - destruct (Hbody done a l s) as (b & s' & -> & HR & HQ); [done..|].
    destruct b.
    + exists true, s'. split; [done|]. split; [auto|done].
    + destruct (IH (done ++ [a]) s') as (b & s'' & -> & HR' & HQ').
      * by apply HQ.
      * intros pre a' post t Heq. apply (Hbody pre a' post).
        by rewrite <- Heq, <- app_assoc.
      * exists b, s''. rewrite <- app_assoc in HQ'. done.
Qed.

Lemma for_until_rule {A S} (body : A → S → option (bool * S))
  (P : list A → S → Prop) (R : S → Prop) (l : list A) (s : S) :
  P [] s →
  (∀ pre a post s, l = pre ++ a :: post → P pre s →
     ∃ b s', body a s = Some (b, s')
       ∧ (b = true → R s') ∧ (b = false → P (pre ++ [a]) s')) →
  ∃ b s', for_until body l s = Some (b, s')
    ∧ (b = true → R s') ∧ (b = false → P l s').
Proof. apply (for_until_rule_from body P R l []). Qed.

(** An item of [range(n)] comes after all the smaller ones. *)
Lemma range_split n pre a post :
  range n = pre ++ a :: post →
  (a < n)%nat ∧ ∀ j, (j < a)%nat → j ∈ pre.
Proof.
  intros Heq.
  assert (range n !! length pre = Some a) as Ha.
  { rewrite Heq. by rewrite list_lookup_middle. }
  apply lookup_seq in Ha as [Ha Hlt]. simpl in Ha. subst a.
  split; [done|]. intros j Hj.
  assert (range n !! j = Some j) as Hjj by (apply lookup_seq; lia).
  rewrite Heq, lookup_app_l in Hjj by done.
  by eapply list_elem_of_lookup_2.
Qed.

(** ** bankeralgodeadlock.py *)

Module BankerFacts.
Import Banker.

(** *** Vectors bumped class by class *)

Lemma bump_length f req n v : length (bump f req n v) = length v.
Proof. apply length_imap. Qed.

Lemma bump_lookup f req n v c :
  bump f req n v !! c =
  (λ x, if decide (c < n)%nat then from_option (f x) x (req !! c) else x)
    <$> v !! c.
Proof. apply list_lookup_imap. Qed.

Lemma bump_lookup_ge f req n v c :
  (n ≤ c)%nat → bump f req n v !! c = v !! c.
Proof.
  intros Hc. rewrite bump_lookup. destruct (v !! c); simpl; [|done].
  case_decide; [lia|done].
Qed.

Lemma bump_0 f req v : bump f req 0 v = v.
Proof.
  apply list_eq. intros c. apply bump_lookup_ge. lia.
Qed.

Lemma bump_S f req k v x r :
  v !! k = Some x → req !! k = Some r →
  <[k := f x r]> (bump f req k v) = bump f req (S k) v.
Proof.
  intros Hx Hr. apply list_eq. intros c. destruct (decide (c = k)) as [->|Hc].
  - rewrite list_lookup_insert_eq.
    + rewrite bump_lookup, Hx. simpl. case_decide; [|lia]. by rewrite Hr.
    + rewrite bump_length. by eapply lookup_lt_Some.
  - rewrite list_lookup_insert_ne by done. rewrite !bump_lookup.
    destruct (v !! c); simpl; [|done].
    repeat case_decide; try lia; done.
Qed.

Lemma bump_cancel f g req n v :
  (∀ x r, g (f x r) r = x) → bump g req n (bump f req n v) = v.
Proof.
  intros Hgf. apply list_eq. intros c. rewrite !bump_lookup.
  destruct (v !! c) as [x|]; simpl; [|done].
  case_decide; [|done]. destruct (req !! c); simpl; [|done]. by rewrite Hgf.
Qed.

Lemma bump_zeros f m n v : (∀ x, f x 0 = x) → bump f (zeros m) n v = v.
Proof.
  intros Hf. apply list_eq. intros c. rewrite bump_lookup.
  destruct (v !! c) as [x|]; simpl; [|done].
  case_decide; [|done]. unfold zeros.
  destruct (replicate m 0 !! c) as [z|] eqn:Hz; simpl; [|done].
  apply lookup_replicate in Hz as [-> _]. by rewrite Hf.
Qed.

(** *** The loops of [request_resources] and [release_resources] *)

Lemma allocate_step_move t req i s :
  allocate_step t req i s = move_step Z.sub Z.add Z.sub t req i s.
Proof. reflexivity. Qed.

Lemma release_step_move t req i s :
  release_step t req i s = move_step Z.add Z.sub Z.add t req i s.
Proof. reflexivity. Qed.

Lemma for_each_ext {A S} (f g : A → S → option S) l s :
  (∀ a s, f a s = g a s) → for_each f l s = for_each g l s.
Proof.
  intros Hfg. revert s. induction l as [|a l IH]; intros s; simpl; [done|].
  rewrite Hfg. destruct (g a s); simpl; [apply IH|done].
Qed.

Lemma move_loop fa fl fn t req s la ln ra rn k :
  allocation s !! t = Some la → need s !! t = Some ln → la ≠ ln →
  store s !! la = Some ra → store s !! ln = Some rn →
  (k ≤ length (available s))%nat → (k ≤ length ra)%nat →
  (k ≤ length rn)%nat → (k ≤ length req)%nat →
  for_each (move_step fa fl fn t req) (seq 0 k) s
  = Some (moved fa fl fn req k la ln ra rn s).
Proof.
  intros Hla Hln Hne Hra Hrn. induction k as [|k IH]; intros Hav Hka Hkn Hkr.
  - simpl. f_equal. unfold moved. rewrite !bump_0.
    rewrite (list_insert_id _ la ra) by done.
    rewrite (list_insert_id _ ln rn) by done. by destruct s.
  - rewrite seq_S, for_each_app, IH by lia. simpl.
    destruct (lookup_lt_is_Some_2 (available s) k) as [a Ha]; [lia|].
    destruct (lookup_lt_is_Some_2 req k) as [r Hr]; [lia|].
    destruct (lookup_lt_is_Some_2 ra k) as [x Hx]; [lia|].
    destruct (lookup_lt_is_Some_2 rn k) as [y Hy]; [lia|].
    pose proof (lookup_lt_Some _ _ _ Hra) as Hlla.
    pose proof (lookup_lt_Some _ _ _ Hrn) as Hlln.
    unfold move_step, moved at 1 2. simpl.
    rewrite bump_lookup_ge, Ha by lia. simpl. rewrite Hr. simpl.
    unfold list_set. rewrite bump_length. case_decide; [|lia]. simpl.
    unfold update_cell. simpl. rewrite Hla. simpl.
    rewrite list_lookup_insert_ne by done.
    rewrite list_lookup_insert_eq by done. simpl.
    rewrite bump_lookup_ge, Hx by lia. simpl. rewrite Hln. simpl.
    rewrite list_lookup_insert_ne by done.
    rewrite list_lookup_insert_eq by (by rewrite length_insert).
    simpl. rewrite bump_lookup_ge, Hy by lia. simpl.
    unfold moved, set_store, set_available. simpl. f_equal. f_equal.
    + by apply bump_S.
    + rewrite (bump_S fl req k ra x r) by done.
      rewrite (bump_S fn req k rn y r) by done.
      rewrite (list_insert_insert_ne _ la ln) by done.
      by rewrite !list_insert_insert_eq.
Qed.

(** What [wf] gives for a thread: its two rows, distinct objects. *)
Lemma wf_thread s t :
  wf s → (t < num_threads s)%nat →
  ∃ la ln ra rn,
    allocation s !! t = Some la ∧ need s !! t = Some ln ∧ la ≠ ln
    ∧ store s !! la = Some ra ∧ store s !! ln = Some rn
    ∧ (num_resources s ≤ length ra)%nat ∧ (num_resources s ≤ length rn)%nat.
Proof.
  intros [Hav Hal Hnd Hrows Hdup] Ht.
  destruct (lookup_lt_is_Some_2 (allocation s) t) as [la Hla]; [lia|].
  destruct (lookup_lt_is_Some_2 (need s) t) as [ln Hln]; [lia|].
  assert (la ∈ allocation s) as Hina by (by eapply list_elem_of_lookup_2).
  assert (ln ∈ need s) as Hinn by (by eapply list_elem_of_lookup_2).
  destruct (Hrows la) as (ra & Hra & Hlra); [set_solver|].
  destruct (Hrows ln) as (rn & Hrn & Hlrn); [set_solver|].
  exists la, ln, ra, rn. repeat split; try done.
  apply NoDup_app in Hdup as (_ & Hdisj & _). intros ->. by eapply Hdisj.
Qed.

Lemma wf_row_allocation s t :
  wf s → (t < num_threads s)%nat →
  ∃ al, row s (allocation s) t = Some al
      ∧ (num_resources s ≤ length al)%nat.
Proof.
  intros Hwf Ht.
  destruct (wf_thread s t Hwf Ht) as (la & ln & ra & rn & Hla & _ & _ & Hra & _ & Hl & _).
  exists ra. unfold row. rewrite Hla. done.
Qed.

Lemma wf_row_need s t :
  wf s → (t < num_threads s)%nat →
  ∃ nd, row s (need s) t = Some nd ∧ (num_resources s ≤ length nd)%nat.
Proof.
  intros Hwf Ht.
  destruct (wf_thread s t Hwf Ht) as (la & ln & ra & rn & _ & Hln & _ & _ & Hrn & _ & Hl).
  exists rn. unfold row. rewrite Hln. done.
Qed.

(** A loop of [moved] undone by the opposite loop. *)
Lemma moved_cancel fa fl fn ga gl gn req k la ln ra rn s :
  (∀ x r, ga (fa x r) r = x) → (∀ x r, gl (fl x r) r = x) →
  (∀ x r, gn (fn x r) r = x) →
  store s !! la = Some ra → store s !! ln = Some rn → la ≠ ln →
  moved ga gl gn req k la ln (bump fl req k ra) (bump fn req k rn)
    (moved fa fl fn req k la ln ra rn s) = s.
Proof.
  intros Ha Hl Hn Hra Hrn Hne. unfold moved, set_store, set_available.
  simpl. rewrite !bump_cancel by done.
  rewrite (list_insert_insert_ne _ la ln) by done.
  rewrite !list_insert_insert_eq.
  rewrite (list_insert_id _ la ra) by done.
  rewrite (list_insert_id _ ln rn) by done. by destruct s.
Qed.

Lemma moved_zeros fa fl fn m k la ln ra rn s :
  (∀ x, fa x 0 = x) → (∀ x, fl x 0 = x) → (∀ x, fn x 0 = x) →
  store s !! la = Some ra → store s !! ln = Some rn →
  moved fa fl fn (zeros m) k la ln ra rn s = s.
Proof.
  intros Ha Hl Hn Hra Hrn. unfold moved, set_store, set_available.
  rewrite !bump_zeros by done.
  rewrite (list_insert_id _ la ra) by done.
  rewrite (list_insert_id _ ln rn) by done. by destruct s.
Qed.

(** The loops keep the shape of the object. *)
Lemma wf_moved fa fl fn amounts k la ln ra rn s :
  wf s → store s !! la = Some ra → store s !! ln = Some rn →
  wf (moved fa fl fn amounts k la ln ra rn s).
Proof.
  intros [Hav Hal Hnd Hrows Hdup] Hra Hrn.
  pose proof (lookup_lt_Some _ _ _ Hra) as Hlla.
  pose proof (lookup_lt_Some _ _ _ Hrn) as Hlln.
  constructor; simpl; try done.
  - by rewrite bump_length.
  - intros l Hl. destruct (Hrows l Hl) as (r & Hr & Hlen).
    destruct (decide (l = ln)) as [->|Hn].
    + exists (bump fn amounts k rn).
      rewrite list_lookup_insert_eq by (by rewrite length_insert).
      split; [done|]. rewrite bump_length. by simplify_eq.
    + rewrite list_lookup_insert_ne by done.
      destruct (decide (l = la)) as [->|Ha].
      * exists (bump fl amounts k ra). rewrite list_lookup_insert_eq by done.
        split; [done|]. rewrite bump_length. by simplify_eq.
      * rewrite list_lookup_insert_ne by done. by exists r.
Qed.

Lemma wf_set_available s v :
  wf s → length v = length (available s) → wf (set_available v s).
Proof.
  intros [Hav Hal Hnd Hrows Hdup] Hlen. constructor; simpl; try done. lia.
Qed.

(** *** The two guards of [request_resources] *)

Lemma any_gt_spec req bound idx :
  (∀ i, i ∈ idx → is_Some (req !! i) ∧ is_Some (bound i)) →
  ∃ b, any_gt req bound idx = Some b
     ∧ (b = true ↔ ∃ i r bd, i ∈ idx ∧ req !! i = Some r
                              ∧ bound i = Some bd ∧ r > bd).
Proof.
  induction idx as [|i idx IH]; intros Hdef; simpl.
  - exists false. split; [done|]. split; [done|].
    intros (i & ? & ? & Hi & _). by apply elem_of_nil in Hi.
  - destruct (Hdef i) as [[r Hr] [bd Hbd]]; [left|].
    rewrite Hr, Hbd. simpl. case_bool_decide as Hgt.
    + exists true. split; [done|]. split; [|done]. intros _.
      exists i, r, bd. repeat split; [left|done..].
    + destruct IH as (b & -> & Hb); [intros; apply Hdef; by right|].
      exists b. split; [done|]. rewrite Hb. split.
      * intros (j & rj & bj & Hj & ?). exists j, rj, bj. split; [by right|done].
      * intros (j & rj & bj & Hj & Hrj & Hbj & Hlt).
        apply elem_of_cons in Hj as [->|Hj]; [|by exists j, rj, bj].
        rewrite Hr in Hrj. rewrite Hbd in Hbj. simplify_eq. lia.
Qed.

Lemma any_gt_false req bound idx :
  any_gt req bound idx = Some false →
  ∀ i, i ∈ idx → ∃ r bd, req !! i = Some r ∧ bound i = Some bd ∧ r ≤ bd.
Proof.
  induction idx as [|i idx IH]; simpl; intros Hany j Hj.
  - by apply elem_of_nil in Hj.
  - destruct (req !! i) as [r|] eqn:Hr; simpl in Hany; [|done].
    destruct (bound i) as [bd|] eqn:Hbd; simpl in Hany; [|done].
    case_bool_decide; [done|].
    apply elem_of_cons in Hj as [->|Hj]; [|by apply IH].
    exists r, bd. repeat split; [done..|lia].
Qed.

Lemma range_covered {A} (l : list A) n :
  (∀ i, i ∈ range n → is_Some (l !! i)) → (n ≤ length l)%nat.
Proof.
  intros H. destruct n as [|n]; [lia|].
  destruct (H n) as [x Hx]; [apply elem_of_seq; lia|].
  apply lookup_lt_Some in Hx. lia.
Qed.

(** *** [is_safe] *)

Lemma all_le_spec s i work nd l :
  row s (need s) i = Some nd →
  (∀ c, c ∈ l → (c < length nd)%nat ∧ (c < length work)%nat) →
  ∃ b, all_le s i work l = Some b
     ∧ (b = true ↔ ∀ c, c ∈ l →
          ∃ n w, nd !! c = Some n ∧ work !! c = Some w ∧ n ≤ w).
Proof.
  intros Hnd. induction l as [|c l IH]; intros Hdef; simpl.
  - exists true. split; [done|]. split; [|done]. intros _ c Hc.
    by apply elem_of_nil in Hc.
  - destruct (Hdef c) as [Hc1 Hc2]; [left|].
    destruct (lookup_lt_is_Some_2 nd c Hc1) as [n Hn].
    destruct (lookup_lt_is_Some_2 work c Hc2) as [w Hw].
    unfold cell. rewrite Hnd. simpl. rewrite Hn, Hw. simpl.
    case_bool_decide as Hle.
    + destruct IH as (b & Hb & Hiff); [intros; apply Hdef; by right|].
      exists b. split; [done|]. rewrite Hiff. split.
      * intros Hall c' Hc'. apply elem_of_cons in Hc' as [->|Hc']; [|by apply Hall].
        by exists n, w.
      * intros Hall c' Hc'. apply Hall. by right.
    + exists false. split; [done|]. split; [done|]. intros Hall.
      destruct (Hall c) as (n' & w' & Hn' & Hw' & Hle'); [left|].
      simplify_eq. lia.
Qed.

Lemma all_le_fits s i work nd :
  row s (need s) i = Some nd →
  (num_resources s ≤ length nd)%nat → (num_resources s ≤ length work)%nat →
  ∃ b, all_le s i work (range (num_resources s)) = Some b
     ∧ (b = true ↔ fits s i work).
Proof.
  intros Hnd Hl1 Hl2.
  destruct (all_le_spec s i work nd (range (num_resources s)) Hnd)
    as (b & Hb & Hiff).
  { intros c Hc. apply elem_of_seq in Hc. lia. }
  exists b. split; [done|]. rewrite Hiff. unfold fits. split.
  - intros Hall. exists nd. split; [done|]. intros c Hc. apply Hall.
    apply elem_of_seq. lia.
  - intros (nd' & Hnd' & Hall) c Hc. rewrite Hnd in Hnd'. simplify_eq.
    apply Hall. apply elem_of_seq in Hc. lia.
Qed.

Lemma release_into_loop s i al work k :
  row s (allocation s) i = Some al →
  (k ≤ length al)%nat → (k ≤ length work)%nat →
  for_each (λ j work,
      w ← work !! j;
      a ← cell s (allocation s) i j;
      list_set j (w + a) work) (seq 0 k) work
  = Some (bump Z.add al k work).
Proof.
  intros Hal. induction k as [|k IH]; intros Hk1 Hk2.
  - simpl. by rewrite bump_0.
  - rewrite seq_S, for_each_app, IH by lia. simpl.
    destruct (lookup_lt_is_Some_2 al k) as [a Ha]; [lia|].
    destruct (lookup_lt_is_Some_2 work k) as [w Hw]; [lia|].
    rewrite bump_lookup_ge, Hw by lia. simpl.
    unfold cell. rewrite Hal. simpl. rewrite Ha. simpl.
    unfold list_set. rewrite bump_length. case_decide; [|lia].
    simpl. f_equal. by apply bump_S.
Qed.

Lemma release_into_spec s i al work :
  row s (allocation s) i = Some al →
  (num_resources s ≤ length al)%nat → (num_resources s ≤ length work)%nat →
  release_into s i work = Some (bump Z.add al (num_resources s) work).
Proof. intros. by apply release_into_loop. Qed.

(** One turn of the scan: thread [i] is passed over when it is no
    candidate, taken when it is one. *)
Lemma scan_body_spec s st i :
  wf s → scan_inv s st → (i < num_threads s)%nat →
  (scan_body s i st = Some (false, st)
   ∧ ¬ candidate s (work st) (safe_sequence st) i)
  ∨ (∃ al, scan_body s i st
           = Some (true, mkScan (bump Z.add al (num_resources s) (work st))
                           (<[i:=true]> (finish st))
                           (safe_sequence st ++ [i]))
         ∧ candidate s (work st) (safe_sequence st) i
         ∧ row s (allocation s) i = Some al).
Proof.
  intros Hwf (Hlen & Hwork & Hdup & Hfin & Hlt) Hi. unfold scan_body.
  destruct (lookup_lt_is_Some_2 (finish st) i) as [f Hf]; [lia|].
  rewrite Hf. simpl. destruct f.
  - left. split; [done|]. intros (_ & Hnot & _). apply Hnot. by apply Hfin.
  - destruct (wf_row_need s i Hwf Hi) as (nd & Hnd & Hlnd).
    destruct (all_le_fits s i (work st) nd Hnd Hlnd Hwork) as (b & -> & Hb).
    simpl. destruct b.
    + right. destruct (wf_row_allocation s i Hwf Hi) as (al & Hal & Hlal).
      exists al. unfold list_set. case_decide; [|lia]. simpl.
      rewrite (release_into_spec s i al) by done. simpl.
      split; [done|]. split; [|done]. split; [done|]. split; [|by apply Hb].
      intros Hin. apply Hfin in Hin. congruence.
    + left. split; [done|]. intros (_ & _ & Hfits). apply Hb in Hfits. done.
Qed.

(** A whole scan: no candidate at all, or the lowest one is taken. *)
Lemma scan_spec s st :
  wf s → scan_inv s st →
  (for_until (scan_body s) (range (num_threads s)) st = Some (false, st)
   ∧ ∀ i, ¬ candidate s (work st) (safe_sequence st) i)
  ∨ (∃ i al,
       for_until (scan_body s) (range (num_threads s)) st
       = Some (true, mkScan (bump Z.add al (num_resources s) (work st))
                       (<[i:=true]> (finish st)) (safe_sequence st ++ [i]))
       ∧ candidate s (work st) (safe_sequence st) i
       ∧ (∀ j, (j < i)%nat → ¬ candidate s (work st) (safe_sequence st) j)
       ∧ row s (allocation s) i = Some al).
Proof.
  intros Hwf Hinv.
  destruct (for_until_rule (scan_body s)
    (λ pre st', st' = st
        ∧ ∀ j, j ∈ pre → ¬ candidate s (work st) (safe_sequence st) j)
    (λ st', ∃ i al,
        st' = mkScan (bump Z.add al (num_resources s) (work st))
                (<[i:=true]> (finish st)) (safe_sequence st ++ [i])
        ∧ candidate s (work st) (safe_sequence st) i
        ∧ (∀ j, (j < i)%nat → ¬ candidate s (work st) (safe_sequence st) j)
        ∧ row s (allocation s) i = Some al)
    (range (num_threads s)) st) as (b & st' & Hrun & HR & HP).
  - split; [done|]. intros j Hj. by apply elem_of_nil in Hj.
  - intros pre a post st1 Heq [-> Hpre].
    apply range_split in Heq as [Ha Hlow].
    destruct (scan_body_spec s st a Hwf Hinv Ha) as [[Hb Hno]|(al & Hb & Hc & Hal)].
    + exists false, st. split; [done|]. split; [done|]. intros _.
      split; [done|]. intros j Hj.
      apply elem_of_app in Hj as [Hj|Hj]; [by apply Hpre|].
      apply list_elem_of_singleton in Hj. by subst.
    + eexists true, _. split; [done|]. split; [|done]. intros _.
      exists a, al. split; [done|]. split; [done|]. split; [|done].
      intros j Hj. apply Hpre. by apply Hlow.
  - rewrite Hrun. destruct b.
    + right. destruct (HR eq_refl) as (i & al & -> & ?). by exists i, al.
    + left. destruct (HP eq_refl) as [-> Hall]. split; [done|].
      intros i Hc. apply (Hall i); [|done].
      apply elem_of_seq. destruct Hc as [? _]. lia.
Qed.

Lemma scan_inv_step s st i al :
  scan_inv s st → candidate s (work st) (safe_sequence st) i →
  scan_inv s (mkScan (bump Z.add al (num_resources s) (work st))
                (<[i:=true]> (finish st)) (safe_sequence st ++ [i])).
Proof.
  intros (Hlen & Hwork & Hdup & Hfin & Hlt) (Hi & Hnot & _).
  unfold scan_inv. simpl. rewrite length_insert, bump_length.
  split; [done|]. split; [done|]. split; [|split].
  - apply NoDup_app. split; [done|]. split; [|apply NoDup_singleton].
    intros j Hj Hj'. apply list_elem_of_singleton in Hj'. by subst.
  - intros j. rewrite elem_of_app, list_elem_of_singleton.
    destruct (decide (j = i)) as [->|Hne].
    + rewrite list_lookup_insert_eq by lia. split; [by right|done].
    + rewrite list_lookup_insert_ne by done. rewrite Hfin.
      split; [by left|by intros [?|?]].
  - intros j Hj. apply elem_of_app in Hj as [Hj|Hj]; [by apply Hlt|].
    apply list_elem_of_singleton in Hj. by subst.
Qed.

Lemma scan_inv_scan0 s : wf s → scan_inv s (scan0 s).
Proof.
  intros Hwf. unfold scan_inv, scan0. simpl.
  rewrite length_replicate. split; [done|]. split; [apply Hwf|].
  split; [apply NoDup_nil_2|]. split.
  - intros i. split.
    + intros Hi. apply lookup_replicate in Hi as [? _]. done.
    + intros Hi. by apply elem_of_nil in Hi.
  - intros i Hi. by apply elem_of_nil in Hi.
Qed.

(** A duplicate-free sequence of threads is complete exactly when it is
    as long as the number of threads. *)
Lemma sequence_full (sq : list nat) n :
  NoDup sq → (∀ i, i ∈ sq → (i < n)%nat) → ¬ (length sq < n)%nat →
  sq ≡ₚ range n.
Proof.
  intros Hdup Hlt Hlen. apply submseteq_length_Permutation.
  - apply NoDup_submseteq; [done|]. intros i Hi. apply elem_of_seq.
    specialize (Hlt i Hi). lia.
  - unfold range. rewrite length_seq. lia.
Qed.

Lemma sequence_partial (sq : list nat) n :
  NoDup sq → (length sq < n)%nat → ∃ i, (i < n)%nat ∧ i ∉ sq.
Proof.
  intros Hdup Hlen.
  destruct (decide (Forall (λ i, i ∈ sq) (range n))) as [Hall|Hex].
  - exfalso. assert (range n ⊆+ sq) as Hsub.
    { apply NoDup_submseteq; [apply NoDup_seq|].
      intros i Hi. by eapply Forall_forall in Hall. }
    apply submseteq_length in Hsub. unfold range in Hsub.
    rewrite length_seq in Hsub. lia.
  - apply not_Forall_Exists in Hex; [|apply _].
    apply Exists_exists in Hex as (i & Hi & Hnot).
    exists i. split; [|done]. apply elem_of_seq in Hi. lia.
Qed.

Lemma is_safe_loop_unfold fuel s st :
  is_safe_loop fuel s st =
  if decide (length (safe_sequence st) < num_threads s)%nat then
    match fuel with
    | O => None
    | S fuel' =>
        match for_until (scan_body s) (range (num_threads s)) st with
        | None => None
        | Some (progress, st') =>
            if progress then is_safe_loop fuel' s st'
            else Some (false, safe_sequence st')
        end
    end
  else Some (true, safe_sequence st).
Proof. by destruct fuel. Qed.

(** The loop returns, and what it returns is what the specification
    describes. *)
Lemma is_safe_loop_spec s :
  wf s → ∀ fuel st,
  scan_inv s st →
  (num_threads s - length (safe_sequence st) ≤ fuel)%nat →
  ∃ res, is_safe_loop fuel s st = Some res
       ∧ safety_run s (work st) (safe_sequence st) res
       ∧ (res.1 = true → res.2 ≡ₚ range (num_threads s))
       ∧ (res.1 = false →
            NoDup res.2 ∧ (length res.2 < num_threads s)%nat).
Proof.
  intros Hwf fuel. induction fuel as [|fuel IH]; intros st Hinv Hfuel;
    rewrite is_safe_loop_unfold; case_decide as Hlen; try lia.
  - pose proof Hinv as (_ & _ & Hdup & _ & Hlt).
    pose proof (sequence_full _ _ Hdup Hlt Hlen) as Hperm.
    eexists. split; [done|]. simpl. split; [|done].
    apply run_complete. intros i Hi. rewrite Hperm. apply elem_of_seq. lia.
  - destruct (scan_spec s st Hwf Hinv)
      as [[-> Hnone]|(i & al & -> & Hc & Hlow & Hal)].
    + pose proof Hinv as (_ & _ & Hdup & _ & Hlt).
      eexists. split; [done|]. simpl. split; [|done].
      apply run_stuck; [|done]. by apply sequence_partial.
    + destruct (IH (mkScan (bump Z.add al (num_resources s) (work st))
                      (<[i:=true]> (finish st)) (safe_sequence st ++ [i])))
        as (res & Hres & Hrun & Htrue & Hfalse).
      * by apply scan_inv_step.
      * simpl. rewrite length_app. simpl. lia.
      * exists res. split; [done|]. split; [|done].
        by eapply run_step.
  - pose proof Hinv as (_ & _ & Hdup & _ & Hlt).
    pose proof (sequence_full _ _ Hdup Hlt Hlen) as Hperm.
    eexists. split; [done|]. simpl. split; [|done].
    apply run_complete. intros i Hi. rewrite Hperm. apply elem_of_seq. lia.
Qed.

(** The specification's procedure has one outcome only. *)
Lemma safety_run_det s work sq r1 r2 :
  safety_run s work sq r1 → safety_run s work sq r2 → r1 = r2.
Proof.
  intros H1. revert r2.
  induction H1 as [work sq Hall|work sq Hex Hnone
                  |work sq i al res Hc Hlow Hal _ IH]; intros r2 H2.
  - inversion H2 as [|? ? (j & Hj & Hnot) _|? ? j ? ? (Hj & Hnot & _)];
      subst; [done|..]; exfalso; by apply Hnot, Hall.
  - inversion H2 as [? ? Hall| |? ? j ? ? Hc]; subst; [|done|].
    + destruct Hex as (j & Hj & Hnot). exfalso. by apply Hnot, Hall.
    + exfalso. by eapply Hnone.
  - inversion H2 as [? ? Hall|? ? _ Hnone|? ? j al' ? Hc' Hlow' Hal' Hrun'];
      subst.
    + destruct Hc as (Hi & Hnot & _). exfalso. by apply Hnot, Hall.
    + exfalso. by eapply Hnone.
    + assert (i = j) as <-.
      { destruct (lt_eq_lt_dec i j) as [[Hlt|Heq]|Hgt]; [|done|].
        - exfalso. by eapply Hlow'.
        - exfalso. by eapply Hlow. }
      rewrite Hal in Hal'. simplify_eq. by apply IH.
Qed.

(** [num_threads] turns are enough for the [while] loop: more fuel
    changes nothing. *)
Lemma is_safe_loop_fuel s fuel :
  wf s → (num_threads s ≤ fuel)%nat →
  is_safe_loop fuel s (scan0 s) = is_safe s.
Proof.
  intros Hwf Hfuel. pose proof (scan_inv_scan0 s Hwf) as Hinv.
  destruct (is_safe_loop_spec s Hwf fuel (scan0 s) Hinv)
    as (r1 & -> & Hr1 & _); [simpl; lia|].
  destruct (is_safe_loop_spec s Hwf (num_threads s) (scan0 s) Hinv)
    as (r2 & Hr2 & Hr2' & _); [simpl; lia|].
  unfold is_safe. rewrite Hr2. f_equal. by eapply safety_run_det.
Qed.

Lemma is_safe_returns s : wf s → ∃ res, is_safe s = Some res.
Proof.
  intros Hwf.
  destruct (is_safe_loop_spec s Hwf (num_threads s) (scan0 s))
    as (res & Hres & _); [by apply scan_inv_scan0|simpl; lia|].
  by exists res.
Qed.

(** C2. On every well-formed snapshot [is_safe] returns, and it returns
    the outcome of the procedure of the specification ([safety_run]: take
    the lowest-indexed unfinished thread whose need row fits in [work],
    add its allocation row to [work], append it, scan again from thread 0;
    [true] when every thread is in the sequence, [false] with the sequence
    built so far when a scan finds no candidate).  That outcome is unique;
    with [true] the sequence holds every thread exactly once, with [false]
    it is a duplicate-free sequence that misses some thread. *)
Theorem is_safe_refines_spec s :
  wf s →
  ∃ res, is_safe s = Some res
       ∧ safety_run s (available s) [] res
       ∧ (∀ res', safety_run s (available s) [] res' → res' = res)
       ∧ (res.1 = true → res.2 ≡ₚ range (num_threads s))
       ∧ (res.1 = false →
            NoDup res.2 ∧ (length res.2 < num_threads s)%nat).
Proof.
  intros Hwf.
  destruct (is_safe_loop_spec s Hwf (num_threads s) (scan0 s))
    as (res & Hres & Hrun & Htrue & Hfalse).
  - by apply scan_inv_scan0.
  - simpl. lia.
  - exists res. split; [done|]. split; [done|]. split; [|done].
    intros res' Hrun'. by eapply safety_run_det.
Qed.

(** *** Concrete objects *)

Ltac wf_concrete :=
  constructor; simpl;
  [lia | lia | lia
  | intros l Hl;
    repeat (apply elem_of_cons in Hl as [->|Hl];
            [eexists; split; [reflexivity|simpl; lia]|]);
    by apply elem_of_nil in Hl
  | compute_done].

Lemma wf_banker33 : wf banker33.
Proof. wf_concrete. Qed.

Lemma wf_scenarioA : wf scenarioA.
Proof. wf_concrete. Qed.

Lemma wf_small_safe : wf small_safe.
Proof. wf_concrete. Qed.

(** [__init__] builds a well-formed object when its literal rows cover
    the threads and the classes. *)
Lemma banker_init_wf nr nt :
  (nr ≤ 3)%nat → (nt ≤ 3)%nat → ∃ s, init nr nt = Some s ∧ wf s.
Proof.
  intros Hr Ht.
  destruct nr as [|[|[|[|nr]]]]; try lia;
    destruct nt as [|[|[|[|nt]]]]; try lia;
    (eexists; split; [reflexivity|wf_concrete]).
Qed.

Lemma init_banker33 : init 3 3 = Some banker33.
Proof. reflexivity. Qed.

Lemma is_safe_refines_spec_witness :
  wf small_safe
  ∧ ∃ res, is_safe small_safe = Some res
         ∧ safety_run small_safe (available small_safe) [] res
         ∧ (∀ res', safety_run small_safe (available small_safe) [] res'
                    → res' = res)
         ∧ (res.1 = true → res.2 ≡ₚ range (num_threads small_safe))
         ∧ (res.1 = false →
              NoDup res.2 ∧ (length res.2 < num_threads small_safe)%nat).
Proof.
  split; [apply wf_small_safe|].
  apply (is_safe_refines_spec small_safe). apply wf_small_safe.
Defined.

(** *** [release_resources] *)

Lemma release_resources_moved s t amounts la ln ra rn :
  allocation s !! t = Some la → need s !! t = Some ln → la ≠ ln →
  store s !! la = Some ra → store s !! ln = Some rn →
  (num_resources s ≤ length (available s))%nat →
  (num_resources s ≤ length ra)%nat → (num_resources s ≤ length rn)%nat →
  (num_resources s ≤ length amounts)%nat →
  release_resources t amounts s
  = Some (moved Z.add Z.sub Z.add amounts (num_resources s) la ln ra rn s).
Proof.
  intros. unfold release_resources.
  change (release_step t amounts) with (move_step Z.add Z.sub Z.add t amounts).
  by apply move_loop.
Qed.

Lemma allocate_loop_moved s t request la ln ra rn :
  allocation s !! t = Some la → need s !! t = Some ln → la ≠ ln →
  store s !! la = Some ra → store s !! ln = Some rn →
  (num_resources s ≤ length (available s))%nat →
  (num_resources s ≤ length ra)%nat → (num_resources s ≤ length rn)%nat →
  (num_resources s ≤ length request)%nat →
  for_each (allocate_step t request) (range (num_resources s)) s
  = Some (moved Z.sub Z.add Z.sub request (num_resources s) la ln ra rn s).
Proof.
  intros.
  change (allocate_step t request)
    with (move_step Z.sub Z.add Z.sub t request).
  by apply move_loop.
Qed.

(** *** The calls with a list of the caller's own *)

Lemma any_gt_fresh v s bound idx :
  Aliasing.any_gt (Aliasing.item (Aliasing.Fresh v) s) bound idx
  = any_gt v bound idx.
Proof.
  induction idx as [|i idx IH]; simpl; [done|].
  destruct (v !! i); simpl; [|done].
  destruct (bound i); simpl; [|done]. by rewrite IH.
Qed.

Lemma allocate_step_fresh t v i s :
  Aliasing.allocate_step t (Aliasing.Fresh v) i s = allocate_step t v i s.
Proof.
  unfold Aliasing.allocate_step, allocate_step. simpl.
  destruct (available s !! i); simpl; [|done].
  destruct (v !! i); simpl; [|done].
  destruct (list_set _ _ _); simpl; [|done].
  by destruct (update_cell _ _ _ _ _).
Qed.

Lemma release_step_fresh t v i s :
  Aliasing.release_step t (Aliasing.Fresh v) i s = release_step t v i s.
Proof.
  unfold Aliasing.release_step, release_step. simpl.
  destruct (available s !! i); simpl; [|done].
  destruct (v !! i); simpl; [|done].
  destruct (list_set _ _ _); simpl; [|done].
  by destruct (update_cell _ _ _ _ _).
Qed.

(** On a list that is no part of the object the methods read a value. *)
Lemma release_resources_fresh t v s :
  Aliasing.release_resources t (Aliasing.Fresh v) s
  = release_resources t v s.
Proof. apply for_each_ext. intros. apply release_step_fresh. Qed.

Lemma request_resources_fresh t v s :
  Aliasing.request_resources t (Aliasing.Fresh v) s
  = request_resources t v s.
Proof.
  unfold Aliasing.request_resources, request_resources.
  rewrite !any_gt_fresh.
  by rewrite (for_each_ext (Aliasing.allocate_step t (Aliasing.Fresh v))
                (allocate_step t v)) by apply allocate_step_fresh.
Qed.

(** The rows of the other threads are other objects. *)
Lemma moved_row_other fa fl fn amounts k la ln ra rn s refs i l :
  refs !! i = Some l → l ≠ la → l ≠ ln →
  row (moved fa fl fn amounts k la ln ra rn s) refs i = row s refs i.
Proof.
  intros Hl Hla Hln. unfold row. rewrite Hl. simpl.
  by rewrite !list_lookup_insert_ne.
Qed.

Lemma wf_other_refs s t i la ln :
  wf s → allocation s !! t = Some la → need s !! t = Some ln → i ≠ t →
  (∀ l, allocation s !! i = Some l → l ≠ la ∧ l ≠ ln)
  ∧ (∀ l, need s !! i = Some l → l ≠ la ∧ l ≠ ln).
Proof.
  intros [_ _ _ _ Hdup] Hla Hln Hne.
  apply NoDup_app in Hdup as (Hda & Hdisj & Hdn).
  split; intros l Hl; split; intros Heq; subst l.
  - apply Hne. by apply (NoDup_lookup (allocation s) i t la).
  - eapply Hdisj; by eapply list_elem_of_lookup_2.
  - eapply Hdisj; by eapply list_elem_of_lookup_2.
  - apply Hne. by apply (NoDup_lookup (need s) i t ln).
Qed.

(** C5, as amended.  [release_resources] makes no check: on a well-formed
    object, for a thread of the object and a list of the caller's own
    (not [available] nor a row of the object) that covers the resource
    classes, it returns normally whatever the amounts are, with
    [available] incremented, the thread's allocation row decremented and
    its need row incremented class by class, and the rows of the other
    threads as they were. *)
Theorem release_resources_unchecked s t amounts :
  wf s → (t < num_threads s)%nat →
  (num_resources s ≤ length amounts)%nat →
  ∃ s' al nd,
    Aliasing.release_resources t (Aliasing.Fresh amounts) s = Some s'
    ∧ row s (allocation s) t = Some al ∧ row s (need s) t = Some nd
    ∧ available s' = bump Z.add amounts (num_resources s) (available s)
    ∧ row s' (allocation s') t
      = Some (bump Z.sub amounts (num_resources s) al)
    ∧ row s' (need s') t = Some (bump Z.add amounts (num_resources s) nd)
    ∧ ∀ i, i ≠ t →
        row s' (allocation s') i = row s (allocation s) i
        ∧ row s' (need s') i = row s (need s) i.
Proof.
  intros Hwf Ht Hlen.
  destruct (wf_thread s t Hwf Ht)
    as (la & ln & ra & rn & Hla & Hln & Hne & Hra & Hrn & Hlra & Hlrn).
  pose proof (lookup_lt_Some _ _ _ Hra) as Hlla.
  pose proof (lookup_lt_Some _ _ _ Hrn) as Hlln.
  eexists _, ra, rn.
  split; [rewrite release_resources_fresh;
          apply (release_resources_moved s t amounts la ln ra rn);
          try done; apply Hwf|].
  split; [unfold row; by rewrite Hla|].
  split; [unfold row; by rewrite Hln|].
  split; [done|]. unfold row. simpl. rewrite Hla, Hln. simpl.
  split; [|split].
  - rewrite list_lookup_insert_ne by done. by rewrite list_lookup_insert_eq.
  - rewrite list_lookup_insert_eq; [done|]. by rewrite length_insert.
  - intros i Hi.
    destruct (wf_other_refs s t i la ln Hwf Hla Hln Hi) as [Ha Hn].
    split.
    + destruct (allocation s !! i) as [l|] eqn:Hl; simpl; [|done].
      destruct (Ha l eq_refl). by rewrite !list_lookup_insert_ne.
    + destruct (need s !! i) as [l|] eqn:Hl; simpl; [|done].
      destruct (Hn l eq_refl). by rewrite !list_lookup_insert_ne.
Qed.

Lemma release_resources_unchecked_witness :
  wf banker33 ∧ (0 < num_threads banker33)%nat
  ∧ (num_resources banker33 ≤ length [1; 0; 0])%nat
  ∧ ∃ s' al nd,
      Aliasing.release_resources 0 (Aliasing.Fresh [1; 0; 0]) banker33
      = Some s'
      ∧ row banker33 (allocation banker33) 0 = Some al
      ∧ row banker33 (need banker33) 0 = Some nd
      ∧ available s'
        = bump Z.add [1; 0; 0] (num_resources banker33) (available banker33)
      ∧ row s' (allocation s') 0
        = Some (bump Z.sub [1; 0; 0] (num_resources banker33) al)
      ∧ row s' (need s') 0
        = Some (bump Z.add [1; 0; 0] (num_resources banker33) nd)
      ∧ ∀ i, i ≠ 0%nat →
          row s' (allocation s') i = row banker33 (allocation banker33) i
          ∧ row s' (need s') i = row banker33 (need banker33) i.
Proof.
  split; [apply wf_banker33|]. split; [simpl; lia|]. split; [simpl; lia|].
  apply (release_resources_unchecked banker33 0 [1; 0; 0]);
    [apply wf_banker33 | simpl; lia | simpl; lia].
Defined.

(** C5, the claim refuted: thread 0 of [BankersAlgorithm(3, 3)] holds
    nothing, and releasing one unit of class 0 returns normally with a
    changed ledger: [available[0]] is 4 and [allocation[0][0]] is -1.
    And where no amount exceeds what is held, the three updates are not
    always made: thread 0 of [scenarioD] holds one unit and releases its
    own allocation row, [release_resources(0, banker.allocation[0])];
    [available] and the allocation change, the need stays [[1]]. *)
Lemma release_resources_over_release :
  (cell banker33 (allocation banker33) 0 0 = Some 0
   ∧ ∃ s', Aliasing.release_resources 0 (Aliasing.Fresh [1; 0; 0]) banker33
           = Some s'
         ∧ ledger s' ≠ ledger banker33
         ∧ ledger s' = ([4; 3; 3],
                        Some [[-1; 0; 0]; [0; 0; 0]; [0; 0; 0]],
                        Some [[8; 5; 3]; [3; 2; 2]; [9; 0; 2]]))
  ∧ allocation scenarioD !! 0%nat = Some 0%nat
  ∧ ∃ s', Aliasing.release_resources 0 (Aliasing.Row 0) scenarioD = Some s'
        ∧ ledger scenarioD = ([1], Some [[1]; [0]], Some [[1]; [2]])
        ∧ ledger s' = ([2], Some [[0]; [0]], Some [[1]; [2]]).
Proof.
  split; [|split].
  - split; [reflexivity|]. eexists. split; [reflexivity|].
    split; [discriminate|reflexivity].
  - reflexivity.
  - eexists. split; [reflexivity|]. split; reflexivity.
Qed.

(** *** [request_resources] *)

(** A request that one of the two guards refuses leaves the object as it
    is. *)
Lemma request_refused_by_guard s t request :
  any_gt request (λ i, cell s (need s) t i) (range (num_resources s))
    = Some true
  ∨ (any_gt request (λ i, cell s (need s) t i) (range (num_resources s))
       = Some false
     ∧ any_gt request (λ i, available s !! i) (range (num_resources s))
       = Some true) →
  request_resources t request s = Some (false, s).
Proof.
  unfold request_resources. intros [->|[-> ->]]; done.
Qed.

(** A granted request is the allocation loop run to its end. *)
Lemma request_granted_moved s t request s1 :
  wf s → (t < num_threads s)%nat →
  request_resources t request s = Some (true, s1) →
  ∃ la ln ra rn,
    allocation s !! t = Some la ∧ need s !! t = Some ln ∧ la ≠ ln
    ∧ store s !! la = Some ra ∧ store s !! ln = Some rn
    ∧ (num_resources s ≤ length ra)%nat ∧ (num_resources s ≤ length rn)%nat
    ∧ (num_resources s ≤ length request)%nat
    ∧ s1 = moved Z.sub Z.add Z.sub request (num_resources s) la ln ra rn s.
Proof.
  intros Hwf Ht Hreq.
  destruct (wf_thread s t Hwf Ht)
    as (la & ln & ra & rn & Hla & Hln & Hne & Hra & Hrn & Hlra & Hlrn).
  exists la, ln, ra, rn. repeat (split; [done|]).
  unfold request_resources in Hreq.
  destruct (any_gt request (λ i, cell s (need s) t i) _) as [[]|] eqn:Hg1;
    simpl in Hreq; try done.
  destruct (any_gt request (λ i, available s !! i) _) as [[]|] eqn:Hg2;
    simpl in Hreq; try done.
  assert (num_resources s ≤ length request)%nat as Hlen.
  { apply range_covered. intros i Hi.
    destruct (any_gt_false _ _ _ Hg2 i Hi) as (r & _ & -> & _). done. }
  split; [done|].
  rewrite (allocate_loop_moved s t request la ln ra rn) in Hreq;
    try done; [|apply Hwf].
  simpl in Hreq.
  destruct (is_safe _) as [[[] sq]|]; by simplify_eq.
Qed.

(** Both methods keep the shape that [__init__] establishes. *)
Lemma wf_release_resources s t amounts s' :
  wf s → (t < num_threads s)%nat →
  (num_resources s ≤ length amounts)%nat →
  release_resources t amounts s = Some s' → wf s'.
Proof.
  intros Hwf Ht Hlen Hrel.
  destruct (wf_thread s t Hwf Ht)
    as (la & ln & ra & rn & Hla & Hln & Hne & Hra & Hrn & Hlra & Hlrn).
  rewrite (release_resources_moved s t amounts la ln ra rn) in Hrel;
    try done; [|apply Hwf].
  simplify_eq. by apply wf_moved.
Qed.


(** C9, as amended.  For a request that is a list of the caller's own
    (not [available] nor a row of the object): releasing exactly what a
    granted request took gives back the object as it was before the
    request, hence the same [available], [allocation] and [need], row by
    row. *)
Theorem release_after_grant_restores s t request s1 :
  wf s → (t < num_threads s)%nat →
  Aliasing.request_resources t (Aliasing.Fresh request) s
  = Some (true, s1) →
  ∃ s2, Aliasing.release_resources t (Aliasing.Fresh request) s1 = Some s2
      ∧ ledger s2 = ledger s ∧ s2 = s.
Proof.
  intros Hwf Ht Hreq. rewrite request_resources_fresh in Hreq.
  destruct (request_granted_moved s t request s1 Hwf Ht Hreq)
    as (la & ln & ra & rn & Hla & Hln & Hne & Hra & Hrn & Hlra & Hlrn
        & Hlen & ->).
  pose proof (lookup_lt_Some _ _ _ Hra) as Hlla.
  pose proof (lookup_lt_Some _ _ _ Hrn) as Hlln.
  exists s. split; [|done]. rewrite release_resources_fresh.
  rewrite (release_resources_moved _ t request la ln
             (bump Z.add request (num_resources s) ra)
             (bump Z.sub request (num_resources s) rn)); simpl;
    try done; rewrite ?bump_length; try done; try apply Hwf.
  - f_equal. apply (moved_cancel Z.sub Z.add Z.sub Z.add Z.sub Z.add);
      try done; intros; lia.
  - rewrite list_lookup_insert_ne by done. by rewrite list_lookup_insert_eq.
  - rewrite list_lookup_insert_eq; [done|]. by rewrite length_insert.
Qed.

Lemma release_after_grant_restores_witness :
  wf small_safe ∧ (0 < num_threads small_safe)%nat
  ∧ Aliasing.request_resources 0 (Aliasing.Fresh [1]) small_safe
    = Some (true, mkBanker 1 2 [1] [[2]; [1]] [0; 1]%nat [2; 3]%nat
                    [[1]; [0]; [1]; [1]])
  ∧ ∃ s2, Aliasing.release_resources 0 (Aliasing.Fresh [1])
            (mkBanker 1 2 [1] [[2]; [1]] [0; 1]%nat [2; 3]%nat
               [[1]; [0]; [1]; [1]]) = Some s2
        ∧ ledger s2 = ledger small_safe ∧ s2 = small_safe.
Proof.
  split; [apply wf_small_safe|]. split; [simpl; lia|].
  split; [reflexivity|].
  apply (release_after_grant_restores small_safe 0 [1]);
    [apply wf_small_safe | simpl; lia | reflexivity].
Defined.

(** C9, the claim refuted.  Thread 1 of [small_safe] requests its own
    need row, [request_resources(1, banker.need[1])]: the request is
    granted, and the loop has turned the list into [[0]], so that the
    release of the same list changes nothing: [available] is [[1]], not
    [[2]], and the rows of thread 1 are not those before the request.
    Thread 0 of [one_free] requests [banker.available]: the request is
    granted with the free unit taken from [available] and given to
    nobody, and the release of [[1]], the value of the list when it was
    requested, does not give the ledger back either. *)
Lemma release_after_grant_aliased :
  (need small_safe !! 1%nat = Some 3%nat
   ∧ ∃ s1 s2,
       Aliasing.request_resources 1 (Aliasing.Row 3) small_safe
       = Some (true, s1)
       ∧ Aliasing.release_resources 1 (Aliasing.Row 3) s1 = Some s2
       ∧ ledger small_safe = ([2], Some [[0]; [0]], Some [[2]; [1]])
       ∧ ledger s2 = ([1], Some [[0]; [1]], Some [[2]; [0]])
       ∧ ledger s2 ≠ ledger small_safe)
  ∧ ∃ s1 s2,
      Aliasing.request_resources 0 Aliasing.Available one_free
      = Some (true, s1)
      ∧ ledger one_free = ([1], Some [[0]; [1]], Some [[1]; [0]])
      ∧ ledger s1 = ([0], Some [[0]; [1]], Some [[1]; [0]])
      ∧ Aliasing.release_resources 0 (Aliasing.Fresh [1]) s1 = Some s2
      ∧ ledger s2 = ([1], Some [[-1]; [1]], Some [[2]; [0]])
      ∧ ledger s2 ≠ ledger one_free.
Proof.
  split.
  - split; [reflexivity|]. eexists _, _.
    split; [reflexivity|]. split; [reflexivity|]. split; [reflexivity|].
    split; [reflexivity|discriminate].
  - eexists _, _. split; [reflexivity|]. split; [reflexivity|].
    split; [reflexivity|]. split; [reflexivity|].
    split; [reflexivity|discriminate].
Qed.

(** C7, as amended.  On a well-formed object a request of the all-zero
    vector never changes the object.  It is validated like any other
    request, so it is granted exactly when the thread's need row and
    [available] hold no negative entry and [is_safe] accepts the current
    state. *)
Theorem request_zero_revalidated s t :
  wf s → (t < num_threads s)%nat →
  ∃ b, request_resources t (zeros (num_resources s)) s = Some (b, s)
     ∧ (b = true ↔
          (∀ c, (c < num_resources s)%nat →
                ∃ n, cell s (need s) t c = Some n ∧ 0 ≤ n)
          ∧ (∀ c, (c < num_resources s)%nat →
                ∃ a, available s !! c = Some a ∧ 0 ≤ a)
          ∧ ∃ sq, is_safe s = Some (true, sq)).
Proof.
  intros Hwf Ht.
  destruct (wf_thread s t Hwf Ht)
    as (la & ln & ra & rn & Hla & Hln & Hne & Hra & Hrn & Hlra & Hlrn).
  assert (∀ i, i ∈ range (num_resources s) →
               zeros (num_resources s) !! i = Some 0) as Hz.
  { intros i Hi. apply elem_of_seq in Hi. apply lookup_replicate_2. lia. }
  assert (∀ i, i ∈ range (num_resources s) →
               is_Some (cell s (need s) t i)) as Hcell.
  { intros i Hi. apply elem_of_seq in Hi. unfold cell, row.
    rewrite Hln. simpl. rewrite Hrn. simpl. apply lookup_lt_is_Some_2. lia. }
  assert (∀ i, i ∈ range (num_resources s) →
               is_Some (available s !! i)) as Hav.
  { intros i Hi. apply elem_of_seq in Hi. apply lookup_lt_is_Some_2.
    pose proof (wf_available s Hwf). lia. }
  unfold request_resources.
  destruct (any_gt_spec (zeros (num_resources s))
              (λ i, cell s (need s) t i) (range (num_resources s)))
    as (b1 & Hb1 & Hiff1).
  { intros i Hi. rewrite Hz by done. split; [done|by apply Hcell]. }
  rewrite Hb1. simpl. destruct b1.
  { exists false. split; [done|]. split; [done|]. intros (Hneed & _).
    destruct Hiff1 as [Hex _].
    destruct (Hex eq_refl) as (i & r & bd & Hi & Hr & Hbd & Hgt).
    rewrite Hz in Hr by done. apply elem_of_seq in Hi.
    destruct (Hneed i) as (n & Hn & Hpos); [lia|].
    simplify_eq; lia. }
  destruct (any_gt_spec (zeros (num_resources s))
              (λ i, available s !! i) (range (num_resources s)))
    as (b2 & Hb2 & Hiff2).
  { intros i Hi. rewrite Hz by done. split; [done|by apply Hav]. }
  rewrite Hb2. simpl. destruct b2.
  { exists false. split; [done|]. split; [done|]. intros (_ & Havail & _).
    destruct Hiff2 as [Hex _].
    destruct (Hex eq_refl) as (i & r & bd & Hi & Hr & Hbd & Hgt).
    rewrite Hz in Hr by done. apply elem_of_seq in Hi.
    destruct (Havail i) as (a & Ha & Hpos); [lia|].
    simplify_eq; lia. }
  rewrite (allocate_loop_moved s t _ la ln ra rn); try done;
    [|apply Hwf|unfold zeros; by rewrite length_replicate].
  rewrite moved_zeros by (try done; intros; lia). simpl.
  destruct (is_safe_returns s Hwf) as ([safe sq] & ->).
  assert (set_need (need s)
            (set_allocation (allocation s)
               (set_available (available s) s)) = s) as -> by (by destruct s).
  exists safe. split; [by destruct safe|]. split.
  - intros ->. split; [|split; [|by exists sq]].
    + intros c Hc.
      destruct (any_gt_false _ _ _ Hb1 c) as (r & n & Hr & Hn & Hle);
        [apply elem_of_seq; lia|].
      rewrite Hz in Hr by (apply elem_of_seq; lia). simplify_eq.
      by exists n.
    + intros c Hc.
      destruct (any_gt_false _ _ _ Hb2 c) as (r & a & Hr & Ha & Hle);
        [apply elem_of_seq; lia|].
      rewrite Hz in Hr by (apply elem_of_seq; lia). simplify_eq.
      by exists a.
  - intros (_ & _ & sq' & Hsq). by simplify_eq.
Qed.

Lemma request_zero_revalidated_witness :
  wf small_safe ∧ (0 < num_threads small_safe)%nat
  ∧ ∃ b, request_resources 0 (zeros (num_resources small_safe)) small_safe
         = Some (b, small_safe)
       ∧ (b = true ↔
            (∀ c, (c < num_resources small_safe)%nat →
                  ∃ n, cell small_safe (need small_safe) 0 c = Some n
                       ∧ 0 ≤ n)
            ∧ (∀ c, (c < num_resources small_safe)%nat →
                  ∃ a, available small_safe !! c = Some a ∧ 0 ≤ a)
            ∧ ∃ sq, is_safe small_safe = Some (true, sq)).
Proof.
  split; [apply wf_small_safe|]. split; [simpl; lia|].
  apply (request_zero_revalidated small_safe 0);
    [apply wf_small_safe | simpl; lia].
Defined.

(** C7, the claim refuted: [BankersAlgorithm(3, 3)] starts in a state
    that [is_safe] rejects, and there the all-zero request of thread 0 is
    denied. *)
Lemma request_zero_denied :
  is_safe banker33 = Some (false, [1%nat])
  ∧ request_resources 0 (zeros 3) banker33 = Some (false, banker33).
Proof. split; reflexivity. Qed.

(** *** The total of a resource class *)

Lemma mapM_ext_elem {A B} (f g : A → option B) l :
  (∀ i, i ∈ l → g i = f i) → mapM g l = mapM f l.
Proof.
  induction l as [|a l IH]; intros Hfg; simpl; [done|].
  rewrite Hfg by left. rewrite IH; [done|]. intros i Hi. apply Hfg. by right.
Qed.

(** A column in which the entry of one thread moves by [r]. *)
Lemma mapM_shift (f g : nat → option Z) l t x r col :
  NoDup l → t ∈ l → f t = Some x → g t = Some (x + r) →
  (∀ i, i ∈ l → i ≠ t → g i = f i) →
  mapM f l = Some col →
  ∃ col', mapM g l = Some col'
        ∧ foldr Z.add 0 col' = foldr Z.add 0 col + r.
Proof.
  intros Hdup Ht Hf Hg. revert col Hdup Ht.
  induction l as [|a l IH]; intros col Hdup Ht Hfg Hcol.
  - by apply elem_of_nil in Ht.
  - apply NoDup_cons in Hdup as [Ha Hdup]. simpl in *.
    destruct (decide (a = t)) as [->|Hne].
    + rewrite Hf in Hcol. rewrite Hg. simpl in *.
      rewrite (mapM_ext_elem f g l).
      * destruct (mapM f l) as [k|]; simpl in Hcol; [|done].
        cbv [mret option_ret] in Hcol. simplify_eq.
        eexists. split; [done|]. simpl. lia.
      * intros i Hi. apply Hfg; [by right|]. by intros ->.
    + rewrite (Hfg a) by (done || left).
      destruct (f a) as [y|]; simpl in *; [|done].
      destruct (mapM f l) as [k|] eqn:Hk; simpl in Hcol; [|done].
      cbv [mret option_ret] in Hcol. simplify_eq.
      destruct (IH k) as (k' & -> & Hsum); try done.
      * apply elem_of_cons in Ht as [->|Ht]; done.
      * intros i Hi. apply Hfg. by right.
      * eexists. split; [done|]. simpl. lia.
Qed.

(** A loop that takes from [available] what it gives to the allocation
    row (or the converse) keeps the total of every class. *)
Lemma class_total_moved fa fl fn amounts la ln ra rn s t c :
  (∀ a x r, fa a r + fl x r = a + x) →
  wf s → (t < num_threads s)%nat →
  allocation s !! t = Some la → need s !! t = Some ln →
  store s !! la = Some ra → store s !! ln = Some rn →
  (c < num_resources s)%nat →
  (num_resources s ≤ length amounts)%nat →
  is_Some (class_total s c) →
  class_total (moved fa fl fn amounts (num_resources s) la ln ra rn s) c
  = class_total s c.
Proof.
  intros Hbal Hwf Ht Hla Hln Hra Hrn Hc Hlen [tot Htot].
  pose proof (lookup_lt_Some _ _ _ Hra) as Hlla.
  pose proof (lookup_lt_Some _ _ _ Hrn) as Hlln.
  destruct (lookup_lt_is_Some_2 amounts c) as [r Hr]; [lia|].
  rewrite Htot. unfold class_total in *. simpl.
  destruct (available s !! c) as [a|] eqn:Ha; simpl in Htot; [|done].
  destruct (mapM _ _) as [col|] eqn:Hcol in Htot; simpl in Htot; [|done].
  rewrite bump_lookup, Ha. simpl. case_decide; [|lia]. rewrite Hr. simpl.
  assert (∃ x, ra !! c = Some x) as [x Hx].
  { apply lookup_lt_is_Some_2.
    destruct (wf_rows s Hwf la) as (r' & Hr' & ?); [|simplify_eq; lia].
    apply elem_of_app. left. by eapply list_elem_of_lookup_2. }
  destruct (mapM_shift (λ i, cell s (allocation s) i c)
    (λ i, cell (moved fa fl fn amounts (num_resources s) la ln ra rn s)
            (allocation s) i c)
    (range (num_threads s)) t x (fl x r - x) col)
    as (col' & Hcol' & Hsum); try done.
  - apply NoDup_seq.
  - apply elem_of_seq. lia.
  - unfold cell, row. rewrite Hla. simpl. by rewrite Hra.
  - unfold cell, row. simpl. rewrite Hla. simpl.
    assert (la ≠ ln) as Hne.
    { destruct (wf_thread s t Hwf Ht)
        as (la' & ln' & _ & _ & ? & ? & ? & _). by simplify_eq. }
    rewrite list_lookup_insert_ne by done.
    rewrite list_lookup_insert_eq by done. simpl.
    rewrite bump_lookup, Hx. simpl. case_decide; [|lia]. rewrite Hr. simpl.
    f_equal. lia.
  - intros i Hi Hit. unfold cell.
    destruct (allocation s !! i) as [l|] eqn:Hl.
    + destruct (wf_other_refs s t i la ln Hwf Hla Hln Hit) as [Hoth _].
      destruct (Hoth l Hl).
      by rewrite (moved_row_other _ _ _ _ _ _ _ _ _ _ _ _ l).
    + unfold row. by rewrite Hl.
  - simpl in Hcol'. rewrite Hcol'. simpl. simplify_eq. f_equal.
    specialize (Hbal a x r). lia.
Qed.

Lemma class_total_defined s c :
  wf s → (c < num_resources s)%nat → is_Some (class_total s c).
Proof.
  intros Hwf Hc. unfold class_total.
  destruct (lookup_lt_is_Some_2 (available s) c) as [a ->].
  { pose proof (wf_available s Hwf). lia. }
  simpl.
  assert (is_Some (mapM (λ i, cell s (allocation s) i c)
                     (range (num_threads s)))) as [col ->]; [|done].
  assert (∀ l, (∀ i, i ∈ l → (i < num_threads s)%nat) →
               is_Some (mapM (λ i, cell s (allocation s) i c) l)) as Hall.
  { induction l as [|i l IH]; intros Hl; simpl; [done|].
    destruct (wf_row_allocation s i Hwf) as (al & Hal & Hlen);
      [apply Hl; left|].
    unfold cell. rewrite Hal. simpl.
    destruct (lookup_lt_is_Some_2 al c) as [x ->]; [lia|]. simpl.
    destruct IH as [k Hk]; [intros; apply Hl; by right|].
    unfold cell in Hk. rewrite Hk. done. }
  apply Hall. intros i Hi. apply elem_of_seq in Hi. lia.
Qed.

(** [release_resources] and a granted request keep the total of every
    class: the total moves on the denial path only (C3 below). *)
Lemma class_total_release s t amounts s' c :
  wf s → (t < num_threads s)%nat →
  (num_resources s ≤ length amounts)%nat →
  (c < num_resources s)%nat →
  release_resources t amounts s = Some s' →
  class_total s' c = class_total s c.
Proof.
  intros Hwf Ht Hlen Hc Hrel.
  destruct (wf_thread s t Hwf Ht)
    as (la & ln & ra & rn & Hla & Hln & Hne & Hra & Hrn & Hlra & Hlrn).
  rewrite (release_resources_moved s t amounts la ln ra rn) in Hrel;
    try done; [|apply Hwf].
  simplify_eq. apply (class_total_moved _ _ _ _ _ _ _ _ _ t); try done.
  - intros. lia.
  - by apply class_total_defined.
Qed.

Lemma class_total_granted s t request s' c :
  wf s → (t < num_threads s)%nat → (c < num_resources s)%nat →
  request_resources t request s = Some (true, s') →
  class_total s' c = class_total s c.
Proof.
  intros Hwf Ht Hc Hreq.
  destruct (request_granted_moved s t request s' Hwf Ht Hreq)
    as (la & ln & ra & rn & Hla & Hln & Hne & Hra & Hrn & Hlra & Hlrn
        & Hlen & ->).
  apply (class_total_moved _ _ _ _ _ _ _ _ _ t); try done.
  - intros. lia.
  - by apply class_total_defined.
Qed.

(** C1, the code at the failing input.  On [BankersAlgorithm(3, 3)] the
    request [[1, 0, 2]] of thread 0 passes both guards and is denied as
    unsafe.  The rollback restores [available]; the rows of
    [original_allocation] and [original_need] are the row objects that the
    allocation loop has just changed, so [allocation[0]] and [need[0]]
    keep the denied amounts. *)
Theorem request_denied_rows_not_restored :
  ledger banker33 = ([3; 3; 3],
                     Some [[0; 0; 0]; [0; 0; 0]; [0; 0; 0]],
                     Some [[7; 5; 3]; [3; 2; 2]; [9; 0; 2]])
  ∧ any_gt [1; 0; 2] (λ i, cell banker33 (need banker33) 0 i) (range 3)
    = Some false
  ∧ any_gt [1; 0; 2] (λ i, available banker33 !! i) (range 3) = Some false
  ∧ ∃ s', request_resources 0 [1; 0; 2] banker33 = Some (false, s')
        ∧ ledger s' = ([3; 3; 3],
                       Some [[1; 0; 2]; [0; 0; 0]; [0; 0; 0]],
                       Some [[6; 5; 1]; [3; 2; 2]; [9; 0; 2]]).
Proof.
  split; [reflexivity|]. split; [reflexivity|]. split; [reflexivity|].
  eexists. split; reflexivity.
Qed.

(** The same on scenario D, a state that [is_safe] accepts: the request of
    one unit by actor 1 would strand both actors and is denied;
    [available] is restored, the rows of actor 1 are not. *)
Lemma request_denied_scenarioD :
  is_safe scenarioD = Some (true, [0; 1]%nat)
  ∧ ledger scenarioD = ([1], Some [[1]; [0]], Some [[1]; [2]])
  ∧ ∃ s', request_resources 1 [1] scenarioD = Some (false, s')
        ∧ ledger s' = ([1], Some [[1]; [1]], Some [[1]; [1]])
        ∧ class_total scenarioD 0 = Some 2
        ∧ class_total s' 0 = Some 3.
Proof.
  split; [reflexivity|]. split; [reflexivity|]. eexists.
  repeat split; reflexivity.
Qed.

(** C3, the code at the failing input.  After the same denied request,
    [available[0]] is 3 again while [allocation[0][0]] stays 1: the total
    of class 0 has gone from 3 to 4. *)
Theorem class_total_not_preserved :
  class_total banker33 0 = Some 3
  ∧ ∃ s', request_resources 0 [1; 0; 2] banker33 = Some (false, s')
        ∧ class_total s' 0 = Some 4.
Proof. split; [reflexivity|]. eexists. split; reflexivity. Qed.

(** C6, as amended.  On the snapshot of scenario A [is_safe] returns
    [false] with the partial sequence [[1]]: once thread 1 has finished,
    [work] is [[5, 3, 2]] and neither thread 0 (need [[7, 4, 3]]) nor
    thread 2 (need [[6, 0, 0]]) fits. *)
Theorem is_safe_scenarioA : is_safe scenarioA = Some (false, [1%nat]).
Proof. reflexivity. Qed.

(** C6, the claim refuted: scenario A is the snapshot of the claim, its
    need rows are [max - allocation], and [is_safe] does not return
    [true] on it. *)
Lemma is_safe_scenarioA_not_true :
  ledger scenarioA = ([3; 3; 2],
                      Some [[0; 1; 0]; [2; 0; 0]; [3; 0; 2]],
                      Some [[7; 4; 3]; [1; 2; 2]; [6; 0; 0]])
  ∧ max scenarioA = [[7; 5; 3]; [3; 2; 2]; [9; 0; 2]]
  ∧ calculate_need 3 3 (max scenarioA)
      [[0; 1; 0]; [2; 0; 0]; [3; 0; 2]]
    = deref scenarioA (need scenarioA)
  ∧ ¬ ∃ sq, is_safe scenarioA = Some (true, sq).
Proof.
  split; [reflexivity|]. split; [reflexivity|]. split; [reflexivity|].
  intros (sq & Hsq). vm_compute in Hsq. discriminate.
Qed.

End BankerFacts.

(** ** deadlockdetection.py *)

Module DetectorFacts.
Import Detector.

(** *** The two mutating methods *)

Lemma scenarioB_reached :
  run [Request 0 0; Request 1 1; Request 0 1; Request 1 0] (init 2 2)
  = Some scenarioB.
Proof. vm_compute. reflexivity. Qed.

Lemma two_held_reached :
  run [Request 0 0; Request 0 1; Request 1 2; Request 1 0; Request 0 2]
    (init 3 2) = Some two_held.
Proof. vm_compute. reflexivity. Qed.

Lemma one_waiter_reached :
  run [Request 0 0; Request 1 0] (init 1 2) = Some one_waiter.
Proof. vm_compute. reflexivity. Qed.




Lemma list_set_Some {A} i (x : A) l l' :
  list_set i x l = Some l' → (i < length l)%nat ∧ l' = <[i:=x]> l.
Proof. unfold list_set. case_decide; naive_solver. Qed.

Lemma list_set_lt {A} i (x : A) l :
  (i < length l)%nat → list_set i x l = Some (<[i:=x]> l).
Proof. intros. unfold list_set. by case_decide. Qed.

(** No call frees an orphaned resource. *)
Lemma orphaned_exec d t r c d' :
  orphaned d t r → exec c d = Some d' → orphaned d' t r.
Proof.
  intros [Hst Hlk] Hexec. destruct c as [t' r'|t' r']; simpl in Hexec.
  - unfold request_resource in Hexec.
    destruct (resource_status d !! r') as [[o|]|] eqn:Hr';
      simpl in Hexec; [| |done].
    + destruct (waiting_threads d !! t'); simpl in Hexec; [|done].
      simplify_eq. by split.
    + destruct (list_set r' _ _) as [rs|] eqn:Hrs; simpl in Hexec; [|done].
      destruct (list_set t' _ _) as [tl|] eqn:Htl; simpl in Hexec; [|done].
      apply list_set_Some in Hrs as [? ->].
      apply list_set_Some in Htl as [? ->]. simplify_eq.
      assert (r' ≠ r) by (intros ->; congruence).
      split; simpl.
      * by rewrite list_lookup_insert_ne.
      * intros t''. destruct (decide (t' = t'')) as [<-|Hne].
        -- rewrite list_lookup_insert_eq by done. congruence.
        -- rewrite list_lookup_insert_ne by done. apply Hlk.
  - unfold release_resource in Hexec.
    destruct (thread_locks d !! t') as [l|] eqn:Hl; simpl in Hexec; [|done].
    case_decide as Heq; [|simplify_eq; by split]. subst l.
    destruct (list_set r' _ _) as [rs|] eqn:Hrs; simpl in Hexec; [|done].
    destruct (list_set t' _ _) as [tl|] eqn:Htl; simpl in Hexec; [|done].
    apply list_set_Some in Hrs as [? ->].
    apply list_set_Some in Htl as [? ->]. simplify_eq.
    assert (r' ≠ r) by (intros ->; by eapply Hlk).
    split; simpl.
    + by rewrite list_lookup_insert_ne.
    + intros t''. destruct (decide (t' = t'')) as [<-|Hne].
      * rewrite list_lookup_insert_eq by done. congruence.
      * rewrite list_lookup_insert_ne by done. apply Hlk.
Qed.

Lemma orphaned_run cs : ∀ d t r d',
  orphaned d t r → run cs d = Some d' → orphaned d' t r.
Proof.
  induction cs as [|c cs IH]; intros d t r d' Horph Hrun;
    unfold run in *; simpl in Hrun.
  - by simplify_eq.
  - destruct (exec c d) as [d1|] eqn:Hexec; simpl in Hrun; [|done].
    eapply IH; [|done]. by eapply orphaned_exec.
Qed.

(** In the states that the methods produce the lock records are sound, so
    that a free resource is nobody's lock record. *)
Lemma lock_sound_init nr nt : lock_sound (init nr nt).
Proof.
  intros t r Hl. simpl in Hl. by apply lookup_replicate in Hl as [? _].
Qed.

Lemma lock_sound_exec c d d' :
  lock_sound d → exec c d = Some d' → lock_sound d'.
Proof.
  intros Hsound Hexec. destruct c as [t r|t r]; simpl in Hexec.
  - unfold request_resource in Hexec.
    destruct (resource_status d !! r) as [[o|]|] eqn:Hr;
      simpl in Hexec; [| |done].
    + destruct (waiting_threads d !! t); simpl in Hexec; [|done].
      by simplify_eq.
    + destruct (list_set r _ _) as [rs|] eqn:Hrs; simpl in Hexec; [|done].
      destruct (list_set t _ _) as [tl|] eqn:Htl; simpl in Hexec; [|done].
      apply list_set_Some in Hrs as [? ->].
      apply list_set_Some in Htl as [? ->]. simplify_eq.
      intros t' r'. simpl. destruct (decide (t = t')) as [<-|Hne].
      * rewrite list_lookup_insert_eq by done. intros [= <-].
        by apply list_lookup_insert_eq.
      * rewrite list_lookup_insert_ne by done. intros Hl.
        apply Hsound in Hl.
        rewrite list_lookup_insert_ne; [done|]. intros ->. congruence.
  - unfold release_resource in Hexec.
    destruct (thread_locks d !! t) as [l|] eqn:Hl; simpl in Hexec; [|done].
    case_decide as Heq; [|by simplify_eq]. subst l.
    destruct (list_set r _ _) as [rs|] eqn:Hrs; simpl in Hexec; [|done].
    destruct (list_set t _ _) as [tl|] eqn:Htl; simpl in Hexec; [|done].
    apply list_set_Some in Hrs as [? ->].
    apply list_set_Some in Htl as [? ->]. simplify_eq.
    intros t' r'. simpl. destruct (decide (t = t')) as [<-|Hne].
    + by rewrite list_lookup_insert_eq.
    + rewrite list_lookup_insert_ne by done. intros Hl'.
      pose proof (Hsound _ _ Hl) as Hs. pose proof (Hsound _ _ Hl') as Hs'.
      rewrite list_lookup_insert_ne; [done|]. intros ->. congruence.
Qed.

Lemma lock_sound_run cs : ∀ d d',
  lock_sound d → run cs d = Some d' → lock_sound d'.
Proof.
  induction cs as [|c cs IH]; intros d d' Hsound Hrun;
    unfold run in *; simpl in Hrun.
  - by simplify_eq.
  - destruct (exec c d) as [d1|] eqn:Hexec; simpl in Hrun; [|done].
    eapply IH; [|done]. by eapply lock_sound_exec.
Qed.

Lemma lock_sound_free d r :
  lock_sound d → resource_status d !! r = Some None →
  ∀ t, thread_locks d !! t ≠ Some (Some r).
Proof. intros Hsound Hfree t Hl. apply Hsound in Hl. congruence. Qed.

(** C10. A thread that acquires the free resource [r1] and then the free
    resource [r2] has [r2] as its lock record and is still the holder of
    [r1] in [resource_status]; its [release_resource] of [r1] returns
    without changing anything.  When no lock record was [r1] beforehand
    (the case of a free resource in every state that the methods produce,
    lemmas [lock_sound_run] and [lock_sound_free]), no sequence of calls
    ever frees [r1] again. *)
Theorem second_acquire_overwrites_lock_record d t r1 r2 :
  (t < length (thread_locks d))%nat →
  resource_status d !! r1 = Some None →
  resource_status d !! r2 = Some None →
  r1 ≠ r2 →
  ∃ d2, run [Request t r1; Request t r2] d = Some d2
      ∧ thread_locks d2 !! t = Some (Some r2)
      ∧ resource_status d2 !! r1 = Some (Some t)
      ∧ release_resource t r1 d2 = Some d2
      ∧ ((∀ t', thread_locks d !! t' ≠ Some (Some r1)) →
         ∀ cs d3, run cs d2 = Some d3 →
                  resource_status d3 !! r1 = Some (Some t)).
Proof.
  intros Ht H1 H2 Hne.
  pose proof (lookup_lt_Some _ _ _ H1) as Hl1.
  pose proof (lookup_lt_Some _ _ _ H2) as Hl2.
  unfold run. simpl. unfold request_resource at 2. rewrite H1. simpl.
  rewrite !list_set_lt by done. simpl.
  unfold request_resource. simpl.
  rewrite list_lookup_insert_ne, H2 by done. simpl.
  rewrite !list_set_lt by (by rewrite length_insert). simpl.
  eexists. split; [done|]. simpl.
  assert (<[t:=Some r2]> (<[t:=Some r1]> (thread_locks d)) !! t
          = Some (Some r2)) as Hlock.
  { apply list_lookup_insert_eq. by rewrite length_insert. }
  assert (<[r2:=Some t]> (<[r1:=Some t]> (resource_status d)) !! r1
          = Some (Some t)) as Hheld.
  { rewrite list_lookup_insert_ne by done. by apply list_lookup_insert_eq. }
  split; [done|]. split; [done|]. split.
  - unfold release_resource. simpl. rewrite Hlock. simpl.
    case_decide; [simplify_eq|done].
  - intros Hfree cs d3 Hrun.
    eapply (orphaned_run cs _ t r1 d3); [|exact Hrun].
    split; simpl; [done|]. intros t'.
    destruct (decide (t = t')) as [<-|Hne'].
    + rewrite Hlock. congruence.
    + rewrite !list_lookup_insert_ne by done. apply Hfree.
Qed.

Lemma second_acquire_overwrites_lock_record_witness :
  (0 < length (thread_locks (init 3 3)))%nat
  ∧ resource_status (init 3 3) !! 0%nat = Some None
  ∧ resource_status (init 3 3) !! 1%nat = Some None
  ∧ 0%nat ≠ 1%nat
  ∧ ∃ d2, run [Request 0 0; Request 0 1] (init 3 3) = Some d2
        ∧ thread_locks d2 !! 0%nat = Some (Some 1%nat)
        ∧ resource_status d2 !! 0%nat = Some (Some 0%nat)
        ∧ release_resource 0 0 d2 = Some d2
        ∧ ((∀ t', thread_locks (init 3 3) !! t' ≠ Some (Some 0%nat)) →
           ∀ cs d3, run cs d2 = Some d3 →
                    resource_status d3 !! 0%nat = Some (Some 0%nat)).
Proof.
  split; [simpl; lia|]. split; [reflexivity|]. split; [reflexivity|].
  split; [lia|].
  apply (second_acquire_overwrites_lock_record (init 3 3) 0 0 1);
    [simpl; lia | reflexivity | reflexivity | lia].
Defined.

(** *** The traversal *)

Lemma count_false_le l : (count_false l ≤ length l)%nat.
Proof. induction l as [|[] l IH]; simpl; lia. Qed.

Lemma count_false_insert l i :
  l !! i = Some false → count_false l = S (count_false (<[i:=true]> l)).
Proof.
  revert i. induction l as [|b l IH]; intros [|i] Hi; simplify_eq/=; [done|].
  rewrite (IH i Hi). destruct b; simpl; lia.
Qed.

Lemma grows_refl m : grows m m.
Proof. unfold grows. auto. Qed.

Lemma grows_trans m1 m2 m3 : grows m1 m2 → grows m2 m3 → grows m1 m3.
Proof.
  intros (H1 & H2 & H3 & H4) (H1' & H2' & H3' & H4'). unfold grows.
  split; [congruence|]. split; [congruence|]. split; [auto|lia].
Qed.

Lemma black_grows m m' i : grows m m' → black m i → black m' i.
Proof.
  intros (Hrs & _ & Hv & _) [Hb1 Hb2]. split; [by apply Hv|].
  by rewrite Hrs.
Qed.

Lemma on_stack_grows d m t cur cur' :
  on_stack d m t cur → dfs_inv d cur' → grows cur cur' →
  on_stack d m t cur'.
Proof.
  intros (_ & Hrs & Hvt) Hinv (Hrs' & _ & Hv & _).
  split; [done|]. split; [congruence|by apply Hv].
Qed.

Lemma tc_first {A} (R : relation A) x z :
  tc R x z → ∃ y, R x y ∧ rtc R y z.
Proof.
  intros [x' y Hxy|x' y z' Hxy Hyz].
  - exists y. split; [done|apply rtc_refl].
  - exists y. split; [done|by apply tc_rtc].
Qed.

Lemma tc_subrel {A} (R1 R2 : relation A) x y :
  (∀ a b, R1 a b → R2 a b) → tc R1 x y → tc R2 x y.
Proof.
  intros Hsub. induction 1 as [x y Hxy|x y z Hxy _ IH].
  - apply tc_once. by apply Hsub.
  - eapply tc_l; [by apply Hsub|done].
Qed.

Section traversal.

Variable d : DeadlockDetector.
Hypothesis Hwf : wf d.

Lemma white_lt m o :
  dfs_inv d m → white m o → (o < num_threads d)%nat.
Proof.
  intros ((Hlen & _) & _) Hw. apply lookup_lt_Some in Hw. lia.
Qed.

Lemma lock_edge_lt a b : lock_edge d a b → (a < num_threads d)%nat.
Proof.
  intros (_ & r & (w & Hw & _) & _). apply Hwf. by exists w.
Qed.

(** One pair of [enumerate(self.thread_locks)]. *)
Lemma holder_step_ok k recur m t cur resource o ores :
  recur_ok d k recur →
  (∀ g, gray m g → rtc (lock_edge d) g t) →
  (t < length (rec_stack m))%nat →
  on_stack d m t cur →
  (count_false (visited cur) ≤ k)%nat →
  waits_on d t resource →
  thread_locks d !! o = Some ores →
  ∃ b cur', holder_step recur t resource (o, ores) cur = Some (b, cur')
    ∧ (b = true → has_cycle (lock_edge d))
    ∧ (b = false →
         dfs_inv d cur' ∧ grows cur cur'
         ∧ (o ≠ t → ores = Some resource → black cur' o)).
Proof.
  intros Hrec Hgray Ht (Hinv & Hrs & Hvt) Hcount Hwait Hitem.
  unfold holder_step. case_decide as Hcond.
  - destruct Hcond as [Hne ->].
    assert (lock_edge d t o) as Hedge.
    { split; [done|]. by exists resource. }
    pose proof Hinv as ((Hlv & Hlr & Hgv) & _).
    assert (o < num_threads d)%nat as Ho.
    { apply lookup_lt_Some in Hitem. destruct Hwf as [<- _]. done. }
    destruct (lookup_lt_is_Some_2 (visited cur) o) as [vo Hvo]; [lia|].
    destruct (lookup_lt_is_Some_2 (rec_stack cur) o) as [ro Hro]; [lia|].
    rewrite Hvo. simpl. destruct vo; simpl.
    + rewrite Hro. simpl. exists ro, cur. split; [done|]. split.
      * intros ->. exists o. eapply tc_rtc_l; [|by apply tc_once].
        apply Hgray. unfold gray. rewrite Hrs in Hro.
        by rewrite list_lookup_insert_ne in Hro.
      * intros ->. split; [done|]. split; [apply grows_refl|]. by split.
    + destruct (Hrec o cur) as (b & m' & -> & Hb1 & Hb2); try done.
      { intros g Hg. unfold gray in Hg. rewrite Hrs in Hg.
        destruct (decide (g = t)) as [->|Hgt]; [by apply rtc_once|].
        rewrite list_lookup_insert_ne in Hg by done.
        eapply rtc_r; [by apply Hgray|done]. }
      destruct b; [by exists true, m'|].
      destruct (Hb2 eq_refl) as (Hinv' & Hgrow & Hblack & _).
      destruct Hblack as [Hbv Hbr]. rewrite Hbr. simpl.
      exists false, m'. split; [done|]. split; [done|]. intros _.
      split; [done|]. split; [done|]. by split.
  - exists false, cur. split; [done|]. split; [done|]. intros _.
    split; [done|]. split; [apply grows_refl|]. intros ? ?.
    exfalso. by apply Hcond.
Qed.

(** The loop over [enumerate(self.thread_locks)] for one resource. *)
Lemma holders_ok k recur m t cur resource :
  recur_ok d k recur →
  (∀ g, gray m g → rtc (lock_edge d) g t) →
  (t < length (rec_stack m))%nat →
  on_stack d m t cur →
  (count_false (visited cur) ≤ k)%nat →
  waits_on d t resource →
  ∃ b cur',
    for_until (holder_step recur t resource) (enumerate (thread_locks d)) cur
    = Some (b, cur')
    ∧ (b = true → has_cycle (lock_edge d))
    ∧ (b = false →
         dfs_inv d cur' ∧ grows cur cur'
         ∧ ∀ o, o ≠ t → thread_locks d !! o = Some (Some resource) →
                black cur' o).
Proof.
  intros Hrec Hgray Ht Hstack Hcount Hwait.
  destruct (for_until_rule (holder_step recur t resource)
    (λ pre c, dfs_inv d c ∧ grows cur c
       ∧ ∀ o ores, (o, ores) ∈ pre → o ≠ t → ores = Some resource →
                   black c o)
    (λ _, has_cycle (lock_edge d))
    (enumerate (thread_locks d)) cur) as (b & cur' & Hrun & HR & HP).
  - split; [apply Hstack|]. split; [apply grows_refl|].
    intros o ores Hin. by apply elem_of_nil in Hin.
  - intros pre [o ores] post c Heq (Hinv & Hgrow & Hdone).
    assert (thread_locks d !! o = Some ores) as Hitem.
    { assert ((o, ores) ∈ enumerate (thread_locks d)) as Hin.
      { rewrite Heq. apply elem_of_app. right. left. }
      apply elem_of_lookup_imap in Hin as (i & y & Hpair & Hi).
      by simplify_eq. }
    destruct (holder_step_ok k recur m t c resource o ores)
      as (b & c' & Hstep & Hb1 & Hb2); try done.
    { by eapply on_stack_grows. }
    { destruct Hgrow as (_ & _ & _ & ?). lia. }
    exists b, c'. split; [done|]. split; [done|]. intros ->.
    destruct (Hb2 eq_refl) as (Hinv' & Hgrow' & Hnew).
    split; [done|]. split; [by eapply grows_trans|].
    intros o' ores' Hin Hne Hres.
    apply elem_of_app in Hin as [Hin|Hin].
    + eapply black_grows; [done|]. by eapply Hdone.
    + apply list_elem_of_singleton in Hin. simplify_eq. by apply Hnew.
  - exists b, cur'. split; [done|]. split; [done|]. intros ->.
    destruct (HP eq_refl) as (Hinv & Hgrow & Hdone).
    split; [done|]. split; [done|]. intros o Hne Ho.
    apply (Hdone o (Some resource)); [|done..].
    by apply (elem_of_lookup_imap_2 pair).
Qed.

End traversal.

Section traversal_order.

(** Whatever the order of iteration, it goes through the elements of the
    set. *)
Variable set_order : gset nat → list nat.
Hypothesis set_order_spec : ∀ X r, r ∈ set_order X ↔ r ∈ X.

Variable d : DeadlockDetector.
Hypothesis Hwf : wf d.

(** The loop over the waiting set of thread [t]. *)
Lemma resources_ok k recur m t w cur :
  recur_ok d k recur →
  (∀ g, gray m g → rtc (lock_edge d) g t) →
  (t < length (rec_stack m))%nat →
  on_stack d m t cur →
  (count_false (visited cur) ≤ k)%nat →
  waiting_threads d !! t = Some w →
  ∃ b cur',
    for_until (λ resource,
        for_until (holder_step recur t resource)
          (enumerate (thread_locks d)))
      (set_order w) cur = Some (b, cur')
    ∧ (b = true → has_cycle (lock_edge d))
    ∧ (b = false →
         dfs_inv d cur' ∧ grows cur cur'
         ∧ ∀ c, lock_edge d t c → black cur' c).
Proof.
  intros Hrec Hgray Ht Hstack Hcount Hw.
  destruct (for_until_rule
    (λ resource,
       for_until (holder_step recur t resource) (enumerate (thread_locks d)))
    (λ pre c, dfs_inv d c ∧ grows cur c
       ∧ ∀ r o, r ∈ pre → o ≠ t →
                thread_locks d !! o = Some (Some r) → black c o)
    (λ _, has_cycle (lock_edge d))
    (set_order w) cur) as (b & cur' & Hrun & HR & HP).
  - split; [apply Hstack|]. split; [apply grows_refl|].
    intros r o Hin. by apply elem_of_nil in Hin.
  - intros pre resource post c Heq (Hinv & Hgrow & Hdone).
    assert (waits_on d t resource) as Hwait.
    { exists w. split; [done|]. apply set_order_spec. rewrite Heq.
      apply elem_of_app. right. left. }
    destruct (holders_ok d Hwf k recur m t c resource)
      as (b & c' & Hloop & Hb1 & Hb2); try done.
    { by eapply on_stack_grows. }
    { destruct Hgrow as (_ & _ & _ & ?). lia. }
    exists b, c'. split; [done|]. split; [done|]. intros ->.
    destruct (Hb2 eq_refl) as (Hinv' & Hgrow' & Hnew).
    split; [done|]. split; [by eapply grows_trans|].
    intros r o Hin Hne Ho. apply elem_of_app in Hin as [Hin|Hin].
    + eapply black_grows; [done|]. by eapply Hdone.
    + apply list_elem_of_singleton in Hin. subst r. by apply Hnew.
  - exists b, cur'. split; [done|]. split; [done|]. intros ->.
    destruct (HP eq_refl) as (Hinv & Hgrow & Hdone).
    split; [done|]. split; [done|].
    intros c (Hne & r & (w' & Hw' & Hr) & Hc).
    rewrite Hw in Hw'. simplify_eq.
    apply (Hdone r c); [by apply set_order_spec|done|done].
Qed.

Lemma black_reach cur x y :
  (∀ b c, black cur b → lock_edge d b c → black cur c) →
  black cur x → rtc (lock_edge d) x y → black cur y.
Proof.
  intros Hclosed Hx Hxy. induction Hxy as [|x y z Hxy _ IH]; [done|].
  apply IH. by eapply Hclosed.
Qed.

(** The body of [is_deadlock], given what its recursive calls do. *)
Lemma is_deadlock_body_ok k recur :
  recur_ok d k recur →
  recur_ok d (S k) (λ t m, is_deadlock_body set_order recur d t m).
Proof.
  intros Hrec t m Hinv Hwhite Hgray Hcount.
  pose proof Hinv as ((Hlv & Hlr & Hgv) & Hclosed & Hacyc).
  pose proof (white_lt d m t Hinv Hwhite) as Ht.
  assert (rec_stack m !! t = Some false) as Hrt.
  { destruct (lookup_lt_is_Some_2 (rec_stack m) t) as [[] Hx]; [lia| |done].
    apply Hgv in Hx. unfold white in Hwhite. congruence. }
  destruct (proj2 (proj2 Hwf t)) as [w Hw]; [done|].
  unfold is_deadlock_body. rewrite !list_set_lt by lia. simpl.
  rewrite Hw. simpl.
  set (m1 := mkMarks (<[t:=true]> (visited m)) (<[t:=true]> (rec_stack m))).
  assert (∀ b, black m1 b ↔ black m b) as Hblack1.
  { intros b. unfold black, m1. simpl.
    destruct (decide (b = t)) as [->|Hne].
    - rewrite !list_lookup_insert_eq by lia. unfold white in Hwhite.
      split; intros [? ?]; congruence.
    - by rewrite !list_lookup_insert_ne. }
  assert (on_stack d m t m1) as Hstack.
  { split; [|split; [done|]].
    - split; [|split].
      + split; [simpl; by rewrite length_insert|].
        split; [simpl; by rewrite length_insert|].
        intros i Hi. unfold gray in Hi. simpl in *.
        destruct (decide (i = t)) as [->|Hne];
          [apply list_lookup_insert_eq; lia|].
        rewrite list_lookup_insert_ne in Hi by done.
        rewrite list_lookup_insert_ne by done. by apply Hgv.
      + intros b c Hb Hbc. apply Hblack1. eapply Hclosed; [|done].
        by apply Hblack1.
      + intros b Hb. apply Hacyc. by apply Hblack1.
    - simpl. apply list_lookup_insert_eq. lia. }
  assert (count_false (visited m) = S (count_false (visited m1))) as Hc1
    by (by apply count_false_insert).
  destruct (resources_ok k recur m t w m1)
    as (b & cur & -> & Hb1 & Hb2); try done; [lia..|].
  destruct b; [by exists true, cur|].
  destruct (Hb2 eq_refl) as (Hinv' & Hgrow & Hsucc).
  pose proof (on_stack_grows d m t m1 cur Hstack Hinv' Hgrow)
    as (_ & Hrs & Hvt).
  pose proof Hinv' as ((Hlv' & Hlr' & Hgv') & Hclosed' & Hacyc').
  rewrite list_set_lt by lia. simpl.
  eexists false, _. split; [done|]. split; [done|]. intros _.
  assert (<[t:=false]> (rec_stack cur) = rec_stack m) as ->.
  { rewrite Hrs, list_insert_insert_eq. by apply list_insert_id. }
  set (m' := mkMarks (visited cur) (rec_stack m)).
  assert (black m' t) as Hbt by (by split).
  assert (∀ b, b ≠ t → black m' b ↔ black cur b) as Hsame.
  { intros b Hne. unfold black, m'. simpl. rewrite Hrs.
    by rewrite list_lookup_insert_ne. }
  assert (∀ b, black cur b → black m' b) as Hkeep.
  { intros b Hb. destruct (decide (b = t)) as [->|Hne]; [done|].
    by apply Hsame. }
  split; [|split; [|split]].
  - split; [|split].
    + split; [done|]. split; [done|]. intros i Hi. unfold gray in Hi.
      simpl in *. apply Hgv'. unfold gray. rewrite Hrs.
      destruct (decide (i = t)) as [->|Hne]; [congruence|].
      by rewrite list_lookup_insert_ne.
    + intros b c Hb Hbc. apply Hkeep.
      destruct (decide (b = t)) as [->|Hne]; [by apply Hsucc|].
      eapply Hclosed'; [|done]. by apply Hsame.
    + intros b Hb Hcyc. destruct (decide (b = t)) as [->|Hne].
      * apply tc_first in Hcyc as (c & Htc & Hct).
        assert (black cur t) as [_ Hbad].
        { eapply black_reach; [done| |done]. by apply Hsucc. }
        rewrite Hrs, list_lookup_insert_eq in Hbad by lia. done.
      * eapply Hacyc'; [|done]. by apply Hsame.
  - destruct Hgrow as (_ & Hlen & Hmono & Hcnt).
    split; [done|]. split; [simpl in *; lia|]. split.
    + intros i Hi. simpl. apply Hmono. simpl.
      destruct (decide (i = t)) as [->|Hne];
        [unfold white in Hwhite; congruence|].
      by rewrite list_lookup_insert_ne.
    + simpl in *. lia.
  - done.
  - destruct Hgrow as (_ & _ & _ & Hcnt). simpl in *. lia.
Qed.

(** The inner function returns whenever its fuel covers the unvisited
    threads. *)
Lemma is_deadlock_ok fuel : recur_ok d fuel (is_deadlock set_order fuel d).
Proof.
  induction fuel as [|fuel IH].
  - intros o m _ Hw _ Hc. apply count_false_insert in Hw. lia.
  - intros o m. apply (is_deadlock_body_ok fuel _ IH o m).
Qed.

(** [check_deadlock] returns, and it returns [True] exactly when the
    graph that follows the lock records has a cycle. *)
Lemma check_deadlock_lock_graph :
  ∃ b, check_deadlock set_order d = Some b
     ∧ (b = true ↔ has_cycle (lock_edge d)).
Proof.
  unfold check_deadlock.
  set (m0 := mkMarks (replicate (num_threads d) false)
               (replicate (num_threads d) false)).
  destruct (for_until_rule (check_step set_order d)
    (λ pre c, dfs_inv d c ∧ (∀ g, ¬ gray c g)
       ∧ ∀ i, i ∈ pre → visited c !! i = Some true)
    (λ _, has_cycle (lock_edge d))
    (range (num_threads d)) m0) as (b & cur & Hrun & HR & HP).
  - split; [|split].
    + split; [|split].
      * unfold marks_ok, m0. simpl. rewrite !length_replicate.
        split; [done|]. split; [done|]. intros i Hi. unfold gray in Hi.
        simpl in Hi. by apply lookup_replicate in Hi as [? _].
      * intros b c [Hb _]. simpl in Hb.
        by apply lookup_replicate in Hb as [? _].
      * intros b [Hb _]. simpl in Hb.
        by apply lookup_replicate in Hb as [? _].
    + intros g Hg. unfold gray in Hg. simpl in Hg.
      by apply lookup_replicate in Hg as [? _].
    + intros i Hi. by apply elem_of_nil in Hi.
  - intros pre t post c Heq (Hinv & Hnogray & Hdone).
    apply range_split in Heq as [Ht _].
    pose proof Hinv as ((Hlv & Hlr & Hgv) & _).
    destruct (lookup_lt_is_Some_2 (visited c) t) as [vt Hvt]; [lia|].
    unfold check_step. rewrite Hvt. simpl. destruct vt; simpl.
    + exists false, c. split; [done|]. split; [done|]. intros _.
      split; [done|]. split; [done|]. intros i Hi.
      apply elem_of_app in Hi as [Hi|Hi]; [by apply Hdone|].
      apply list_elem_of_singleton in Hi. by subst.
    + destruct (is_deadlock_ok (num_threads d) t c)
        as (b & c' & -> & Hb1 & Hb2); try done.
      { intros g Hg. by apply Hnogray in Hg. }
      { rewrite <- Hlv. apply count_false_le. }
      exists b, c'. split; [done|]. split; [done|]. intros ->.
      destruct (Hb2 eq_refl) as (Hinv' & Hgrow & [Hbt _] & _).
      split; [done|]. split.
      * intros g Hg. apply (Hnogray g). unfold gray in *.
        destruct Hgrow as (<- & _). done.
      * intros i Hi. apply elem_of_app in Hi as [Hi|Hi].
        -- destruct Hgrow as (_ & _ & Hmono & _). by apply Hmono, Hdone.
        -- apply list_elem_of_singleton in Hi. by subst.
  - rewrite Hrun. simpl. exists b. split; [done|]. split; [done|].
    intros (a & Hcyc). destruct b; [done|]. exfalso.
    destruct (HP eq_refl) as (((Hlv & Hlr & Hgv) & _ & Hacyc) & Hnogray & Hdone).
    apply (Hacyc a); [|done].
    pose proof Hcyc as Hcyc'.
    apply tc_first in Hcyc' as (c & Hac & _).
    apply (lock_edge_lt d Hwf) in Hac.
    split; [apply Hdone, elem_of_seq; lia|].
    destruct (lookup_lt_is_Some_2 (rec_stack cur) a) as [[] Hx]; [lia| |done].
    by apply Hnogray in Hx.
Qed.

End traversal_order.

(** *** [check_deadlock] and the wait-for graph *)

Lemma wf_by_dom d :
  length (thread_locks d) = num_threads d →
  dom (waiting_threads d) = set_seq 0 (num_threads d) →
  wf d.
Proof.
  intros Hlen Hdom. split; [done|]. intros t.
  rewrite <- elem_of_dom, Hdom, elem_of_set_seq. lia.
Qed.

Lemma wf_scenarioB : wf scenarioB.
Proof. apply wf_by_dom; [done|]. vm_compute. reflexivity. Qed.

Lemma wf_two_held : wf two_held.
Proof. apply wf_by_dom; [done|]. vm_compute. reflexivity. Qed.

Lemma wf_diamond : wf diamond.
Proof. apply wf_by_dom; [done|]. vm_compute. reflexivity. Qed.

Lemma consistent_scenarioB : consistent scenarioB.
Proof.
  intros r b. simpl.
  destruct r as [|[|r]], b as [|[|b]]; simpl; split; intros ?;
    by simplify_eq.
Qed.

Lemma waits_on_lookup d a r w :
  waiting_threads d !! a = Some w → r ∈ w → waits_on d a r.
Proof. intros. by exists w. Qed.

Lemma lock_cycle_scenarioB : has_cycle (lock_edge scenarioB).
Proof.
  exists 0%nat. apply (tc_l _ _ 1%nat); [|apply tc_once].
  - split; [done|]. exists 1%nat. split; [|done].
    apply (waits_on_lookup _ _ _ {[ 1%nat ]}); [done|set_solver].
  - split; [done|]. exists 0%nat. split; [|done].
    apply (waits_on_lookup _ _ _ {[ 0%nat ]}); [done|set_solver].
Qed.

Lemma held_cycle_two_held : has_cycle (held_edge two_held).
Proof.
  exists 0%nat. apply (tc_l _ _ 1%nat); [|apply tc_once].
  - split; [done|]. exists 2%nat. split; [|done].
    apply (waits_on_lookup _ _ _ {[ 2%nat ]}); [done|set_solver].
  - split; [done|]. exists 0%nat. split; [|done].
    apply (waits_on_lookup _ _ _ {[ 0%nat ]}); [done|set_solver].
Qed.

(** [__init__] establishes the shape and both methods keep it. *)
Lemma detector_init_wf nr nt : wf (init nr nt).
Proof.
  split; simpl; [apply length_replicate|]. intros t.
  rewrite <- elem_of_dom, dom_list_to_map_L, <- list_fmap_compose.
  rewrite elem_of_list_to_set, list_elem_of_fmap. unfold range. split.
  - intros (i & -> & Hi). apply elem_of_seq in Hi. simpl. lia.
  - intros Ht. exists t. split; [done|]. apply elem_of_seq. lia.
Qed.

Lemma wf_exec c d d' : wf d → exec c d = Some d' → wf d'.
Proof.
  intros [Hlen Hdom] Hexec. destruct c as [t r|t r]; simpl in Hexec.
  - unfold request_resource in Hexec.
    destruct (resource_status d !! r) as [[o|]|]; simpl in Hexec; [| |done].
    + destruct (waiting_threads d !! t) as [w|] eqn:Hw; simpl in Hexec;
        [|done].
      simplify_eq. split; [done|]. simpl. intros t'.
      rewrite lookup_insert_is_Some, <- Hdom.
      split; [intros [<-|[_ ?]]; [by exists w|done]|].
      intros ?. destruct (decide (t = t')); auto.
    + destruct (list_set r _ _) as [rs|]; simpl in Hexec; [|done].
      destruct (list_set t _ _) as [tl|] eqn:Htl; simpl in Hexec; [|done].
      apply list_set_Some in Htl as [? ->]. simplify_eq.
      split; [simpl; by rewrite length_insert|done].
  - unfold release_resource in Hexec.
    destruct (thread_locks d !! t) as [l|]; simpl in Hexec; [|done].
    case_decide; [|simplify_eq; by split].
    destruct (list_set r _ _) as [rs|]; simpl in Hexec; [|done].
    destruct (list_set t _ _) as [tl|] eqn:Htl; simpl in Hexec; [|done].
    apply list_set_Some in Htl as [? ->]. simplify_eq.
    split; [simpl; by rewrite length_insert|done].
Qed.

(** When the held map and the lock records agree, the two graphs are the
    same. *)
Lemma held_edge_lock_edge d a b :
  consistent d → held_edge d a b ↔ lock_edge d a b.
Proof.
  intros Hcons. unfold held_edge, lock_edge.
  split; intros (Hne & r & Hw & Hr); (split; [done|]); exists r;
    (split; [done|]); by apply Hcons.
Qed.

Lemma has_cycle_consistent d :
  consistent d → has_cycle (held_edge d) ↔ has_cycle (lock_edge d).
Proof.
  intros Hcons.
  split; intros (a & Ha); exists a; (eapply tc_subrel; [|exact Ha]);
    intros x y Hxy; by apply (held_edge_lock_edge d x y Hcons).
Qed.

(** X19. Where [check_deadlock] is right about the held map: whatever
    the order in which the waiting sets are gone through, on every
    well-formed state in which the held map and the lock records agree
    ([resource_status[r]] is [b] exactly when [thread_locks[b]] is [r],
    so that no thread holds two resources), [check_deadlock] returns, and
    it returns [True] exactly when the wait-for graph derived from the
    held map and the waiting sets has a cycle and [False] exactly when it
    has none: a thread reached again after it has been fully explored is
    not taken for a cycle. *)
Theorem check_deadlock_iff_cycle (set_order : gset nat → list nat) d :
  (∀ X r, r ∈ set_order X ↔ r ∈ X) →
  wf d → consistent d →
  is_Some (check_deadlock set_order d)
  ∧ (check_deadlock set_order d = Some true ↔ has_cycle (held_edge d))
  ∧ (check_deadlock set_order d = Some false ↔ ¬ has_cycle (held_edge d)).
Proof.
  intros Horder Hwf Hcons.
  destruct (check_deadlock_lock_graph set_order Horder d Hwf)
    as (b & Hb & Hiff).
  rewrite (has_cycle_consistent d Hcons), Hb.
  split; [done|]. split.
  - rewrite <- Hiff. split; [by intros [= ->]|by intros ->].
  - rewrite <- Hiff. split; [by intros [= ->]|].
    intros Hnot. by destruct b.
Qed.

Lemma check_deadlock_iff_cycle_witness :
  (∀ (X : gset nat) r, r ∈ elements X ↔ r ∈ X)
  ∧ wf scenarioB ∧ consistent scenarioB
  ∧ is_Some (check_deadlock elements scenarioB)
  ∧ (check_deadlock elements scenarioB = Some true
     ↔ has_cycle (held_edge scenarioB))
  ∧ (check_deadlock elements scenarioB = Some false
     ↔ ¬ has_cycle (held_edge scenarioB)).
Proof.
  split; [intros X r; apply elem_of_elements|].
  split; [apply wf_scenarioB|]. split; [apply consistent_scenarioB|].
  apply (check_deadlock_iff_cycle elements scenarioB);
    [intros X r; apply elem_of_elements
    | apply wf_scenarioB | apply consistent_scenarioB].
Defined.

(** C4.  [check_deadlock] misses a deadlock.  The state [two_held] is
    reached from [DeadlockDetector(3, 2)] by five calls of
    [request_resource]; in it thread 0 waits for resource 2, which
    [resource_status] gives to thread 1, and thread 1 waits for resource
    0, which [resource_status] gives to thread 0: a cycle of the wait-for
    graph.  [check_deadlock] returns [False]: it looks the holder of a
    resource up in [thread_locks], where [request_resource] has replaced
    the record of thread 0 by its second resource, and not in
    [resource_status], where [request_resource] keeps every holder.  On
    scenario B, where no thread holds two resources, it returns
    [True]. *)
Theorem check_deadlock_misses_held_cycle :
  run [Request 0 0; Request 0 1; Request 1 2; Request 1 0; Request 0 2]
    (init 3 2) = Some two_held
  ∧ has_cycle (held_edge two_held)
  ∧ check_deadlock elements two_held = Some false
  ∧ check_deadlock elements scenarioB = Some true.
Proof.
  split; [vm_compute; reflexivity|]. split; [apply held_cycle_two_held|].
  split; vm_compute; reflexivity.
Qed.

(** A thread reached three times, no cycle: [False]. *)
Lemma check_deadlock_diamond : check_deadlock elements diamond = Some false.
Proof. vm_compute. reflexivity. Qed.

End DetectorFacts.

(** ** bankeralgodeadlock.py: further properties *)

Module BankerMore.
Import Banker BankerFacts.

(** *** Safe orders *)

Lemma wf_cell_allocation s i c :
  wf s → (i < num_threads s)%nat → (c < num_resources s)%nat →
  ∃ al a, row s (allocation s) i = Some al ∧ al !! c = Some a
        ∧ cell s (allocation s) i c = Some a.
Proof.
  intros Hwf Hi Hc.
  destruct (wf_row_allocation s i Hwf Hi) as (al & Hal & Hlen).
  destruct (lookup_lt_is_Some_2 al c) as [a Ha]; [lia|].
  exists al, a. unfold cell. rewrite Hal. done.
Qed.

Lemma wf_cell_need s i c :
  wf s → (i < num_threads s)%nat → (c < num_resources s)%nat →
  ∃ nd n, row s (need s) i = Some nd ∧ nd !! c = Some n
        ∧ cell s (need s) i c = Some n.
Proof.
  intros Hwf Hi Hc.
  destruct (wf_row_need s i Hwf Hi) as (nd & Hnd & Hlen).
  destruct (lookup_lt_is_Some_2 nd c) as [n Hn]; [lia|].
  exists nd, n. unfold cell. rewrite Hnd. done.
Qed.

Lemma bump_add_lookup al n W c w a :
  (c < n)%nat → W !! c = Some w → al !! c = Some a →
  bump Z.add al n W !! c = Some (w + a).
Proof.
  intros Hc Hw Ha. rewrite bump_lookup, Hw. simpl.
  case_decide; [|lia]. by rewrite Ha.
Qed.

(** What is free after the threads of [l] have finished. *)
Lemma work_after_lookup s l : ∀ W c w,
  wf s → (∀ i, i ∈ l → (i < num_threads s)%nat) →
  (c < num_resources s)%nat → W !! c = Some w →
  work_after s W l !! c = Some (w + gain s c l).
Proof.
  induction l as [|i l IH]; intros W c w Hwf Hl Hc Hw; simpl.
  - rewrite Hw. f_equal. lia.
  - destruct (wf_cell_allocation s i c Hwf) as (al & a & Hal & Ha & Hcell);
      [apply Hl; left|done|].
    rewrite Hal, Hcell. simpl.
    rewrite (IH _ c (w + a)); try done.
    + f_equal. lia.
    + intros j Hj. apply Hl. by right.
    + by apply bump_add_lookup.
Qed.

Lemma work_after_snoc s W l i al :
  row s (allocation s) i = Some al →
  work_after s W (l ++ [i]) = bump Z.add al (num_resources s) (work_after s W l).
Proof.
  intros Hal. unfold work_after. rewrite foldl_app. simpl. by rewrite Hal.
Qed.

(** A safe order, position by position: the need of each thread is at
    most what was free at the start plus what its predecessors held. *)
Lemma safe_order_pointwise s sq : ∀ W,
  wf s → (∀ i, i ∈ sq → (i < num_threads s)%nat) →
  (num_resources s ≤ length W)%nat →
  safe_order s W sq
  ↔ ∀ pre j post c, sq = pre ++ j :: post → (c < num_resources s)%nat →
      ∃ n w, cell s (need s) j c = Some n ∧ W !! c = Some w
           ∧ n ≤ w + gain s c pre.
Proof.
  induction sq as [|i sq IH]; intros W Hwf Hlt HW; simpl.
  - split; [|done]. intros _ pre j post c Heq. by destruct pre.
  - assert (i < num_threads s)%nat as Hi by (apply Hlt; left).
    destruct (wf_row_allocation s i Hwf Hi) as (al & Hal & Hlal).
    assert (∀ c w, (c < num_resources s)%nat → W !! c = Some w →
              ∃ a, cell s (allocation s) i c = Some a
                 ∧ bump Z.add al (num_resources s) W !! c = Some (w + a))
      as Hstep.
    { intros c w Hc Hw. destruct (lookup_lt_is_Some_2 al c) as [a Ha]; [lia|].
      exists a. unfold cell. rewrite Hal. simpl. split; [done|].
      by apply bump_add_lookup. }
    assert (safe_order s (bump Z.add al (num_resources s) W) sq
            ↔ ∀ pre j post c, sq = pre ++ j :: post →
                (c < num_resources s)%nat →
                ∃ n w, cell s (need s) j c = Some n
                     ∧ bump Z.add al (num_resources s) W !! c = Some w
                     ∧ n ≤ w + gain s c pre) as Hrec.
    { apply IH; [done|intros j Hj; apply Hlt; by right|].
      by rewrite bump_length. }
    split.
    + intros [(nd & Hnd & Hfit) (al' & Hal' & Hso)] pre j post c Heq Hc.
      rewrite Hal in Hal'. simplify_eq.
      pose proof (proj1 Hrec Hso) as Hso'. clear Hso. rename Hso' into Hso.
      destruct pre as [|i' pre]; simpl in Heq; simplify_eq.
      * destruct (Hfit c Hc) as (n & w & Hn & Hw & Hle).
        exists n, w. unfold cell. rewrite Hnd. simpl.
        split; [done|]. split; [done|]. simpl. lia.
      * destruct (Hso pre j post c eq_refl Hc) as (n & w' & Hn & Hw' & Hle).
        destruct (lookup_lt_is_Some_2 W c) as [w Hw]; [lia|].
        destruct (Hstep c w Hc Hw) as (a & Hcell & Hb).
        rewrite Hb in Hw'. simplify_eq.
        exists n, w. split; [done|]. split; [done|]. simpl.
        rewrite Hcell. simpl. lia.
    + intros Hall. split.
      * destruct (wf_row_need s i Hwf Hi) as (nd & Hnd & Hlnd).
        exists nd. split; [done|]. intros c Hc.
        destruct (Hall [] i sq c eq_refl Hc) as (n & w & Hn & Hw & Hle).
        unfold cell in Hn. rewrite Hnd in Hn. simpl in Hn.
        exists n, w. split; [done|]. split; [done|]. simpl in Hle. lia.
      * exists al. split; [done|]. apply (proj2 Hrec).
        intros pre j post c Heq Hc.
        destruct (Hall (i :: pre) j post c) as (n & w & Hn & Hw & Hle);
          [by rewrite Heq|done|].
        destruct (Hstep c w Hc Hw) as (a & Hcell & Hb).
        exists n, (w + a). split; [done|]. split; [done|].
        simpl in Hle. rewrite Hcell in Hle. simpl in Hle. lia.
Qed.

Lemma safety_run_safe_order s work sq0 res :
  safety_run s work sq0 res → res.1 = true →
  ∃ rest, res.2 = sq0 ++ rest ∧ safe_order s work rest.
Proof.
  induction 1 as [work sq Hall|work sq Hex Hnone
                 |work sq i al res Hc Hlow Hal _ IH]; intros Htrue.
  - exists []. by rewrite app_nil_r.
  - done.
  - destruct (IH Htrue) as (rest & Heq & Hso).
    exists (i :: rest). rewrite Heq, <- app_assoc. split; [done|].
    simpl. split; [apply Hc|]. by exists al.
Qed.

Lemma is_safe_true_safe_order s sq :
  wf s → is_safe s = Some (true, sq) →
  sq ≡ₚ range (num_threads s) ∧ safe_order s (available s) sq.
Proof.
  intros Hwf Hsafe.
  destruct (is_safe_loop_spec s Hwf (num_threads s) (scan0 s))
    as (res & Hres & Hrun & Hperm & _);
    [by apply scan_inv_scan0|simpl; lia|].
  unfold is_safe in Hsafe. rewrite Hres in Hsafe. simplify_eq.
  split; [by apply Hperm|].
  destruct (safety_run_safe_order _ _ _ _ Hrun eq_refl) as (rest & Heq & Hso).
  simpl in *. by subst.
Qed.

(** X9. Whenever [is_safe] returns [True], the sequence it returns is a
    safe order of all the threads: every thread is in it exactly once,
    the need of each fits in what is free at its turn, what is free being
    [available] plus the allocations of the threads before it. *)
Theorem is_safe_true_is_safe_order s sq :
  wf s → is_safe s = Some (true, sq) →
  sq ≡ₚ range (num_threads s) ∧ safe_order s (available s) sq.
Proof. apply is_safe_true_safe_order. Qed.

Lemma is_safe_true_is_safe_order_witness :
  wf small_safe ∧ is_safe small_safe = Some (true, [0; 1]%nat)
  ∧ [0; 1]%nat ≡ₚ range (num_threads small_safe)
  ∧ safe_order small_safe (available small_safe) [0; 1]%nat.
Proof.
  split; [apply wf_small_safe|]. split; [reflexivity|].
  apply (is_safe_true_is_safe_order small_safe [0; 1]%nat);
    [apply wf_small_safe|reflexivity].
Defined.

Lemma gain_app s c l1 l2 : gain s c (l1 ++ l2) = gain s c l1 + gain s c l2.
Proof. induction l1 as [|i l1 IH]; simpl; [done|]. rewrite IH. lia. Qed.

Lemma gain_perm s c l1 l2 : l1 ≡ₚ l2 → gain s c l1 = gain s c l2.
Proof.
  induction 1 as [|x l1 l2 _ IH|x y l|l1 l2 l3 _ IH1 _ IH2]; simpl;
    [done|by rewrite IH|lia|congruence].
Qed.

Lemma gain_nonneg s c l :
  wf s → allocation_nonneg s → (c < num_resources s)%nat →
  (∀ i, i ∈ l → (i < num_threads s)%nat) → 0 ≤ gain s c l.
Proof.
  intros Hwf Hpos Hc. induction l as [|i l IH]; intros Hl; simpl; [done|].
  destruct (wf_cell_allocation s i c Hwf) as (al & a & _ & _ & Hcell);
    [apply Hl; left|done|].
  rewrite Hcell. simpl.
  assert (0 ≤ a) by (eapply Hpos; [apply Hl; left|done..]).
  assert (0 ≤ gain s c l) by (apply IH; intros; apply Hl; by right). lia.
Qed.

(** The more threads have finished, the more is free. *)
Lemma gain_mono s c l1 l2 :
  wf s → allocation_nonneg s → (c < num_resources s)%nat →
  NoDup l1 → (∀ i, i ∈ l1 → i ∈ l2) →
  (∀ i, i ∈ l2 → (i < num_threads s)%nat) →
  gain s c l1 ≤ gain s c l2.
Proof.
  intros Hwf Hpos Hc Hdup Hsub Hl2.
  destruct (submseteq_Permutation l1 l2) as [k Hk];
    [by apply NoDup_submseteq|].
  rewrite (gain_perm s c l2 (l1 ++ k) Hk), gain_app.
  assert (0 ≤ gain s c k); [|lia].
  apply gain_nonneg; try done. intros i Hi. apply Hl2. rewrite Hk.
  apply elem_of_app. by right.
Qed.

Lemma first_outside (l F : list nat) :
  (∃ i, i ∈ l ∧ (i ∉ F)) →
  ∃ pre j post, l = pre ++ j :: post ∧ (j ∉ F) ∧ ∀ x, x ∈ pre → x ∈ F.
Proof.
  induction l as [|a l IH]; intros (i & Hi & Hnot).
  - by apply elem_of_nil in Hi.
  - destruct (decide (a ∈ F)) as [Ha|Ha].
    + destruct IH as (pre & j & post & -> & Hj & Hpre).
      { exists i. split; [|done].
        apply elem_of_cons in Hi as [->|Hi]; done. }
      exists (a :: pre), j, post. split; [done|]. split; [done|].
      intros x Hx. apply elem_of_cons in Hx as [->|Hx]; [done|by apply Hpre].
    + exists [], a, l. split; [done|]. split; [done|].
      intros x Hx. by apply elem_of_nil in Hx.
Qed.

(** With a safe order at hand, the procedure cannot get stuck. *)
Lemma safety_run_not_stuck s W0 order :
  wf s → allocation_nonneg s →
  (num_resources s ≤ length W0)%nat →
  order ≡ₚ range (num_threads s) → safe_order s W0 order →
  ∀ work sq0 res,
    safety_run s work sq0 res →
    work = work_after s W0 sq0 →
    (∀ i, i ∈ sq0 → (i < num_threads s)%nat) →
    res.1 = true.
Proof.
  intros Hwf Hpos HW0 Hperm Hso work sq0 res Hrun.
  assert (∀ i, i ∈ order → (i < num_threads s)%nat) as Hord.
  { intros i Hi. rewrite Hperm in Hi. apply elem_of_seq in Hi. lia. }
  assert (NoDup order) as Hdup by (rewrite Hperm; apply NoDup_seq).
  pose proof (proj1 (safe_order_pointwise s order W0 Hwf Hord HW0) Hso)
    as Hpt.
  induction Hrun as [work sq Hall|work sq Hex Hnone
                    |work sq i al res Hc Hlow Hal _ IH]; intros Hwork Hsq.
  - done.
  - exfalso. destruct Hex as (i & Hi & Hnot).
    destruct (first_outside order sq) as (pre & j & post & Heq & Hj & Hpre).
    { exists i. split; [|done]. rewrite Hperm. apply elem_of_seq. lia. }
    assert (j < num_threads s)%nat as Hjlt.
    { apply Hord. rewrite Heq. apply elem_of_app. right. left. }
    apply (Hnone j). split; [done|]. split; [done|].
    destruct (wf_row_need s j Hwf Hjlt) as (nd & Hnd & Hlnd).
    exists nd. split; [done|]. intros c Hc.
    destruct (Hpt pre j post c Heq Hc) as (n & w & Hn & Hw & Hle).
    unfold cell in Hn. rewrite Hnd in Hn. simpl in Hn.
    exists n, (w + gain s c sq). split; [done|]. split.
    + subst work. by apply work_after_lookup.
    + assert (gain s c pre ≤ gain s c sq); [|lia].
      apply gain_mono; try done.
      rewrite Heq in Hdup. by apply NoDup_app in Hdup as (? & _ & _).
  - apply IH.
    + subst work. by rewrite (work_after_snoc s W0 sq i al).
    + intros j Hj. apply elem_of_app in Hj as [Hj|Hj]; [by apply Hsq|].
      apply list_elem_of_singleton in Hj. subst. apply Hc.
Qed.

Lemma safe_state_is_safe_true s :
  wf s → allocation_nonneg s → safe_state s →
  ∃ sq, is_safe s = Some (true, sq).
Proof.
  intros Hwf Hpos (order & Hperm & Hso).
  destruct (is_safe_loop_spec s Hwf (num_threads s) (scan0 s))
    as ([b sq] & Hres & Hrun & _);
    [by apply scan_inv_scan0|simpl; lia|].
  assert (b = true) as ->.
  { apply (safety_run_not_stuck s (available s) order Hwf Hpos
             (wf_available s Hwf) Hperm Hso _ _ _ Hrun); [done|].
    intros i Hi. by apply elem_of_nil in Hi. }
  by exists sq.
Qed.

(** X10. When no thread holds a negative amount, [is_safe] returns [True]
    exactly when the state is safe, that is when some order of all the
    threads is a safe order: the scan that always takes the lowest
    candidate misses no safe state. *)
Theorem is_safe_true_iff_safe_state s :
  wf s → allocation_nonneg s →
  (∃ sq, is_safe s = Some (true, sq)) ↔ safe_state s.
Proof.
  intros Hwf Hpos. split.
  - intros (sq & Hsq). exists sq. by apply is_safe_true_safe_order.
  - by apply safe_state_is_safe_true.
Qed.

Ltac cells_concrete :=
  let i := fresh "i" in let c := fresh "c" in let x := fresh "x" in
  let Hi := fresh "Hi" in let Hc := fresh "Hc" in let Hx := fresh "Hx" in
  intros i c x Hi Hc Hx; simpl in Hi, Hc;
  do 4 (try destruct i as [|i]); try lia;
  do 4 (try destruct c as [|c]); try lia;
  vm_compute in Hx; simplify_eq; lia.

Lemma allocation_nonneg_small_safe : allocation_nonneg small_safe.
Proof. unfold allocation_nonneg. cells_concrete. Qed.

Lemma is_safe_true_iff_safe_state_witness :
  wf small_safe ∧ allocation_nonneg small_safe
  ∧ ((∃ sq, is_safe small_safe = Some (true, sq)) ↔ safe_state small_safe).
Proof.
  split; [apply wf_small_safe|]. split; [apply allocation_nonneg_small_safe|].
  apply (is_safe_true_iff_safe_state small_safe);
    [apply wf_small_safe|apply allocation_nonneg_small_safe].
Defined.

(** *** The cells after a loop of [moved] *)

Lemma cell_moved_allocation fa fl fn amounts s t la ln ra rn i c a x :
  wf s → allocation s !! t = Some la → need s !! t = Some ln →
  store s !! la = Some ra → store s !! ln = Some rn →
  (c < num_resources s)%nat → amounts !! c = Some a →
  cell s (allocation s) i c = Some x →
  cell (moved fa fl fn amounts (num_resources s) la ln ra rn s)
    (allocation s) i c
  = Some (if decide (i = t) then fl x a else x).
Proof.
  intros Hwf Hla Hln Hra Hrn Hc Ha Hx.
  pose proof (lookup_lt_Some _ _ _ Hra) as Hlla.
  pose proof (lookup_lt_Some _ _ _ Hrn) as Hlln.
  case_decide as Hit.
  - subst i. unfold cell, row in *. simpl. rewrite Hla in *. simpl in *.
    rewrite Hra in Hx. simpl in Hx.
    assert (la ≠ ln) as Hne.
    { pose proof (wf_nodup s Hwf) as Hdup.
      apply NoDup_app in Hdup as (_ & Hdisj & _). intros ->.
      eapply Hdisj; by eapply list_elem_of_lookup_2. }
    rewrite list_lookup_insert_ne by done.
    rewrite list_lookup_insert_eq by done. simpl.
    rewrite bump_lookup, Hx. simpl. case_decide; [|lia]. by rewrite Ha.
  - unfold cell in *.
    destruct (allocation s !! i) as [l|] eqn:Hl;
      [|unfold row in Hx; by rewrite Hl in Hx].
    destruct (wf_other_refs s t i la ln Hwf Hla Hln Hit) as [Hoth _].
    destruct (Hoth l Hl).
    by rewrite (moved_row_other _ _ _ _ _ _ _ _ _ _ _ _ l).
Qed.

Lemma cell_moved_need fa fl fn amounts s t la ln ra rn i c a x :
  wf s → allocation s !! t = Some la → need s !! t = Some ln →
  store s !! la = Some ra → store s !! ln = Some rn →
  (c < num_resources s)%nat → amounts !! c = Some a →
  cell s (need s) i c = Some x →
  cell (moved fa fl fn amounts (num_resources s) la ln ra rn s)
    (need s) i c
  = Some (if decide (i = t) then fn x a else x).
Proof.
  intros Hwf Hla Hln Hra Hrn Hc Ha Hx.
  pose proof (lookup_lt_Some _ _ _ Hra) as Hlla.
  pose proof (lookup_lt_Some _ _ _ Hrn) as Hlln.
  case_decide as Hit.
  - subst i. unfold cell, row in *. simpl. rewrite Hln in *. simpl in *.
    rewrite Hrn in Hx. simpl in Hx.
    rewrite list_lookup_insert_eq by (by rewrite length_insert). simpl.
    rewrite bump_lookup, Hx. simpl. case_decide; [|lia]. by rewrite Ha.
  - unfold cell in *.
    destruct (need s !! i) as [l|] eqn:Hl;
      [|unfold row in Hx; by rewrite Hl in Hx].
    destruct (wf_other_refs s t i la ln Hwf Hla Hln Hit) as [_ Hoth].
    destruct (Hoth l Hl).
    by rewrite (moved_row_other _ _ _ _ _ _ _ _ _ _ _ _ l).
Qed.

Lemma available_moved fa fl fn amounts s la ln ra rn c a w :
  (c < num_resources s)%nat → amounts !! c = Some a →
  available s !! c = Some w →
  available (moved fa fl fn amounts (num_resources s) la ln ra rn s) !! c
  = Some (fa w a).
Proof.
  intros Hc Ha Hw. simpl. rewrite bump_lookup, Hw. simpl.
  case_decide; [|lia]. by rewrite Ha.
Qed.

(** *** [need = max - allocation] *)








(** X12. A request with a list of the caller's own (not [available] nor
    a row of the object) that passes both guards and is denied as unsafe:
    the call returns [False] with [available] as before the call, while
    the rows of the thread keep the request, [allocation[t]] incremented
    and [need[t]] decremented class by class (the rollback puts back
    outer lists that share the changed rows); the rows of the other
    threads are as before. *)
Theorem request_denied_unsafe_rows s t request s' :
  wf s → (t < num_threads s)%nat →
  any_gt request (λ i, cell s (need s) t i) (range (num_resources s))
    = Some false →
  any_gt request (λ i, available s !! i) (range (num_resources s))
    = Some false →
  Aliasing.request_resources t (Aliasing.Fresh request) s
  = Some (false, s') →
  ∃ al nd,
    row s (allocation s) t = Some al ∧ row s (need s) t = Some nd
    ∧ available s' = available s
    ∧ row s' (allocation s') t
      = Some (bump Z.add request (num_resources s) al)
    ∧ row s' (need s') t = Some (bump Z.sub request (num_resources s) nd)
    ∧ ∀ i, i ≠ t →
        row s' (allocation s') i = row s (allocation s) i
        ∧ row s' (need s') i = row s (need s) i.
Proof.
  intros Hwf Ht Hg1 Hg2 Hreq.
  destruct (wf_thread s t Hwf Ht)
    as (la & ln & ra & rn & Hla & Hln & Hne & Hra & Hrn & Hlra & Hlrn).
  pose proof (lookup_lt_Some _ _ _ Hra) as Hlla.
  pose proof (lookup_lt_Some _ _ _ Hrn) as Hlln.
  rewrite request_resources_fresh in Hreq.
  unfold request_resources in Hreq. rewrite Hg1, Hg2 in Hreq.
  simpl in Hreq.
  assert (num_resources s ≤ length request)%nat as Hlen.
  { apply range_covered. intros i Hi.
    destruct (any_gt_false _ _ _ Hg2 i Hi) as (r & _ & -> & _). done. }
  rewrite (allocate_loop_moved s t request la ln ra rn) in Hreq;
    try done; [|apply Hwf].
  simpl in Hreq. destruct (is_safe _) as [[[] sq]|]; simplify_eq.
  exists ra, rn. unfold row. simpl. rewrite Hla, Hln. simpl.
  split; [done|]. split; [done|]. split; [done|]. split; [|split].
  - rewrite list_lookup_insert_ne by done. by rewrite list_lookup_insert_eq.
  - rewrite list_lookup_insert_eq; [done|]. by rewrite length_insert.
  - intros i Hi.
    destruct (wf_other_refs s t i la ln Hwf Hla Hln Hi) as [Ha Hn].
    split.
    + destruct (allocation s !! i) as [l|] eqn:Hl; simpl; [|done].
      destruct (Ha l eq_refl). by rewrite !list_lookup_insert_ne.
    + destruct (need s !! i) as [l|] eqn:Hl; simpl; [|done].
      destruct (Hn l eq_refl). by rewrite !list_lookup_insert_ne.
Qed.

Lemma request_denied_unsafe_rows_witness :
  wf scenarioD ∧ (1 < num_threads scenarioD)%nat
  ∧ any_gt [1] (λ i, cell scenarioD (need scenarioD) 1 i)
      (range (num_resources scenarioD)) = Some false
  ∧ any_gt [1] (λ i, available scenarioD !! i)
      (range (num_resources scenarioD)) = Some false
  ∧ Aliasing.request_resources 1 (Aliasing.Fresh [1]) scenarioD
    = Some (false, scenarioD_denied)
  ∧ ∃ al nd,
      row scenarioD (allocation scenarioD) 1 = Some al
      ∧ row scenarioD (need scenarioD) 1 = Some nd
      ∧ available scenarioD_denied = available scenarioD
      ∧ row scenarioD_denied (allocation scenarioD_denied) 1
        = Some (bump Z.add [1] (num_resources scenarioD) al)
      ∧ row scenarioD_denied (need scenarioD_denied) 1
        = Some (bump Z.sub [1] (num_resources scenarioD) nd)
      ∧ ∀ i, i ≠ 1%nat →
          row scenarioD_denied (allocation scenarioD_denied) i
          = row scenarioD (allocation scenarioD) i
          ∧ row scenarioD_denied (need scenarioD_denied) i
            = row scenarioD (need scenarioD) i.
Proof.
  assert (wf scenarioD) as Hwf by wf_concrete.
  split; [exact Hwf|]. split; [simpl; lia|]. split; [reflexivity|].
  split; [reflexivity|]. split; [reflexivity|].
  apply (request_denied_unsafe_rows scenarioD 1 [1] scenarioD_denied);
    [exact Hwf | simpl; lia | reflexivity | reflexivity | reflexivity].
Defined.

(** *** Releasing keeps a safe state safe *)

Lemma gain_moved_release amounts s t la ln ra rn c a pre :
  wf s → allocation s !! t = Some la → need s !! t = Some ln →
  store s !! la = Some ra → store s !! ln = Some rn →
  (c < num_resources s)%nat → amounts !! c = Some a →
  NoDup pre → (∀ i, i ∈ pre → (i < num_threads s)%nat) →
  gain (moved Z.add Z.sub Z.add amounts (num_resources s) la ln ra rn s)
    c pre
  = gain s c pre - (if decide (t ∈ pre) then a else 0).
Proof.
  intros Hwf Hla Hln Hra Hrn Hc Ha.
  induction pre as [|i pre IH]; intros Hdup Hlt.
  - destruct (decide (t ∈ [])) as [Hin|_]; [by apply elem_of_nil in Hin|].
    unfold gain. simpl. lia.
  - apply NoDup_cons in Hdup as [Hi Hdup].
    destruct (wf_cell_allocation s i c Hwf) as (al & x & _ & _ & Hx);
      [apply Hlt; left|done|].
    unfold gain in *. simpl foldr.
    change (allocation (moved Z.add Z.sub Z.add amounts (num_resources s)
                          la ln ra rn s)) with (allocation s) in *.
    rewrite (cell_moved_allocation _ _ _ _ _ t _ _ _ _ i c a x) by done.
    rewrite Hx. simpl default.
    rewrite IH; [|done|intros j Hj; apply Hlt; by right].
    destruct (decide (i = t)) as [->|Hit].
    + destruct (decide (t ∈ pre)) as [?|_]; [done|].
      destruct (decide (t ∈ t :: pre)) as [_|Hn]; [lia|].
      exfalso. apply Hn. left.
    + destruct (decide (t ∈ pre)) as [Hin|Hin].
      * destruct (decide (t ∈ i :: pre)) as [_|Hn]; [lia|].
        exfalso. apply Hn. by right.
      * destruct (decide (t ∈ i :: pre)) as [Hin'|_]; [|lia].
        apply elem_of_cons in Hin' as [->|?]; done.
Qed.

Lemma release_keeps_safe_state s t amounts s' :
  wf s → (t < num_threads s)%nat →
  (num_resources s ≤ length amounts)%nat →
  allocation_nonneg s →
  (∀ c a x, (c < num_resources s)%nat → amounts !! c = Some a →
            cell s (allocation s) t c = Some x → 0 ≤ a ≤ x) →
  safe_state s →
  release_resources t amounts s = Some s' →
  wf s' ∧ allocation_nonneg s' ∧ safe_state s'.
Proof.
  intros Hwf Ht Hlen Hpos Hamt (order & Hperm & Hso) Hrel.
  destruct (wf_thread s t Hwf Ht)
    as (la & ln & ra & rn & Hla & Hln & Hne & Hra & Hrn & Hlra & Hlrn).
  rewrite (release_resources_moved s t amounts la ln ra rn) in Hrel;
    try done; [|apply Hwf].
  simplify_eq.
  set (s' := moved Z.add Z.sub Z.add amounts (num_resources s)
               la ln ra rn s).
  assert (wf s') as Hwf' by (by apply wf_moved).
  assert (∀ i, i ∈ order → (i < num_threads s)%nat) as Hord.
  { intros i Hi. rewrite Hperm in Hi. apply elem_of_seq in Hi. lia. }
  assert (NoDup order) as Hdup by (rewrite Hperm; apply NoDup_seq).
  split; [done|]. split.
  - intros i c x' Hi Hc Hx'. simpl in Hi, Hc.
    destruct (wf_cell_allocation s i c Hwf Hi Hc) as (al & x & _ & _ & Hx).
    destruct (lookup_lt_is_Some_2 amounts c) as [a Ha]; [lia|].
    change (allocation s') with (allocation s) in Hx'. unfold s' in Hx'.
    rewrite (cell_moved_allocation _ _ _ _ _ t _ _ _ _ i c a x) in Hx'
      by done.
    simplify_eq. case_decide as Hit.
    + subst i. specialize (Hamt c a x Hc Ha Hx). lia.
    + by eapply Hpos.
  - exists order. split; [done|].
    apply (proj2 (safe_order_pointwise s' order (available s') Hwf' Hord
                    (wf_available s' Hwf'))).
    intros pre j post c Heq Hc. simpl in Hc.
    destruct (proj1 (safe_order_pointwise s order (available s) Hwf Hord
                       (wf_available s Hwf)) Hso pre j post c Heq Hc)
      as (n & w & Hn & Hw & Hle).
    destruct (lookup_lt_is_Some_2 amounts c) as [a Ha]; [lia|].
    destruct (wf_cell_allocation s t c Hwf Ht Hc) as (al & x & _ & _ & Hx).
    specialize (Hamt c a x Hc Ha Hx).
    rewrite Heq in Hdup.
    apply NoDup_app in Hdup as (Hdpre & Hdisj & Hdj).
    change (need s') with (need s). unfold s'.
    rewrite (cell_moved_need _ _ _ _ _ t _ _ _ _ j c a n) by done.
    rewrite (available_moved _ _ _ _ _ _ _ _ _ c a w) by done.
    rewrite (gain_moved_release amounts s t la ln ra rn c a pre);
      try done.
    2:{ intros i Hi. apply Hord. rewrite Heq. apply elem_of_app. by left. }
    eexists _, _. split; [done|]. split; [done|].
    destruct (decide (j = t)) as [->|Hjt].
    + destruct (decide (t ∈ pre)) as [Hin|_]; [|lia].
      exfalso. eapply Hdisj; [done|left].
    + destruct (decide (t ∈ pre)); lia.
Qed.

(** X13. Releasing never makes a safe state unsafe: when no thread holds
    a negative amount and thread [t] releases, with a list of the
    caller's own (not [available] nor a row of the object), amounts
    between 0 and what it holds, a state that [is_safe] accepts is
    followed by a state that [is_safe] accepts ([release_resources]
    itself checks nothing). *)
Theorem release_keeps_is_safe s t amounts s' sq :
  wf s → (t < num_threads s)%nat →
  (num_resources s ≤ length amounts)%nat →
  allocation_nonneg s →
  (∀ c a x, (c < num_resources s)%nat → amounts !! c = Some a →
            cell s (allocation s) t c = Some x → 0 ≤ a ≤ x) →
  is_safe s = Some (true, sq) →
  Aliasing.release_resources t (Aliasing.Fresh amounts) s = Some s' →
  ∃ sq', is_safe s' = Some (true, sq').
Proof.
  intros Hwf Ht Hlen Hpos Hamt Hsafe Hrel.
  rewrite release_resources_fresh in Hrel.
  destruct (release_keeps_safe_state s t amounts s' Hwf Ht Hlen Hpos Hamt)
    as (Hwf' & Hpos' & Hsafe'); [|done|].
  - exists sq. by apply is_safe_true_safe_order.
  - by apply safe_state_is_safe_true.
Qed.

Lemma wf_scenarioD : wf scenarioD.
Proof. wf_concrete. Qed.

Lemma allocation_nonneg_scenarioD : allocation_nonneg scenarioD.
Proof. unfold allocation_nonneg. cells_concrete. Qed.

Lemma release_keeps_is_safe_witness :
  wf scenarioD ∧ (0 < num_threads scenarioD)%nat
  ∧ (num_resources scenarioD ≤ length [1])%nat
  ∧ allocation_nonneg scenarioD
  ∧ (∀ c a x, (c < num_resources scenarioD)%nat → [1] !! c = Some a →
              cell scenarioD (allocation scenarioD) 0 c = Some x →
              0 ≤ a ≤ x)
  ∧ is_safe scenarioD = Some (true, [0; 1]%nat)
  ∧ Aliasing.release_resources 0 (Aliasing.Fresh [1]) scenarioD
    = Some (mkBanker 1 2 [2] [[2]; [2]] [0; 1]%nat [2; 3]%nat
              [[0]; [0]; [2]; [2]])
  ∧ ∃ sq', is_safe (mkBanker 1 2 [2] [[2]; [2]] [0; 1]%nat [2; 3]%nat
                      [[0]; [0]; [2]; [2]]) = Some (true, sq').
Proof.
  assert (∀ c a x, (c < num_resources scenarioD)%nat → [1] !! c = Some a →
            cell scenarioD (allocation scenarioD) 0 c = Some x →
            0 ≤ a ≤ x) as Hamt.
  { intros c a x Hc Ha Hx. simpl in Hc. destruct c as [|c]; [|lia].
    vm_compute in Ha, Hx. simplify_eq. lia. }
  split; [apply wf_scenarioD|]. split; [simpl; lia|].
  split; [simpl; lia|]. split; [apply allocation_nonneg_scenarioD|].
  split; [exact Hamt|]. split; [reflexivity|]. split; [reflexivity|].
  apply (release_keeps_is_safe scenarioD 0 [1] _ [0; 1]%nat);
    [apply wf_scenarioD | simpl; lia | simpl; lia
    | apply allocation_nonneg_scenarioD | exact Hamt
    | reflexivity | reflexivity].
Defined.

(** *** Calls that raise, calls that return *)

Lemma release_step_short t amounts i s :
  (length amounts ≤ i)%nat → release_step t amounts i s = None.
Proof.
  intros Hle. unfold release_step.
  destruct (available s !! i); simpl; [|done].
  by rewrite (lookup_ge_None_2 amounts i).
Qed.

Lemma release_resources_short s t amounts :
  (length amounts < num_resources s)%nat →
  release_resources t amounts s = None.
Proof.
  intros Hlt. unfold release_resources, range.
  remember (num_resources s) as n eqn:Hn. clear Hn.
  replace n with (length amounts + S (n - S (length amounts)))%nat by lia.
  rewrite seq_app, for_each_app.
  destruct (for_each _ (seq 0 (length amounts)) s) as [s1|]; [|done].
  cbn [mbind option_bind seq for_each].
  by rewrite release_step_short by lia.
Qed.

(** X14. For a thread of a well-formed object, [release_resources] raises
    exactly when the list it is given has fewer entries than there are
    resource classes. *)
Theorem release_resources_raises_iff s t amounts :
  wf s → (t < num_threads s)%nat →
  release_resources t amounts s = None
  ↔ (length amounts < num_resources s)%nat.
Proof.
  intros Hwf Ht. split; [|apply release_resources_short].
  intros Hnone.
  destruct (decide (length amounts < num_resources s)%nat) as [|Hge];
    [done|].
  destruct (wf_thread s t Hwf Ht)
    as (la & ln & ra & rn & Hla & Hln & Hne & Hra & Hrn & Hlra & Hlrn).
  rewrite (release_resources_moved s t amounts la ln ra rn) in Hnone;
    try done; [apply Hwf|lia].
Qed.

Lemma release_resources_raises_iff_witness :
  wf banker33 ∧ (0 < num_threads banker33)%nat
  ∧ (release_resources 0 [1; 0] banker33 = None
     ↔ (length [1; 0] < num_resources banker33)%nat).
Proof.
  split; [apply wf_banker33|]. split; [simpl; lia|].
  apply (release_resources_raises_iff banker33 0 [1; 0]);
    [apply wf_banker33 | simpl; lia].
Defined.

Lemma mapM_const {A B} (y : B) (l : list A) :
  mapM (λ _, Some y) l = Some (replicate (length l) y).
Proof. induction l as [|a l IH]; simpl; [done|]. by rewrite IH. Qed.

(** X15. The constructor raises exactly when both dimensions are positive
    and one of them exceeds 3, the size of the literal tables [max] and
    [allocation]. *)
Theorem init_raises_iff nr nt :
  init nr nt = None
  ↔ (0 < nr)%nat ∧ (0 < nt)%nat ∧ ((3 < nr)%nat ∨ (3 < nt)%nat).
Proof.
  split.
  - intros Hnone.
    destruct (decide (nt = 0%nat)) as [->|Hnt]; [done|].
    destruct (decide (nr = 0%nat)) as [->|Hnr].
    { unfold init, calculate_need in Hnone. simpl in Hnone.
      rewrite (mapM_ext _ (λ _, Some []) (range nt)) in Hnone by done.
      by rewrite mapM_const in Hnone. }
    destruct (decide (nr ≤ 3 ∧ nt ≤ 3)%nat) as [[H1 H2]|Hn]; [|lia].
    destruct (banker_init_wf nr nt H1 H2) as (s & Hs & _). congruence.
  - intros (Hnr & Hnt & Hbig). unfold init. cbv zeta.
    assert (calculate_need nr nt [[7; 5; 3]; [3; 2; 2]; [9; 0; 2]]
              [[0; 0; 0]; [0; 0; 0]; [0; 0; 0]] = None) as ->; [|done].
    unfold calculate_need. apply mapM_None_2, Exists_exists.
    destruct (decide (3 < nt)%nat).
    + exists 3%nat. split; [apply elem_of_seq; lia|].
      apply mapM_None_2, Exists_exists.
      exists 0%nat. split; [apply elem_of_seq; lia|done].
    + exists 0%nat. split; [apply elem_of_seq; lia|].
      apply mapM_None_2, Exists_exists.
      exists 3%nat. split; [apply elem_of_seq; lia|done].
Qed.

(** A request with an entry for every class returns, and what it returns
    has the dimensions and the table [max] of the object; a request that
    is not granted leaves [available] as it was. *)
Lemma request_resources_cases s t request :
  wf s → (t < num_threads s)%nat →
  (num_resources s ≤ length request)%nat →
  ∃ b s', request_resources t request s = Some (b, s')
    ∧ (b = false → available s' = available s)
    ∧ num_resources s' = num_resources s
    ∧ num_threads s' = num_threads s ∧ max s' = max s.
Proof.
  intros Hwf Ht Hlen.
  destruct (wf_thread s t Hwf Ht)
    as (la & ln & ra & rn & Hla & Hln & Hne & Hra & Hrn & Hlra & Hlrn).
  assert (∀ i, i ∈ range (num_resources s) → is_Some (request !! i))
    as Hreq.
  { intros i Hi. apply elem_of_seq in Hi. apply lookup_lt_is_Some_2. lia. }
  assert (∀ i, i ∈ range (num_resources s) →
               is_Some (cell s (need s) t i)) as Hcell.
  { intros i Hi. apply elem_of_seq in Hi. unfold cell, row.
    rewrite Hln. simpl. rewrite Hrn. simpl. apply lookup_lt_is_Some_2. lia. }
  assert (∀ i, i ∈ range (num_resources s) →
               is_Some (available s !! i)) as Hav.
  { intros i Hi. apply elem_of_seq in Hi. apply lookup_lt_is_Some_2.
    pose proof (wf_available s Hwf). lia. }
  unfold request_resources.
  destruct (any_gt_spec request (λ i, cell s (need s) t i)
              (range (num_resources s))) as (b1 & Hb1 & _).
  { intros i Hi. split; [by apply Hreq|by apply Hcell]. }
  rewrite Hb1. simpl. destruct b1; [by exists false, s|].
  destruct (any_gt_spec request (λ i, available s !! i)
              (range (num_resources s))) as (b2 & Hb2 & _).
  { intros i Hi. split; [by apply Hreq|by apply Hav]. }
  rewrite Hb2. simpl. destruct b2; [by exists false, s|].
  rewrite (allocate_loop_moved s t _ la ln ra rn); try done; [|apply Hwf].
  simpl.
  destruct (is_safe_returns
              (moved Z.sub Z.add Z.sub request (num_resources s)
                 la ln ra rn s)) as ([[] sq] & Hsafe);
    [by apply wf_moved| |]; rewrite Hsafe.
  - by eexists true, _.
  - by eexists false, _.
Qed.

(** *** Every run from the constructor *)






(** *** [example_thread_work] *)

Lemma release_undoes_grant s t request s1 :
  wf s → (t < num_threads s)%nat →
  request_resources t request s = Some (true, s1) →
  release_resources t request s1 = Some s.
Proof.
  intros Hwf Ht Hreq.
  destruct (request_granted_moved s t request s1 Hwf Ht Hreq)
    as (la & ln & ra & rn & Hla & Hln & Hne & Hra & Hrn & Hlra & Hlrn
        & Hlen & ->).
  pose proof (lookup_lt_Some _ _ _ Hra) as Hlla.
  pose proof (lookup_lt_Some _ _ _ Hrn) as Hlln.
  rewrite (release_resources_moved _ t request la ln
             (bump Z.add request (num_resources s) ra)
             (bump Z.sub request (num_resources s) rn)); simpl;
    try done; rewrite ?bump_length; try done; try apply Hwf.
  - f_equal. apply (moved_cancel Z.sub Z.add Z.sub Z.add Z.sub Z.add);
      try done; intros; lia.
  - rewrite list_lookup_insert_ne by done. by rewrite list_lookup_insert_eq.
  - rewrite list_lookup_insert_eq; [done|]. by rewrite length_insert.
Qed.

(** X17. [example_thread_work] on a well-formed object with at most 3
    resource classes, for a thread of the object: it returns, [available]
    is afterwards what it was before, and when the request [[1, 0, 2]] is
    granted the whole object is afterwards what it was before. *)
Theorem example_thread_work_available s t :
  wf s → (t < num_threads s)%nat → (num_resources s ≤ 3)%nat →
  ∃ s', example_thread_work t s = Some s'
      ∧ available s' = available s
      ∧ (∀ s1, request_resources t [1; 0; 2] s = Some (true, s1) →
               s' = s).
Proof.
  intros Hwf Ht Hnr.
  destruct (request_resources_cases s t [1; 0; 2] Hwf Ht)
    as (b & s1 & Hreq & Hav & _); [simpl; lia|].
  unfold example_thread_work. cbv zeta. rewrite Hreq. destruct b.
  - exists s. rewrite (release_undoes_grant s t [1; 0; 2] s1) by done.
    done.
  - exists s1. split; [done|]. split; [by apply Hav|].
    intros s2 Hs2. congruence.
Qed.

Lemma example_thread_work_available_witness :
  wf small_safe ∧ (0 < num_threads small_safe)%nat
  ∧ (num_resources small_safe ≤ 3)%nat
  ∧ ∃ s', example_thread_work 0 small_safe = Some s'
        ∧ available s' = available small_safe
        ∧ (∀ s1, request_resources 0 [1; 0; 2] small_safe
                 = Some (true, s1) → s' = small_safe).
Proof.
  split; [apply wf_small_safe|]. split; [simpl; lia|]. split; [simpl; lia|].
  apply (example_thread_work_available small_safe 0);
    [apply wf_small_safe | simpl; lia | simpl; lia].
Defined.

(** *** A call that passes one of the object's own rows *)

(** [release_resources(t, self.allocation[t])]: at class [k] the first
    two statements read the entry the thread holds, the third reads the
    entry that the second has just set to 0. *)
Lemma release_own_row_loop t s la ln ra rn k :
  allocation s !! t = Some la → need s !! t = Some ln → la ≠ ln →
  store s !! la = Some ra → store s !! ln = Some rn →
  (k ≤ length (available s))%nat → (k ≤ length ra)%nat →
  (k ≤ length rn)%nat →
  for_each (Aliasing.release_step t (Aliasing.Row la)) (seq 0 k) s
  = Some (moved Z.add Z.sub (λ y _, y) ra k la ln ra rn s).
Proof.
  intros Hla Hln Hne Hra Hrn. induction k as [|k IH]; intros Hav Hka Hkn.
  - simpl. f_equal. unfold moved. rewrite !bump_0.
    rewrite (list_insert_id _ la ra) by done.
    rewrite (list_insert_id _ ln rn) by done. by destruct s.
  - rewrite seq_S, for_each_app, IH by lia. simpl.
    destruct (lookup_lt_is_Some_2 (available s) k) as [a Ha]; [lia|].
    destruct (lookup_lt_is_Some_2 ra k) as [x Hx]; [lia|].
    destruct (lookup_lt_is_Some_2 rn k) as [y Hy]; [lia|].
    pose proof (lookup_lt_Some _ _ _ Hra) as Hlla.
    pose proof (lookup_lt_Some _ _ _ Hrn) as Hlln.
    unfold Aliasing.release_step, moved at 1 2. simpl.
    rewrite bump_lookup_ge, Ha by lia. simpl.
    rewrite list_lookup_insert_ne by done.
    rewrite list_lookup_insert_eq by done. simpl.
    rewrite bump_lookup_ge, Hx by lia. simpl.
    unfold list_set. rewrite bump_length. case_decide; [|lia]. simpl.
    unfold update_cell. simpl. rewrite Hla. simpl.
    rewrite list_lookup_insert_ne by done.
    rewrite list_lookup_insert_eq by done. simpl.
    rewrite bump_lookup_ge, Hx by lia. simpl.
    rewrite list_lookup_insert_eq by (by rewrite !length_insert). simpl.
    rewrite list_lookup_insert_eq by (rewrite bump_length; lia). simpl.
    rewrite Hln. simpl.
    rewrite list_lookup_insert_ne by done.
    rewrite list_lookup_insert_eq by (by rewrite length_insert). simpl.
    rewrite bump_lookup_ge, Hy by lia. simpl.
    unfold moved, set_store, set_available. simpl. f_equal. f_equal.
    + by apply bump_S.
    + rewrite (bump_S Z.sub ra k ra x x) by done.
      replace (y + (x - x)) with y by lia.
      rewrite (bump_S (λ y0 _, y0) ra k rn y x) by done.
      rewrite (list_insert_insert_ne _ la ln) by done.
      by rewrite !list_insert_insert_eq.
Qed.

(** X20. [release_resources(t, banker.allocation[t])], the call that
    gives back all a thread holds by passing its own allocation row: on a
    well-formed object it returns; class by class [available] has grown
    by what the thread held and the thread's allocation is 0, but its need
    is what it was, not grown by what was given back (the statement
    [need[t][i] += release[i]] reads the entry that the statement before
    it has just set to 0); the rows of the other threads are as they
    were. *)
Theorem release_own_allocation s t la :
  wf s → (t < num_threads s)%nat → allocation s !! t = Some la →
  ∃ s', Aliasing.release_resources t (Aliasing.Row la) s = Some s'
      ∧ (∀ c, (c < num_resources s)%nat →
           ∃ a x n, available s !! c = Some a
                  ∧ cell s (allocation s) t c = Some x
                  ∧ cell s (need s) t c = Some n
                  ∧ available s' !! c = Some (a + x)
                  ∧ cell s' (allocation s') t c = Some 0
                  ∧ cell s' (need s') t c = Some n)
      ∧ ∀ i, i ≠ t →
          row s' (allocation s') i = row s (allocation s) i
          ∧ row s' (need s') i = row s (need s) i.
Proof.
  intros Hwf Ht Hla'.
  destruct (wf_thread s t Hwf Ht)
    as (la0 & ln & ra & rn & Hla & Hln & Hne & Hra & Hrn & Hlra & Hlrn).
  assert (la0 = la) as -> by congruence.
  pose proof (lookup_lt_Some _ _ _ Hra) as Hlla.
  pose proof (lookup_lt_Some _ _ _ Hrn) as Hlln.
  exists (moved Z.add Z.sub (λ y _, y) ra (num_resources s) la ln ra rn s).
  split; [|split].
  - apply release_own_row_loop; try done. apply Hwf.
  - intros c Hc.
    destruct (lookup_lt_is_Some_2 (available s) c) as [a Ha];
      [pose proof (wf_available s Hwf); lia|].
    destruct (lookup_lt_is_Some_2 ra c) as [x Hx]; [lia|].
    destruct (lookup_lt_is_Some_2 rn c) as [n Hn]; [lia|].
    assert (cell s (allocation s) t c = Some x) as Hcx.
    { unfold cell, row. rewrite Hla. simpl. rewrite Hra. done. }
    assert (cell s (need s) t c = Some n) as Hcn.
    { unfold cell, row. rewrite Hln. simpl. rewrite Hrn. done. }
    exists a, x, n. repeat (split; [done|]).
    split; [by apply available_moved|].
    change (allocation (moved Z.add Z.sub (λ y _, y) ra (num_resources s)
                          la ln ra rn s)) with (allocation s).
    change (need (moved Z.add Z.sub (λ y _, y) ra (num_resources s)
                    la ln ra rn s)) with (need s).
    rewrite (cell_moved_allocation _ _ _ _ _ t _ _ _ _ t c x x) by done.
    rewrite (cell_moved_need _ _ _ _ _ t _ _ _ _ t c x n) by done.
    rewrite !decide_True by done. split; [f_equal; lia|done].
  - intros i Hi. unfold row. simpl.
    destruct (wf_other_refs s t i la ln Hwf Hla Hln Hi) as [Ha Hn].
    split.
    + destruct (allocation s !! i) as [l|] eqn:Hl; simpl; [|done].
      destruct (Ha l eq_refl). by rewrite !list_lookup_insert_ne.
    + destruct (need s !! i) as [l|] eqn:Hl; simpl; [|done].
      destruct (Hn l eq_refl). by rewrite !list_lookup_insert_ne.
Qed.

Lemma release_own_allocation_witness :
  wf scenarioD ∧ (0 < num_threads scenarioD)%nat
  ∧ allocation scenarioD !! 0%nat = Some 0%nat
  ∧ ∃ s', Aliasing.release_resources 0 (Aliasing.Row 0) scenarioD = Some s'
      ∧ (∀ c, (c < num_resources scenarioD)%nat →
           ∃ a x n, available scenarioD !! c = Some a
                  ∧ cell scenarioD (allocation scenarioD) 0 c = Some x
                  ∧ cell scenarioD (need scenarioD) 0 c = Some n
                  ∧ available s' !! c = Some (a + x)
                  ∧ cell s' (allocation s') 0 c = Some 0
                  ∧ cell s' (need s') 0 c = Some n)
      ∧ ∀ i, i ≠ 0%nat →
          row s' (allocation s') i = row scenarioD (allocation scenarioD) i
          ∧ row s' (need s') i = row scenarioD (need scenarioD) i.
Proof.
  split; [apply wf_scenarioD|]. split; [simpl; lia|]. split; [reflexivity|].
  apply (release_own_allocation scenarioD 0 0);
    [apply wf_scenarioD | simpl; lia | reflexivity].
Defined.

(** [release_resources(0, banker.available)] on [one_thread], which
    [is_safe] accepts: the amount released, 1, is within what the thread
    holds, but the second and third statement read the entry that the
    first has doubled, and [is_safe] rejects the result. *)
Lemma release_available_unsafe :
  is_safe one_thread = Some (true, [0%nat])
  ∧ ∃ s', Aliasing.release_resources 0 Aliasing.Available one_thread
          = Some s'
        ∧ ledger one_thread = ([1], Some [[2]], Some [[1]])
        ∧ ledger s' = ([2], Some [[0]], Some [[3]])
        ∧ is_safe s' = Some (false, []).
Proof.
  split; [reflexivity|]. eexists. split; [reflexivity|].
  split; [reflexivity|]. split; reflexivity.
Qed.

(** [request_resources(0, banker.available)] on [small_safe]: both
    guards pass, the loop empties [available] and gives thread 0 nothing,
    the request is denied as unsafe and the object is as before; the
    same amounts in a list of the caller's own are granted. *)
Lemma request_available_denied :
  Aliasing.request_resources 0 Aliasing.Available small_safe
  = Some (false, small_safe)
  ∧ ∃ s', Aliasing.request_resources 0 (Aliasing.Fresh [2]) small_safe
          = Some (true, s').
Proof. split; [reflexivity|]. eexists. reflexivity. Qed.

End BankerMore.

(** ** deadlockdetection.py: further properties *)

Module DetectorMore.
Import Detector DetectorFacts.

Lemma run_app cs1 cs2 d :
  run (cs1 ++ cs2) d = run cs1 d ≫= run cs2.
Proof. apply for_each_app. Qed.

Lemma wf_run cs : ∀ d d', wf d → run cs d = Some d' → wf d'.
Proof.
  induction cs as [|c cs IH]; intros d d' Hwf Hrun;
    unfold run in *; simpl in Hrun.
  - by simplify_eq.
  - destruct (exec c d) as [d1|] eqn:Hexec; simpl in Hrun; [|done].
    eapply IH; [|done]. by eapply wf_exec.
Qed.

Lemma status_length_exec c d d' :
  exec c d = Some d' →
  length (resource_status d') = length (resource_status d).
Proof.
  intros Hexec. destruct c as [t r|t r]; simpl in Hexec.
  - unfold request_resource in Hexec.
    destruct (resource_status d !! r) as [[o|]|]; simpl in Hexec; [| |done].
    + destruct (waiting_threads d !! t); simpl in Hexec; by simplify_eq.
    + destruct (list_set r _ _) as [rs|] eqn:Hrs; simpl in Hexec; [|done].
      destruct (list_set t _ _) as [tl|]; simpl in Hexec; [|done].
      apply list_set_Some in Hrs as [? ->]. simplify_eq. simpl.
      by rewrite length_insert.
  - unfold release_resource in Hexec.
    destruct (thread_locks d !! t) as [l|]; simpl in Hexec; [|done].
    case_decide; [|by simplify_eq].
    destruct (list_set r _ _) as [rs|] eqn:Hrs; simpl in Hexec; [|done].
    destruct (list_set t _ _) as [tl|]; simpl in Hexec; [|done].
    apply list_set_Some in Hrs as [? ->]. simplify_eq. simpl.
    by rewrite length_insert.
Qed.

Lemma status_length_run cs : ∀ d d',
  run cs d = Some d' →
  length (resource_status d') = length (resource_status d).
Proof.
  induction cs as [|c cs IH]; intros d d' Hrun; unfold run in *;
    simpl in Hrun.
  - by simplify_eq.
  - destruct (exec c d) as [d1|] eqn:Hexec; simpl in Hrun; [|done].
    rewrite (IH d1 d' Hrun). by eapply status_length_exec.
Qed.

Lemma dims_exec c d d' :
  exec c d = Some d' →
  num_resources d' = num_resources d ∧ num_threads d' = num_threads d.
Proof.
  intros Hexec. destruct c as [t r|t r]; simpl in Hexec.
  - unfold request_resource in Hexec.
    destruct (resource_status d !! r) as [[o|]|]; simpl in Hexec; [| |done].
    + destruct (waiting_threads d !! t); simpl in Hexec; by simplify_eq.
    + destruct (list_set r _ _) as [rs|]; simpl in Hexec; [|done].
      destruct (list_set t _ _) as [tl|]; simpl in Hexec; by simplify_eq.
  - unfold release_resource in Hexec.
    destruct (thread_locks d !! t) as [l|]; simpl in Hexec; [|done].
    case_decide; [|by simplify_eq].
    destruct (list_set r _ _) as [rs|]; simpl in Hexec; [|done].
    destruct (list_set t _ _) as [tl|]; simpl in Hexec; by simplify_eq.
Qed.

Lemma dims_run cs : ∀ d d',
  run cs d = Some d' →
  num_resources d' = num_resources d ∧ num_threads d' = num_threads d.
Proof.
  induction cs as [|c cs IH]; intros d d' Hrun; unfold run in *;
    simpl in Hrun.
  - by simplify_eq.
  - destruct (exec c d) as [d1|] eqn:Hexec; simpl in Hrun; [|done].
    destruct (IH d1 d' Hrun) as [-> ->]. by eapply dims_exec.
Qed.

(** X1. Whatever calls of [request_resource] and [release_resource],
    with thread and resource identifiers counted from 0, are made on a
    new [DeadlockDetector(nr, nt)], as long as none raises: the object
    keeps its dimensions and its shape ([nt] lock records, [nr] statuses,
    a waiting set for exactly the threads below [nt]), every lock record
    names a resource that [resource_status] gives to that very thread,
    and no two threads have the same lock record. *)
Theorem reachable_state_sound nr nt cs d :
  run cs (init nr nt) = Some d →
  wf d
  ∧ num_resources d = nr ∧ num_threads d = nt
  ∧ length (resource_status d) = nr
  ∧ length (thread_locks d) = nt
  ∧ (∀ t, is_Some (waiting_threads d !! t) ↔ (t < nt)%nat)
  ∧ lock_sound d
  ∧ ∀ a b r, thread_locks d !! a = Some (Some r) →
             thread_locks d !! b = Some (Some r) → a = b.
Proof.
  intros Hrun.
  assert (lock_sound d) as Hsound.
  { eapply lock_sound_run; [apply (lock_sound_init nr nt)|done]. }
  assert (wf d) as Hwf by (by eapply wf_run; [apply detector_init_wf|]).
  destruct (dims_run cs _ _ Hrun) as [Hnr Hnt]. simpl in Hnr, Hnt.
  split; [done|]. split; [done|]. split; [done|].
  split.
  { rewrite (status_length_run cs _ _ Hrun). simpl. apply length_replicate. }
  destruct Hwf as [Hlen Hdom].
  split; [by rewrite Hlen|]. split; [by rewrite <- Hnt|].
  split; [done|]. intros a b r Ha Hb.
  apply Hsound in Ha. apply Hsound in Hb. congruence.
Qed.

Lemma reachable_state_sound_witness :
  run [Request 0 0; Request 1 1; Request 0 1; Request 1 0] (init 2 2)
  = Some scenarioB
  ∧ wf scenarioB
  ∧ num_resources scenarioB = 2%nat ∧ num_threads scenarioB = 2%nat
  ∧ length (resource_status scenarioB) = 2%nat
  ∧ length (thread_locks scenarioB) = 2%nat
  ∧ (∀ t, is_Some (waiting_threads scenarioB !! t) ↔ (t < 2)%nat)
  ∧ lock_sound scenarioB
  ∧ ∀ a b r, thread_locks scenarioB !! a = Some (Some r) →
             thread_locks scenarioB !! b = Some (Some r) → a = b.
Proof.
  split; [apply scenarioB_reached|].
  apply (reachable_state_sound 2 2
           [Request 0 0; Request 1 1; Request 0 1; Request 1 0] scenarioB).
  apply scenarioB_reached.
Defined.

Lemma waits_on_exec c d d' a r :
  exec c d = Some d' → waits_on d a r → waits_on d' a r.
Proof.
  intros Hexec (w & Hw & Hr). destruct c as [t r'|t r']; simpl in Hexec.
  - unfold request_resource in Hexec.
    destruct (resource_status d !! r') as [[o|]|]; simpl in Hexec; [| |done].
    + destruct (waiting_threads d !! t) as [w'|] eqn:Hw'; simpl in Hexec;
        [|done].
      simplify_eq. unfold waits_on. simpl.
      destruct (decide (t = a)) as [->|Hne].
      * rewrite lookup_insert_eq. eexists. split; [done|].
        simplify_eq. set_solver.
      * rewrite lookup_insert_ne by done. by exists w.
    + destruct (list_set r' _ _) as [rs|]; simpl in Hexec; [|done].
      destruct (list_set t _ _) as [tl|]; simpl in Hexec; [|done].
      simplify_eq. by exists w.
  - unfold release_resource in Hexec.
    destruct (thread_locks d !! t) as [l|]; simpl in Hexec; [|done].
    case_decide; [|simplify_eq; by exists w].
    destruct (list_set r' _ _) as [rs|]; simpl in Hexec; [|done].
    destruct (list_set t _ _) as [tl|]; simpl in Hexec; [|done].
    simplify_eq. by exists w.
Qed.

(** X2. No sequence of calls ever takes a resource out of a waiting set:
    a thread that has once been recorded as waiting for a resource is
    recorded so for ever, also after the resource has been released or
    the thread has acquired it. *)
Theorem waiting_never_removed cs : ∀ d d' a r,
  run cs d = Some d' → waits_on d a r → waits_on d' a r.
Proof.
  induction cs as [|c cs IH]; intros d d' a r Hrun Hw; unfold run in *;
    simpl in Hrun.
  - by simplify_eq.
  - destruct (exec c d) as [d1|] eqn:Hexec; simpl in Hrun; [|done].
    eapply IH; [done|]. by eapply waits_on_exec.
Qed.

Lemma waiting_never_removed_witness :
  run [Release 0 0; Request 1 0] one_waiter
  = Some (mkDetector 1 2 [Some 1%nat] [None; Some 0%nat]
            {[ 0%nat := ∅; 1%nat := {[ 0%nat ]} ]})
  ∧ waits_on one_waiter 1 0
  ∧ waits_on (mkDetector 1 2 [Some 1%nat] [None; Some 0%nat]
                {[ 0%nat := ∅; 1%nat := {[ 0%nat ]} ]}) 1 0.
Proof.
  assert (waits_on one_waiter 1 0) as Hw.
  { exists {[ 0%nat ]}. split; [reflexivity|]. by apply elem_of_singleton. }
  split; [vm_compute; reflexivity|]. split; [exact Hw|].
  apply (waiting_never_removed [Release 0 0; Request 1 0] one_waiter);
    [vm_compute; reflexivity|exact Hw].
Defined.

(** X3. A thread that holds nothing and acquires a free resource, then
    releases it, leaves the detector exactly as it was. *)
Theorem acquire_release_round_trip d t r :
  resource_status d !! r = Some None →
  thread_locks d !! t = Some None →
  run [Request t r; Release t r] d = Some d.
Proof.
  intros Hr Ht.
  pose proof (lookup_lt_Some _ _ _ Hr) as Hlr.
  pose proof (lookup_lt_Some _ _ _ Ht) as Hlt.
  unfold run. simpl. unfold request_resource. rewrite Hr. simpl.
  rewrite !list_set_lt by done. simpl.
  unfold release_resource. simpl.
  rewrite list_lookup_insert_eq by done. simpl.
  case_decide; [|done].
  rewrite !list_set_lt by (by rewrite length_insert). simpl.
  rewrite !list_insert_insert_eq.
  rewrite (list_insert_id _ r None) by done.
  rewrite (list_insert_id _ t None) by done. by destruct d.
Qed.

Lemma acquire_release_round_trip_witness :
  resource_status (init 3 3) !! 1%nat = Some None
  ∧ thread_locks (init 3 3) !! 2%nat = Some None
  ∧ run [Request 2 1; Release 2 1] (init 3 3) = Some (init 3 3).
Proof.
  split; [reflexivity|]. split; [reflexivity|].
  apply (acquire_release_round_trip (init 3 3) 2 1); reflexivity.
Defined.

(** X4. A thread whose lock record is a resource that [resource_status]
    gives to it, and that releases the resource and requests it again,
    leaves the detector exactly as it was. *)
Theorem release_acquire_round_trip d t r :
  thread_locks d !! t = Some (Some r) →
  resource_status d !! r = Some (Some t) →
  run [Release t r; Request t r] d = Some d.
Proof.
  intros Ht Hr.
  pose proof (lookup_lt_Some _ _ _ Hr) as Hlr.
  pose proof (lookup_lt_Some _ _ _ Ht) as Hlt.
  unfold run. simpl. unfold release_resource. rewrite Ht. simpl.
  case_decide; [|done]. rewrite !list_set_lt by done. simpl.
  unfold request_resource. simpl.
  rewrite list_lookup_insert_eq by done. simpl.
  rewrite !list_set_lt by (by rewrite length_insert). simpl.
  rewrite !list_insert_insert_eq.
  rewrite (list_insert_id _ r (Some t)) by done.
  rewrite (list_insert_id _ t (Some r)) by done. by destruct d.
Qed.

Lemma release_acquire_round_trip_witness :
  thread_locks scenarioB !! 1%nat = Some (Some 1%nat)
  ∧ resource_status scenarioB !! 1%nat = Some (Some 1%nat)
  ∧ run [Release 1 1; Request 1 1] scenarioB = Some scenarioB.
Proof.
  split; [reflexivity|]. split; [reflexivity|].
  apply (release_acquire_round_trip scenarioB 1 1); reflexivity.
Defined.

(** Two well-formed states with the same lock-record graph get the same
    answer, whatever the iteration orders. *)
Lemma check_deadlock_same_graph (o1 o2 : gset nat → list nat) d1 d2 :
  (∀ X r, r ∈ o1 X ↔ r ∈ X) → (∀ X r, r ∈ o2 X ↔ r ∈ X) →
  wf d1 → wf d2 →
  (∀ a b, lock_edge d1 a b ↔ lock_edge d2 a b) →
  check_deadlock o1 d1 = check_deadlock o2 d2.
Proof.
  intros Ho1 Ho2 Hwf1 Hwf2 Hsame.
  destruct (check_deadlock_lock_graph o1 Ho1 d1 Hwf1) as (b1 & -> & Hb1).
  destruct (check_deadlock_lock_graph o2 Ho2 d2 Hwf2) as (b2 & -> & Hb2).
  f_equal.
  assert (has_cycle (lock_edge d1) ↔ has_cycle (lock_edge d2)) as Hcyc.
  { split; intros (a & Ha); exists a; (eapply tc_subrel; [|exact Ha]);
      intros x y Hxy; by apply Hsame. }
  destruct b1, b2; try done.
  - assert (false = true); [|done]. apply Hb2, Hcyc, Hb1. done.
  - assert (false = true); [|done]. apply Hb1, Hcyc, Hb2. done.
Qed.

(** X5. On every well-formed state, with no assumption on the held map,
    [check_deadlock] returns [True] exactly when there is a cycle of
    threads each of which waits for the lock record of the next one, and
    [False] otherwise; the answer does not depend on the order in which
    Python goes through the waiting sets. *)
Theorem check_deadlock_decides_lock_cycles
  (o1 o2 : gset nat → list nat) d :
  (∀ X r, r ∈ o1 X ↔ r ∈ X) → (∀ X r, r ∈ o2 X ↔ r ∈ X) →
  wf d →
  check_deadlock o1 d = check_deadlock o2 d
  ∧ (check_deadlock o1 d = Some true ↔ has_cycle (lock_edge d))
  ∧ (check_deadlock o1 d = Some false ↔ ¬ has_cycle (lock_edge d)).
Proof.
  intros Ho1 Ho2 Hwf.
  split; [by apply check_deadlock_same_graph|].
  destruct (check_deadlock_lock_graph o1 Ho1 d Hwf) as (b & -> & Hb).
  split.
  - rewrite <- Hb. split; [by intros [= ->]|by intros ->].
  - rewrite <- Hb. split; [by intros [= ->]|]. intros Hnot. by destruct b.
Qed.

Lemma check_deadlock_decides_lock_cycles_witness :
  (∀ (X : gset nat) r, r ∈ elements X ↔ r ∈ X)
  ∧ (∀ (X : gset nat) r, r ∈ reverse (elements X) ↔ r ∈ X)
  ∧ wf two_held
  ∧ check_deadlock elements two_held
    = check_deadlock (λ X, reverse (elements X)) two_held
  ∧ (check_deadlock elements two_held = Some true
     ↔ has_cycle (lock_edge two_held))
  ∧ (check_deadlock elements two_held = Some false
     ↔ ¬ has_cycle (lock_edge two_held)).
Proof.
  assert (∀ (X : gset nat) r, r ∈ reverse (elements X) ↔ r ∈ X) as Hrev.
  { intros X r. rewrite elem_of_reverse. apply elem_of_elements. }
  split; [intros X r; apply elem_of_elements|]. split; [exact Hrev|].
  split; [apply wf_two_held|].
  apply (check_deadlock_decides_lock_cycles elements
           (λ X, reverse (elements X)) two_held);
    [intros X r; apply elem_of_elements | exact Hrev | apply wf_two_held].
Defined.

(** X6. [check_deadlock] reports a deadlock only if two distinct threads
    each have a lock record and each wait for some resource. *)
Theorem deadlock_needs_two_holders (o : gset nat → list nat) d :
  (∀ X r, r ∈ o X ↔ r ∈ X) → wf d →
  check_deadlock o d = Some true →
  ∃ a b, a ≠ b ∧ holds_and_waits d a ∧ holds_and_waits d b.
Proof.
  intros Ho Hwf Hcheck.
  destruct (check_deadlock_lock_graph o Ho d Hwf) as (b0 & Hb0 & Hiff).
  rewrite Hb0 in Hcheck. simplify_eq.
  destruct (proj1 Hiff eq_refl) as (a & Hcyc).
  apply tc_first in Hcyc as (b & Hab & Hba).
  pose proof Hab as (Hne & r & Hwa & Hlb).
  apply rtc_inv in Hba as [->|(c & Hbc & Hca)]; [done|].
  pose proof Hbc as (_ & r' & Hwb & _).
  assert (∃ r'', thread_locks d !! a = Some (Some r'')) as Hla.
  { apply rtc_inv_r in Hca as [->|(y & _ & (_ & r'' & _ & Hy))].
    - destruct Hbc as (_ & r'' & _ & Hc). by exists r''.
    - by exists r''. }
  exists a, b. split; [done|]. split.
  - split; [done|]. by exists r.
  - split; [by exists r|]. by exists r'.
Qed.

Lemma deadlock_needs_two_holders_witness :
  (∀ (X : gset nat) r, r ∈ elements X ↔ r ∈ X)
  ∧ wf scenarioB
  ∧ check_deadlock elements scenarioB = Some true
  ∧ ∃ a b, a ≠ b ∧ holds_and_waits scenarioB a
           ∧ holds_and_waits scenarioB b.
Proof.
  split; [intros X r; apply elem_of_elements|].
  split; [apply wf_scenarioB|]. split; [vm_compute; reflexivity|].
  apply (deadlock_needs_two_holders elements scenarioB);
    [intros X r; apply elem_of_elements | apply wf_scenarioB
    | vm_compute; reflexivity].
Defined.

(** X7. A thread that requests a resource it already holds is not told
    so: it is recorded as waiting for its own resource, the held map and
    the lock records stay as they are, and [check_deadlock] answers as
    before (a thread never counts as waiting for itself). *)
Theorem request_own_resource (o : gset nat → list nat) d t r :
  (∀ X r, r ∈ o X ↔ r ∈ X) →
  wf d → lock_sound d → (t < num_threads d)%nat →
  resource_status d !! r = Some (Some t) →
  ∃ d', request_resource t r d = Some d'
      ∧ waits_on d' t r
      ∧ resource_status d' = resource_status d
      ∧ thread_locks d' = thread_locks d
      ∧ check_deadlock o d' = check_deadlock o d.
Proof.
  intros Ho Hwf Hsound Ht Hr.
  destruct (proj2 (proj2 Hwf t) Ht) as [w Hw].
  unfold request_resource. rewrite Hr. simpl. rewrite Hw. simpl.
  eexists. split; [done|].
  set (d' := mkDetector _ _ _ _ _).
  assert (wf d') as Hwf'.
  { apply (wf_exec (Request t r) d); [done|]. simpl.
    unfold request_resource. rewrite Hr. simpl. by rewrite Hw. }
  assert (waits_on d' t r) as Hwait.
  { exists (w ∪ {[r]}). split; [apply lookup_insert_eq|].
    apply elem_of_union. right. by apply elem_of_singleton. }
  split; [done|]. split; [done|]. split; [done|].
  apply check_deadlock_same_graph; try done.
  intros a b. unfold lock_edge. split.
  - intros (Hne & r' & (w' & Hw' & Hr') & Hb). split; [done|].
    exists r'. split; [|done]. simpl in Hw'.
    destruct (decide (t = a)) as [<-|Hta].
    + rewrite lookup_insert_eq in Hw'. simplify_eq.
      apply elem_of_union in Hr' as [Hr'|Hr']; [by exists w|].
      apply elem_of_singleton in Hr'. subst r'. simpl in Hb.
      apply Hsound in Hb. congruence.
    + rewrite lookup_insert_ne in Hw' by done. by exists w'.
  - intros (Hne & r' & Hwa & Hb). split; [done|]. exists r'.
    split; [|done].
    apply (waits_on_exec (Request t r) d); [|done]. simpl.
    unfold request_resource. rewrite Hr. simpl. by rewrite Hw.
Qed.

Lemma wf_one_waiter : wf one_waiter.
Proof. apply wf_by_dom; [done|]. vm_compute. reflexivity. Qed.

Lemma lock_sound_one_waiter : lock_sound one_waiter.
Proof.
  eapply lock_sound_run; [apply (lock_sound_init 1 2)|].
  apply one_waiter_reached.
Qed.

Lemma request_own_resource_witness :
  (∀ (X : gset nat) r, r ∈ elements X ↔ r ∈ X)
  ∧ wf one_waiter ∧ lock_sound one_waiter
  ∧ (0 < num_threads one_waiter)%nat
  ∧ resource_status one_waiter !! 0%nat = Some (Some 0%nat)
  ∧ ∃ d', request_resource 0 0 one_waiter = Some d'
        ∧ waits_on d' 0 0
        ∧ resource_status d' = resource_status one_waiter
        ∧ thread_locks d' = thread_locks one_waiter
        ∧ check_deadlock elements d' = check_deadlock elements one_waiter.
Proof.
  split; [intros X r; apply elem_of_elements|].
  split; [apply wf_one_waiter|]. split; [apply lock_sound_one_waiter|].
  split; [simpl; lia|]. split; [reflexivity|].
  apply (request_own_resource elements one_waiter 0 0);
    [intros X r; apply elem_of_elements | apply wf_one_waiter
    | apply lock_sound_one_waiter | simpl; lia | reflexivity].
Defined.

(** *** [deadlock_prevention] *)

(** The loop that looks for the thread to terminate: no thread has a lock
    record, or the first one that has releases it. *)
Lemma terminate_spec d :
  wf d → lock_sound d →
  ((∀ t, (t < num_threads d)%nat → thread_locks d !! t = Some None)
   ∧ for_until terminate_step (range (num_threads d)) d = Some (false, d))
  ∨ (∃ v r,
       thread_locks d !! v = Some (Some r)
       ∧ (∀ u, (u < v)%nat → thread_locks d !! u = Some None)
       ∧ for_until terminate_step (range (num_threads d)) d
         = Some (true,
                 mkDetector (num_resources d) (num_threads d)
                   (<[r:=None]> (resource_status d))
                   (<[v:=None]> (thread_locks d)) (waiting_threads d))).
Proof.
  intros Hwf Hsound.
  destruct (for_until_rule terminate_step
    (λ pre c, c = d ∧ ∀ u, u ∈ pre → thread_locks d !! u = Some None)
    (λ c, ∃ v r,
        thread_locks d !! v = Some (Some r)
        ∧ (∀ u, (u < v)%nat → thread_locks d !! u = Some None)
        ∧ c = mkDetector (num_resources d) (num_threads d)
                (<[r:=None]> (resource_status d))
                (<[v:=None]> (thread_locks d)) (waiting_threads d))
    (range (num_threads d)) d) as (b & d' & Hrun & HR & HP).
  - split; [done|]. intros u Hu. by apply elem_of_nil in Hu.
  - intros pre v post c Heq [-> Hpre].
    apply range_split in Heq as [Hv Hlow].
    destruct (lookup_lt_is_Some_2 (thread_locks d) v) as [l Hl].
    { destruct Hwf as [-> _]. done. }
    unfold terminate_step. rewrite Hl. simpl. destruct l as [r|].
    + pose proof (Hsound v r Hl) as Hst.
      apply lookup_lt_Some in Hst.
      pose proof (lookup_lt_Some _ _ _ Hl) as Hlv.
      unfold release_resource. rewrite Hl. simpl.
      case_decide; [|done]. rewrite !list_set_lt by done. simpl.
      eexists true, _. split; [done|]. split; [|done]. intros _.
      exists v, r. split; [done|]. split; [|done].
      intros u Hu. by apply Hpre, Hlow.
    + exists false, d. split; [done|]. split; [done|]. intros _.
      split; [done|]. intros u Hu.
      apply elem_of_app in Hu as [Hu|Hu]; [by apply Hpre|].
      apply list_elem_of_singleton in Hu. by subst.
  - rewrite Hrun. destruct b.
    + right. destruct (HR eq_refl) as (v & r & ? & ? & ->). by exists v, r.
    + left. destruct (HP eq_refl) as [-> Hall]. split; [|done].
      intros t Ht. apply Hall, elem_of_seq. lia.
Qed.

Lemma deadlock_prevention_idle (o : gset nat → list nat) d polls :
  check_deadlock o d = Some false → deadlock_prevention o polls d = Some d.
Proof.
  intros Hcheck. induction polls as [|polls IH]; simpl; [done|].
  by rewrite Hcheck.
Qed.

(** X8. [deadlock_prevention] on a well-formed state with sound lock
    records.  While [check_deadlock] finds nothing, it leaves the state
    alone however long it polls.  When [check_deadlock] finds a deadlock,
    the thread it terminates is the lowest-indexed thread with a lock
    record, whether or not that thread is part of the deadlock: its
    resource is freed and its record cleared, the waiting sets stay, and
    a deadlock remains afterwards exactly when some cycle does not go
    through that thread. *)
Theorem deadlock_prevention_victim (o : gset nat → list nat) d :
  (∀ X r, r ∈ o X ↔ r ∈ X) → wf d → lock_sound d →
  (check_deadlock o d = Some false →
   ∀ polls, deadlock_prevention o polls d = Some d)
  ∧ (check_deadlock o d = Some true →
     ∃ v r d',
       (∀ polls, deadlock_prevention o (S polls) d = Some d')
       ∧ thread_locks d !! v = Some (Some r)
       ∧ (∀ u, (u < v)%nat → thread_locks d !! u = Some None)
       ∧ resource_status d' = <[r:=None]> (resource_status d)
       ∧ thread_locks d' = <[v:=None]> (thread_locks d)
       ∧ waiting_threads d' = waiting_threads d
       ∧ (check_deadlock o d' = Some true
          ↔ has_cycle (lock_edge_avoiding d v))).
Proof.
  intros Ho Hwf Hsound. split.
  { intros Hcheck polls. by apply deadlock_prevention_idle. }
  intros Hcheck.
  destruct (check_deadlock_lock_graph o Ho d Hwf) as (b0 & Hb0 & Hiff).
  rewrite Hb0 in Hcheck. simplify_eq.
  destruct (proj1 Hiff eq_refl) as (a & Hcyc).
  apply tc_first in Hcyc as (b & (_ & r0 & _ & Hlb) & _).
  destruct (terminate_spec d Hwf Hsound)
    as [[Hnone _]|(v & r & Hv & Hlow & Hloop)].
  { rewrite Hnone in Hlb; [done|].
    apply lookup_lt_Some in Hlb. destruct Hwf as [<- _]. done. }
  set (d' := mkDetector (num_resources d) (num_threads d)
               (<[r:=None]> (resource_status d))
               (<[v:=None]> (thread_locks d)) (waiting_threads d)) in *.
  exists v, r, d'. split.
  { intros polls. simpl. rewrite Hb0, Hloop. done. }
  split; [done|]. split; [done|]. split; [done|]. split; [done|].
  split; [done|].
  assert (wf d') as Hwf'.
  { destruct Hwf as [Hlen Hdom]. split; [|done]. simpl.
    by rewrite length_insert. }
  assert (∀ x y, lock_edge d' x y ↔ lock_edge_avoiding d v x y) as Hedges.
  { intros x y. unfold lock_edge_avoiding, lock_edge, waits_on. simpl.
    destruct (decide (y = v)) as [->|Hyv].
    - rewrite list_lookup_insert_eq by (by eapply lookup_lt_Some).
      split; [intros (_ & ? & _ & ?); done|intros [_ ?]; done].
    - rewrite list_lookup_insert_ne by done. tauto. }
  destruct (check_deadlock_lock_graph o Ho d' Hwf') as (b' & -> & Hiff').
  assert (has_cycle (lock_edge d') ↔ has_cycle (lock_edge_avoiding d v))
    as <-.
  { split; intros (x & Hx); exists x; (eapply tc_subrel; [|exact Hx]);
      intros ? ? ?; by apply Hedges. }
  rewrite <- Hiff'. split; [by intros [= ->]|by intros ->].
Qed.

Lemma bystander_reached :
  run [Request 0 0; Request 1 1; Request 2 2; Request 1 2; Request 2 1]
    (init 3 3) = Some bystander.
Proof. vm_compute. reflexivity. Qed.

Lemma deadlock_prevention_victim_witness :
  (∀ (X : gset nat) r, r ∈ elements X ↔ r ∈ X)
  ∧ wf bystander ∧ lock_sound bystander
  ∧ (check_deadlock elements bystander = Some false →
     ∀ polls, deadlock_prevention elements polls bystander = Some bystander)
  ∧ (check_deadlock elements bystander = Some true →
     ∃ v r d',
       (∀ polls, deadlock_prevention elements (S polls) bystander = Some d')
       ∧ thread_locks bystander !! v = Some (Some r)
       ∧ (∀ u, (u < v)%nat → thread_locks bystander !! u = Some None)
       ∧ resource_status d' = <[r:=None]> (resource_status bystander)
       ∧ thread_locks d' = <[v:=None]> (thread_locks bystander)
       ∧ waiting_threads d' = waiting_threads bystander
       ∧ (check_deadlock elements d' = Some true
          ↔ has_cycle (lock_edge_avoiding bystander v))).
Proof.
  assert (wf bystander ∧ lock_sound bystander) as [Hwf Hsound].
  { split.
    - eapply wf_run; [apply (detector_init_wf 3 3)|].
      apply bystander_reached.
    - eapply lock_sound_run; [apply (lock_sound_init 3 3)|].
      apply bystander_reached. }
  split; [intros X r; apply elem_of_elements|].
  split; [exact Hwf|]. split; [exact Hsound|].
  apply (deadlock_prevention_victim elements bystander);
    [intros X r; apply elem_of_elements | exact Hwf | exact Hsound].
Defined.

(** The deadlock of [bystander] survives [deadlock_prevention]: the
    thread terminated is thread 0, which waits for nothing. *)
Lemma deadlock_prevention_bystander :
  check_deadlock elements bystander = Some true
  ∧ ∃ d', deadlock_prevention elements 1 bystander = Some d'
        ∧ thread_locks d' = [None; Some 1%nat; Some 2%nat]
        ∧ check_deadlock elements d' = Some true.
Proof.
  split; [vm_compute; reflexivity|]. eexists.
  split; [vm_compute; reflexivity|]. split; vm_compute; reflexivity.
Qed.

(** *** [example_thread_work] *)

(** X18. [example_thread_work] run by a thread while the resources 0 and
    1 are free and no other thread gets in between: the second
    acquisition replaces the lock record, so that the release of
    resource 0 does nothing and only resource 1 is given back.
    Afterwards resource 0 is still marked as held by the thread, which
    has no lock record any more: no later call frees it. *)
Theorem example_thread_work_leaks d t :
  wf d → lock_sound d → (t < num_threads d)%nat →
  resource_status d !! 0%nat = Some None →
  resource_status d !! 1%nat = Some None →
  ∃ d', example_thread_work t d = Some d'
      ∧ resource_status d' = <[0%nat := Some t]> (resource_status d)
      ∧ thread_locks d' = <[t := None]> (thread_locks d)
      ∧ waiting_threads d' = waiting_threads d
      ∧ orphaned d' t 0
      ∧ ∀ cs d'', run cs d' = Some d'' → orphaned d'' t 0.
Proof.
  intros [Hlen Hdom] Hsound Ht H0 H1.
  pose proof (lookup_lt_Some _ _ _ H0) as Hl0.
  pose proof (lookup_lt_Some _ _ _ H1) as Hl1.
  assert (t < length (thread_locks d))%nat as Hlt by lia.
  assert (orphaned
            (mkDetector (num_resources d) (num_threads d)
               (<[0%nat := Some t]> (resource_status d))
               (<[t := None]> (thread_locks d)) (waiting_threads d)) t 0)
    as Horph.
  { split; simpl.
    - by rewrite list_lookup_insert_eq.
    - intros t'. destruct (decide (t' = t)) as [->|Hne].
      + by rewrite list_lookup_insert_eq.
      + rewrite list_lookup_insert_ne by done.
        by apply lock_sound_free. }
  exists (mkDetector (num_resources d) (num_threads d)
            (<[0%nat := Some t]> (resource_status d))
            (<[t := None]> (thread_locks d)) (waiting_threads d)).
  split; [|split; [reflexivity|]; split; [reflexivity|];
           split; [reflexivity|]; split; [exact Horph|]].
  - unfold example_thread_work, request_resource, release_resource.
    rewrite H0. simpl.
    rewrite !list_set_lt by done. simpl.
    rewrite list_lookup_insert_ne by done. rewrite H1. simpl.
    rewrite !list_set_lt by (by rewrite length_insert). simpl.
    rewrite list_lookup_insert_eq by (by rewrite length_insert). simpl.
    rewrite list_lookup_insert_eq by (by rewrite length_insert). simpl.
    rewrite !list_set_lt by (by rewrite !length_insert). simpl.
    rewrite !list_insert_insert_eq.
    rewrite (list_insert_insert_ne _ 1 0) by done.
    by rewrite (list_insert_id _ 1 None) by done.
  - intros cs d'' Hrun. by eapply orphaned_run.
Qed.

Lemma example_thread_work_leaks_witness :
  wf (init 3 3) ∧ lock_sound (init 3 3) ∧ (0 < num_threads (init 3 3))%nat
  ∧ resource_status (init 3 3) !! 0%nat = Some None
  ∧ resource_status (init 3 3) !! 1%nat = Some None
  ∧ ∃ d', example_thread_work 0 (init 3 3) = Some d'
      ∧ resource_status d'
        = <[0%nat := Some 0%nat]> (resource_status (init 3 3))
      ∧ thread_locks d' = <[0%nat := None]> (thread_locks (init 3 3))
      ∧ waiting_threads d' = waiting_threads (init 3 3)
      ∧ orphaned d' 0 0
      ∧ ∀ cs d'', run cs d' = Some d'' → orphaned d'' 0 0.
Proof.
  split; [apply detector_init_wf|]. split; [apply lock_sound_init|].
  split; [simpl; lia|]. split; [reflexivity|]. split; [reflexivity|].
  apply (example_thread_work_leaks (init 3 3) 0);
    [apply detector_init_wf | apply lock_sound_init | simpl; lia
    | reflexivity | reflexivity].
Defined.

End DetectorMore.
